(** * StampIt: region detection, catalog store and display mapping

    A shallow embedding of the Python sources

      - [stamp_app/src/image_processing.py]  (contour filter and exporter),
      - [stamp_app/src/db_utils.py]          (SQLite catalog of stamps),
      - [stamp_app/src/main.py]              (display scaling and hit-testing),

    followed by the properties of the design document that are settled on
    it.  Python [float]s are IEEE-754 binary64 values; they are modelled by
    the bit-level specification [SpecFloat] of the Standard Library at
    precision 53 and maximal exponent 1024, so every definition below
    evaluates.  Calls into OpenCV, Tk, [json], [uuid] and the file system
    are parameters of the functions that make them. *)

From Stdlib Require Import ZArith Lia Bool SpecFloat.
From stdpp Require Import base option list strings gmap sorting.

#[local] Open Scope Z_scope.

(** ** Python values that the three modules compute with *)

Module Py.

(** The exceptions that the modelled code can raise or catch. *)
Inductive exn : Set :=
| ZeroDivisionError
| OverflowError
| ValueError
| IOError
| Cv2Error.

(** A computation either returns or raises. *)
Inductive result (A : Type) : Type :=
| Ok (a : A)
| Raise (e : exn).
Arguments Ok {A} a.
Arguments Raise {A} e.

#[global] Instance result_ret : MRet result := λ A a, Ok a.
#[global] Instance result_bind : MBind result := λ A B f m,
  match m with
  | Ok a => f a
  | Raise e => Raise e
  end.

Definition prec : Z := 53.
Definition emax : Z := 1024.

Definition float : Set := spec_float.

(** An integer as an exact, not yet rounded, binary number. *)
Definition exact_int (z : Z) : float :=
  match z with
  | Z0 => S754_zero false
  | Zpos p => S754_finite false p 0
  | Zneg p => S754_finite true p 0
  end.

Definition raise_if_inf (f : float) : result float :=
  match f with
  | S754_infinity _ => Raise OverflowError
  | _ => Ok f
  end.

(** [float(z)]: round to nearest, ties to even; an integer beyond the
    largest double raises [OverflowError]. *)
Definition float_of_int (z : Z) : result float :=
  raise_if_inf (binary_normalize prec emax z 0 false).

Definition is_zero (f : float) : bool :=
  match f with
  | S754_zero _ => true
  | _ => false
  end.

(** [a / b] on two [int]s: the correctly rounded quotient. *)
Definition int_truediv (a b : Z) : result float :=
  if b =? 0 then Raise ZeroDivisionError
  else raise_if_inf (SFdiv prec emax (exact_int a) (exact_int b)).

(** [x / y] on two [float]s.  Only a zero divisor raises: an overflowing
    quotient is [inf]. *)
Definition float_truediv (x y : float) : result float :=
  if is_zero y then Raise ZeroDivisionError
  else Ok (SFdiv prec emax x y).

Definition float_mul (x y : float) : float := SFmul prec emax x y.

(** [a / y] and [a * y] with an [int] on the left: the integer is
    converted first. *)
Definition int_div_float (a : Z) (y : float) : result float :=
  x ← float_of_int a; float_truediv x y.

Definition int_mul_float (a : Z) (y : float) : result float :=
  x ← float_of_int a; mret (float_mul x y).

(** [x / b] with an [int] on the right. *)
Definition float_div_int (x : float) (b : Z) : result float :=
  y ← float_of_int b; float_truediv x y.

(** [int(f)]: truncation towards zero. *)
Definition int_of_float (f : float) : result Z :=
  match f with
  | S754_zero _ => Ok 0
  | S754_finite s m e => Ok (cond_Zopp s (Z.shiftl (Zpos m) e))
  | S754_infinity _ => Raise OverflowError
  | S754_nan => Raise ValueError
  end.

Definition float_le (x y : float) : bool := SFleb x y.
Definition float_lt (x y : float) : bool := SFltb x y.

(** The double that equals an integer below [2^53]. *)
Definition float_const (z : Z) : float := binary_normalize prec emax z 0 false.

(** The double that equals [n / 2], for an integer [n] below [2^53]. *)
Definition float_half (n : Z) : float :=
  binary_normalize prec emax n (-1) false.

(** [a < y] with an [int] constant on the left.  Python compares the two
    numbers exactly; the constants compared in this program are below
    [2^53], where the conversion is exact. *)
Definition int_lt_float (a : Z) (y : float) : bool :=
  SFltb (float_const a) y.
Definition float_lt_int (x : float) (b : Z) : bool :=
  SFltb x (float_const b).

(** The literals [0.5], [2.0] and [0.02]. *)
Definition lit_0_5 : float := S754_finite false 4503599627370496 (-53).
Definition lit_2_0 : float := S754_finite false 4503599627370496 (-51).
Definition lit_0_02 : float := S754_finite false 5764607523034235 (-58).

End Py.

Export Py.

(** ** Vocabulary for facts about rounding *)

Module Rounding.

(** [k] single-bit shifts of a mantissa with its round and sticky bits. *)
Definition shr_n (k : nat) (mrs : shr_record) : shr_record :=
  Nat.iter k shr_1 mrs.

(** [m / 2^k] rounded to the nearest integer, ties to even. *)
Definition rne (m k : Z) : Z :=
  let q := m / 2 ^ k in
  let rem := m mod 2 ^ k in
  if 2 * rem <? 2 ^ k then q
  else if 2 * rem =? 2 ^ k then (if Z.even q then q else q + 1)
  else q + 1.

(** An integer [N] of at least 53 bits rounded to 53 significant bits. *)
Definition R53 (N : Z) : Z :=
  let n := Z.log2 N + 1 - 53 in rne N n * 2 ^ n.

(** A finite double of sign [s] with a full 53-bit mantissa and an
    exponent between [lo] and [hi]. *)
Definition normal (f : float) (s : bool) (lo hi : Z) : Prop :=
  ∃ m e, f = S754_finite s m e ∧ 2 ^ 52 ≤ Z.pos m < 2 ^ 53 ∧ lo ≤ e ≤ hi.

End Rounding.

(** ** [image_processing.py] *)

Module ImageProcessing.

Definition MIN_CONTOUR_AREA : Z := 1000.
Definition MAX_CONTOUR_AREA : Z := 50000.
Definition ASPECT_RATIO_MIN : float := lit_0_5.
Definition ASPECT_RATIO_MAX : float := lit_2_0.

Definition point : Set := Z * Z.
Definition contour : Set := list point.

(** A rectangle [(x, y, w, h)], as [cv2.boundingRect] returns it and as
    the ['bbox'] entry of a result stores it. *)
Definition rect : Set := Z * Z * Z * Z.

(** Only the size of a decoded image matters here. *)
Record image : Set := { img_width : Z; img_height : Z }.

(** One entry of the returned list: [{'path': ..., 'bbox': ...}]. *)
Record stamp : Set := { path : string; bbox : rect }.

(** What a call of [cv2.imwrite] can do: report success, report failure
    through its boolean result, or raise an exception, of which the
    function uses the text. *)
Inductive write_outcome : Set :=
| Written
| NotWritten
| WriteRaised (e : string).

(** What the function leaves behind besides its result: how many tokens
    were drawn from [uuid.uuid4] and what was printed. *)
Record world : Set := { uuid_count : nat; stdout : list string }.

(** OpenCV's [boundingRect] on integer points: the upright rectangle
    that covers the pixels of all the points. *)
Definition cv_boundingRect (pts : contour) : rect :=
  match pts with
  | [] => (0, 0, 0, 0)
  | (x0, y0) :: rest =>
      let xmin := foldr Z.min x0 (fst <$> rest) in
      let xmax := foldr Z.max x0 (fst <$> rest) in
      let ymin := foldr Z.min y0 (snd <$> rest) in
      let ymax := foldr Z.max y0 (snd <$> rest) in
      (xmin, ymin, xmax - xmin + 1, ymax - ymin + 1)
  end.

(** [float(w) / h] *)
Definition aspect_ratio_of (w h : Z) : result float :=
  fw ← float_of_int w; float_div_int fw h.

(** [MIN_CONTOUR_AREA < area < MAX_CONTOUR_AREA] *)
Definition area_in_band (area : float) : bool :=
  int_lt_float MIN_CONTOUR_AREA area && float_lt_int area MAX_CONTOUR_AREA.

(** [ASPECT_RATIO_MIN <= aspect_ratio <= ASPECT_RATIO_MAX] *)
Definition ratio_in_band (aspect_ratio : float) : bool :=
  float_le ASPECT_RATIO_MIN aspect_ratio
  && float_le aspect_ratio ASPECT_RATIO_MAX.

Section Detect.

(** The library calls the function makes. *)
Variable BASE_DIR : string.
Variable path_stem : string → string.
Variable mkdir_ok : bool.
Variable imread : string → option image.
(** [cvtColor], [GaussianBlur], [Canny] and [findContours] with
    [RETR_EXTERNAL] and [CHAIN_APPROX_SIMPLE], in this order. *)
Variable outer_contours : image → list contour.
Variable contourArea : contour → float.
Variable arcLength : contour → bool → float.
Variable approxPolyDP : contour → float → bool → contour.
Variable boundingRect : contour → rect.
Variable imwrite : string → rect → write_outcome.
Variable uuid4_hex : nat → string.

Definition DETECTED_STAMPS_DIR : string :=
  BASE_DIR +:+ "/data/detected_stamps".

(** [f"{stem}_stamp_{uuid.uuid4().hex[:8]}.png"] *)
Definition unique_stamp_filename (stem token_hex : string) : string :=
  stem +:+ "_stamp_" +:+ String.substring 0 8 token_hex +:+ ".png".

Definition stamp_save_path (stem token_hex : string) : string :=
  DETECTED_STAMPS_DIR +:+ "/" +:+ unique_stamp_filename stem token_hex.

Definition save_warning (p e : string) : string :=
  "Warning: Could not save detected stamp " +:+ p +:+ ": " +:+ e.

(** The outcome of the three filters on one contour: the bounding
    rectangle of an accepted contour, or nothing.  The division is
    the only step that can raise. *)
Definition filter_contour (c : contour) : result (option rect) :=
  let area := contourArea c in
  if area_in_band area then
    let perimeter := arcLength c true in
    let approx := approxPolyDP c (float_mul lit_0_02 perimeter) true in
    if (length approx =? 4)%nat then
      let '(x, y, w, h) := boundingRect approx in
      aspect_ratio ← aspect_ratio_of w h;
      if ratio_in_band aspect_ratio then
        mret (Some (x, y, w, h))
      else mret None
    else mret None
  else mret None.

(** Crop, name, write and record one accepted candidate. *)
Definition export_candidate (stem : string) (r : rect)
    (acc : list stamp) (w : world) : list stamp * world :=
  let p := stamp_save_path stem (uuid4_hex (uuid_count w)) in
  match imwrite p r with
  | WriteRaised e =>
      (acc, {| uuid_count := S (uuid_count w);
               stdout := stdout w ++ [save_warning p e] |})
  | Written | NotWritten =>
      (acc ++ [{| path := p; bbox := r |}],
       {| uuid_count := S (uuid_count w); stdout := stdout w |})
  end.

(** The loop over the contours. *)
Fixpoint process_contours (stem : string) (cs : list contour)
    (acc : list stamp) (w : world) : result (list stamp) * world :=
  match cs with
  | [] => (Ok acc, w)
  | c :: cs' =>
      match filter_contour c with
      | Raise e => (Raise e, w)
      | Ok None => process_contours stem cs' acc w
      | Ok (Some r) =>
          let '(acc', w') := export_candidate stem r acc w in
          process_contours stem cs' acc' w'
      end
  end.

Definition detect_and_segment_stamps (uploaded_image_path : string)
    (w : world) : result (list stamp) * world :=
  if negb mkdir_ok then (Raise ValueError, w)
  else
    match imread uploaded_image_path with
    | None => (Raise IOError, w)
    | Some img =>
        process_contours (path_stem uploaded_image_path)
          (outer_contours img) [] w
    end.

(** *** Vocabulary for the properties below *)

(** The bounding rectangles of the contours that pass the filter, in the
    order of the contours, when no filter step raises. *)
Fixpoint accepted_rects (cs : list contour) : result (list rect) :=
  match cs with
  | [] => Ok []
  | c :: cs' =>
      o ← filter_contour c;
      rs ← accepted_rects cs';
      mret (match o with Some r => r :: rs | None => rs end)
  end.

(** The records that exporting the candidates [rs] leaves in the result
    when the first of them draws token number [n]. *)
Fixpoint exported (stem : string) (n : nat) (rs : list rect) : list stamp :=
  match rs with
  | [] => []
  | r :: rs' =>
      let p := stamp_save_path stem (uuid4_hex n) in
      match imwrite p r with
      | WriteRaised _ => exported stem (S n) rs'
      | Written | NotWritten =>
          {| path := p; bbox := r |} :: exported stem (S n) rs'
      end
  end.

(** The warnings printed on the way. *)
Fixpoint warnings (stem : string) (n : nat) (rs : list rect) : list string :=
  match rs with
  | [] => []
  | r :: rs' =>
      let p := stamp_save_path stem (uuid4_hex n) in
      match imwrite p r with
      | WriteRaised e => save_warning p e :: warnings stem (S n) rs'
      | Written | NotWritten => warnings stem (S n) rs'
      end
  end.

(** The candidates whose file is on disk after the run. *)
Fixpoint written (stem : string) (n : nat) (rs : list rect) : list stamp :=
  match rs with
  | [] => []
  | r :: rs' =>
      let p := stamp_save_path stem (uuid4_hex n) in
      match imwrite p r with
      | Written => {| path := p; bbox := r |} :: written stem (S n) rs'
      | NotWritten | WriteRaised _ => written stem (S n) rs'
      end
  end.

End Detect.

(** A rectangle that lies inside a [W] by [H] image and is not empty. *)
Definition bbox_in_image (W H : Z) (r : rect) : Prop :=
  let '(x, y, w, h) := r in
  0 ≤ x ∧ 0 ≤ y ∧ 0 < w ∧ 0 < h ∧ x + w ≤ W ∧ y + h ≤ H.

End ImageProcessing.

(** ** A concrete sheet for closed examples

    The 400 by 300 sheet of [main_test] with its two filled rectangles,
    and stand-ins for the library calls on it: the shoelace area and the
    Euclidean perimeter that OpenCV computes, and a polygon
    approximation that keeps the four corners of a rectangle. *)

Module Sheet.

Import ImageProcessing.

Definition sheet_path : string := "/app/data/uploaded_images/sheet.png".
Definition sheet : image := {| img_width := 400; img_height := 300 |}.

Definition rectangle_A : contour :=
  [(50, 50); (50, 200); (150, 200); (150, 50)].
Definition rectangle_B : contour :=
  [(200, 80); (200, 180); (350, 180); (350, 80)].

Definition imread (p : string) : option image :=
  if bool_decide (p = sheet_path) then Some sheet else None.

(** [cv2.findContours] lists the outlines from the last one its scan
    meets to the first: the rectangle that starts at row 80 comes before
    the one that starts at row 50. *)
Definition outer_contours (img : image) : list contour :=
  [rectangle_B; rectangle_A].

Fixpoint cross_sum (first : point) (pts : contour) : Z :=
  match pts with
  | [] => 0
  | (x1, y1) :: rest =>
      let '(x2, y2) := hd first rest in
      x1 * y2 - x2 * y1 + cross_sum first rest
  end.

Definition contourArea (c : contour) : float :=
  float_half (Z.abs (cross_sum (hd (0, 0) c) c)).

Definition edge_length (p q : point) : float :=
  SFsqrt prec emax
    (binary_normalize prec emax
       ((q.1 - p.1) * (q.1 - p.1) + (q.2 - p.2) * (q.2 - p.2)) 0 false).

Fixpoint path_length (first : point) (pts : contour) : float :=
  match pts with
  | [] => S754_zero false
  | p :: rest =>
      SFadd prec emax (edge_length p (hd first rest)) (path_length first rest)
  end.

Definition arcLength (c : contour) (closed : bool) : float :=
  path_length (hd (0, 0) c) c.

Definition approxPolyDP (c : contour) (epsilon : float) (closed : bool)
    : contour := c.

Definition path_stem (p : string) : string := "sheet".

Definition uuid4_hex (n : nat) : string :=
  nth n [ "3f2a9c1e5b7d4a60b1c2d3e4f5a6b7c8";
          "a81d04f2c6e94b3f9d7e1a2b3c4d5e6f";
          "5c7e21b09a3f4d8e8f6a7b8c9d0e1f2a";
          "e4b6f83d1c2a4f5b9a8b7c6d5e4f3a2b" ]
        "00000000000000000000000000000000".

Definition world0 : world := {| uuid_count := 0; stdout := [] |}.

End Sheet.

(** ** [db_utils.py] *)

Module DbUtils.

(** The values a record dictionary can hold once [json.loads] has run. *)
#[local] Unset Elimination Schemes.
Inductive pyval : Set :=
| PNone
| PBool (b : bool)
| PInt (z : Z)
| PFloat (f : float)
| PStr (s : string)
| PList (l : list pyval)
| PDict (d : list (string * pyval)).
#[local] Set Elimination Schemes.

Definition is_list (v : pyval) : bool :=
  match v with
  | PList _ => true
  | _ => false
  end.

(** The values of an input dictionary [stamp_data], as the docstring of
    [add_stamp_record] types them: [None], a string, or the list of
    strings under ['source_urls']. *)
Inductive field_value : Set :=
| FNone
| FStr (s : string)
| FList (l : list string).

(** One row of the table [stamps] that [initialize_database] creates.
    [detected_stamp_image_path] is declared [TEXT UNIQUE NOT NULL], the
    other text columns may hold [NULL]. *)
Record row : Set := {
  id : Z;
  original_image_ref : option string;
  detected_stamp_image_path : string;
  search_keywords : option string;
  country : option string;
  title_suggestion : option string;
  estimated_price_range : option string;
  history_notes : option string;
  source_urls : option string;
  timestamp : string
}.

(** The database file: the table, once created, and the counter that
    [AUTOINCREMENT] keeps. *)
Record database : Set := {
  stamps : option (list row);
  sequence : Z
}.

Inductive sqlite_error : Set :=
| IntegrityError
| OtherError.

Definition fields : list string :=
  [ "original_image_ref"; "detected_stamp_image_path"; "search_keywords";
    "country"; "title_suggestion"; "estimated_price_range";
    "history_notes"; "source_urls" ].

Definition find_by_path (p : string) (rows : list row) : option row :=
  List.find (λ r, bool_decide (detected_stamp_image_path r = p)) rows.

(** [CREATE TABLE IF NOT EXISTS stamps (...)] *)
Definition initialize_database (db : database) : database :=
  match stamps db with
  | Some _ => db
  | None => {| stamps := Some []; sequence := sequence db |}
  end.

Section Catalog.

Variable connect_ok : bool.
Variable now : string.
Variable json_dumps : list string → string.
Variable json_loads : string → option pyval.

(** The value bound to a column of an [INSERT]: [NULL] when the column
    is not listed or is bound to [None]. *)
Definition column (binds : list (string * field_value)) (c : string)
    : option string :=
  match List.find (λ b, bool_decide (b.1 = c)) binds with
  | Some (_, FStr s) => Some s
  | _ => None
  end.

Definition bindable (v : field_value) : bool :=
  match v with
  | FList _ => false
  | _ => true
  end.

(** [INSERT INTO stamps (cols) VALUES (?...)] followed by [commit]. *)
Definition sqlite_insert (binds : list (string * field_value))
    (db : database) : (sqlite_error + Z) * database :=
  if negb connect_ok then (inl OtherError, db)
  else
    match stamps db with
    | None => (inl OtherError, db)
    | Some rows =>
        if negb (forallb (λ b, bindable b.2) binds) then
          (inl OtherError, db)
        else
          match column binds "detected_stamp_image_path" with
          | None => (inl IntegrityError, db)
          | Some p =>
              match find_by_path p rows with
              | Some _ => (inl IntegrityError, db)
              | None =>
                  let new_id := sequence db + 1 in
                  let r := {|
                    id := new_id;
                    original_image_ref := column binds "original_image_ref";
                    detected_stamp_image_path := p;
                    search_keywords := column binds "search_keywords";
                    country := column binds "country";
                    title_suggestion := column binds "title_suggestion";
                    estimated_price_range :=
                      column binds "estimated_price_range";
                    history_notes := column binds "history_notes";
                    source_urls := column binds "source_urls";
                    timestamp := now |} in
                  (inr new_id,
                   {| stamps := Some (rows ++ [r]); sequence := new_id |})
              end
          end
    end.

(** The columns named in the [INSERT] and the values bound to them
    (lines 90-95): the fields that are keys of the dictionary. *)
Definition binds_of (stamp_data : gmap string field_value)
    (fields : list string) : list (string * field_value) :=
  let query_fields := filter (λ f, is_Some (stamp_data !! f)) fields in
  (λ f, (f, default FNone (stamp_data !! f))) <$> query_fields.

(** The in-place update of the caller's dictionary on line 79. *)
Definition encode_source_urls (stamp_data : gmap string field_value)
    : gmap string field_value :=
  match stamp_data !! "source_urls" with
  | Some (FList l) => <["source_urls" := FStr (json_dumps l)]> stamp_data
  | _ => stamp_data
  end.

Definition add_stamp_record (stamp_data : gmap string field_value)
    (db : database) : option Z * database :=
  match stamp_data !! "detected_stamp_image_path" with
  | None => (None, db)
  | Some _ =>
      let stamp_data := encode_source_urls stamp_data in
      match sqlite_insert (binds_of stamp_data fields) db with
      | (inr last_id, db') => (Some last_id, db')
      | (inl _, db') => (None, db')
      end
  end.

Definition text (o : option string) : pyval :=
  match o with
  | Some s => PStr s
  | None => PNone
  end.

(** [dict(record)] on a fetched row. *)
Definition row_dict (r : row) : gmap string pyval :=
  list_to_map
    [ ("id", PInt (id r));
      ("original_image_ref", text (original_image_ref r));
      ("detected_stamp_image_path", PStr (detected_stamp_image_path r));
      ("search_keywords", text (search_keywords r));
      ("country", text (country r));
      ("title_suggestion", text (title_suggestion r));
      ("estimated_price_range", text (estimated_price_range r));
      ("history_notes", text (history_notes r));
      ("source_urls", text (source_urls r));
      ("timestamp", PStr (timestamp r)) ].

(** Lines 134-139: a non-empty stored text is replaced by what
    [json.loads] makes of it, or by [[]] on [JSONDecodeError]. *)
Definition decode_source_urls (record_dict : gmap string pyval)
    : gmap string pyval :=
  match record_dict !! "source_urls" with
  | Some (PStr s) =>
      if bool_decide (s = "") then record_dict
      else
        match json_loads s with
        | Some v => <["source_urls" := v]> record_dict
        | None => <["source_urls" := PList []]> record_dict
        end
  | _ => record_dict
  end.

Definition get_stamp_by_image_path (image_path : string) (db : database)
    : option (gmap string pyval) :=
  if negb connect_ok then None
  else
    match stamps db with
    | None => None
    | Some rows =>
        match find_by_path image_path rows with
        | Some record => Some (decode_source_urls (row_dict record))
        | None => None
        end
    end.

(** [SELECT * FROM stamps ORDER BY timestamp DESC], as the engine sorts
    the rows. *)
Variable order_by_timestamp_desc : list row → list row.

(** [get_all_stamps]: every row as [get_stamp_by_image_path] would
    return it, in the order of the query; the empty list on a database
    error. *)
Definition get_all_stamps (db : database) : list (gmap string pyval) :=
  if negb connect_ok then []
  else
    match stamps db with
    | None => []
    | Some rows =>
        (λ row, decode_source_urls (row_dict row))
          <$> order_by_timestamp_desc rows
    end.

End Catalog.

(** *** Vocabulary for the properties below *)

(** A database file that has just been created. *)
Definition new_file : database := {| stamps := None; sequence := 0 |}.

(** One call into the module that can change the file: the arguments
    are the state of the connection, the clock and the dictionary. *)
Inductive call : Type :=
| Initialize
| Add (connect_ok : bool) (now : string)
      (stamp_data : gmap string field_value).

Section Calls.

Variable json_dumps : list string → string.

(** The results of a series of calls, [None] standing for the result of
    [initialize_database], and the file they leave. *)
Fixpoint run (calls : list call) (db : database)
    : list (option Z) * database :=
  match calls with
  | [] => ([], db)
  | Initialize :: rest =>
      let '(results, db') := run rest (initialize_database db) in
      (None :: results, db')
  | Add connect_ok now stamp_data :: rest =>
      let '(result, db1) :=
        add_stamp_record connect_ok now json_dumps stamp_data db in
      let '(results, db') := run rest db1 in
      (result :: results, db')
  end.

End Calls.

(** The rows of the table, none when there is no table. *)
Definition rows_of (db : database) : list row := default [] (stamps db).

End DbUtils.

(** ** A small JSON codec for closed examples

    [json.dumps] and [json.loads] are parameters of the catalog
    functions.  The codec below instantiates them in examples: it writes a
    list of strings that need no escaping the way [json.dumps] does, and
    it reads integer literals and flat arrays of escape-free string
    literals, answering a decode error on every other text. *)

Module Json.

Import DbUtils.

Definition dquote : Ascii.ascii := Ascii.ascii_of_nat 34.

Definition quote (s : string) : string :=
  String dquote (String.append s (String dquote "")).

Definition dumps (l : list string) : string :=
  String.append (String.append "[" (String.concat ", " (quote <$> l))) "]".

Definition is_digit (c : Ascii.ascii) : bool :=
  (48 <=? Ascii.nat_of_ascii c)%nat && (Ascii.nat_of_ascii c <=? 57)%nat.

Definition is_char (n : nat) (c : Ascii.ascii) : bool :=
  (Ascii.nat_of_ascii c =? n)%nat.
Definition is_space : Ascii.ascii → bool := is_char 32.
Definition is_comma : Ascii.ascii → bool := is_char 44.
Definition is_minus : Ascii.ascii → bool := is_char 45.
Definition is_zero_digit : Ascii.ascii → bool := is_char 48.
Definition is_open : Ascii.ascii → bool := is_char 91.
Definition is_close : Ascii.ascii → bool := is_char 93.
Definition is_dquote : Ascii.ascii → bool := is_char 34.
Definition is_backslash : Ascii.ascii → bool := is_char 92.

Fixpoint digits_value (acc : Z) (s : string) : option Z :=
  match s with
  | EmptyString => Some acc
  | String c s' =>
      if is_digit c then
        digits_value (10 * acc + Z.of_nat (Ascii.nat_of_ascii c - 48)) s'
      else None
  end.

Definition natural (s : string) : option Z :=
  match s with
  | EmptyString => None
  | String c (String _ _) => if is_zero_digit c then None else digits_value 0 s
  | _ => digits_value 0 s
  end.

Definition integer (s : string) : option Z :=
  match s with
  | String c s' => if is_minus c then Z.opp <$> natural s' else natural s
  | EmptyString => None
  end.

Inductive array_state : Set :=
| AfterOpen
| InString (cur : string)
| AfterString
| AfterComma
| Closed.

Fixpoint array_items (st : array_state) (acc : list string) (s : string)
    : option (list string) :=
  match s with
  | EmptyString =>
      match st with
      | Closed => Some acc
      | _ => None
      end
  | String c s' =>
      match st with
      | AfterOpen =>
          if is_space c then array_items AfterOpen acc s'
          else if is_close c then array_items Closed acc s'
          else if is_dquote c then array_items (InString "") acc s'
          else None
      | InString cur =>
          if is_dquote c then array_items AfterString (acc ++ [cur]) s'
          else if is_backslash c then None
          else if (Ascii.nat_of_ascii c <? 32)%nat then None
          else array_items (InString (String.append cur (String c ""))) acc s'
      | AfterString =>
          if is_space c then array_items AfterString acc s'
          else if is_comma c then array_items AfterComma acc s'
          else if is_close c then array_items Closed acc s'
          else None
      | AfterComma =>
          if is_space c then array_items AfterComma acc s'
          else if is_dquote c then array_items (InString "") acc s'
          else None
      | Closed =>
          if is_space c then array_items Closed acc s' else None
      end
  end.

Definition loads (s : string) : option pyval :=
  match s with
  | String c s' =>
      if is_open c then
        (λ l, PList (PStr <$> l)) <$> array_items AfterOpen [] s'
      else PInt <$> integer s
  | EmptyString => None
  end.

End Json.

(** ** [main.py]: display scaling and hit-testing *)

Module Main.

Import ImageProcessing.

(** What Tk reports at a given moment: the size of [image_label] and of
    its parent frame ([winfo_width], [winfo_height]). *)
Record viewport : Set := {
  label_width : Z;
  label_height : Z;
  master_width : Z;
  master_height : Z
}.

(** One entry of [displayed_stamp_rects_info]. *)
Record rect_info : Set := {
  scaled_bbox : Z * Z * Z * Z;
  original_data : stamp
}.

(** The attributes of [StampScannerApp] that the three methods read and
    write.  Images are kept by their size [(width, height)]. *)
Record StampScannerApp : Set := {
  current_image_path : option string;
  original_pil_image : option (Z * Z);
  tk_image : option (Z * Z);
  detected_stamps_data : list stamp;
  displayed_stamp_rects_info : list rect_info
}.

(** Lines 178-185 and 276-283, which are the same statements: fit by
    width, refit by height when too tall, never below one pixel. *)
Definition fit (label_w label_h img_w img_h : Z) : result (Z * Z) :=
  aspect_ratio ← int_truediv img_w img_h;
  let new_width := label_w in
  q ← int_div_float new_width aspect_ratio;
  new_height ← int_of_float q;
  '(new_width, new_height) ←
    (if new_height >? label_h then
       let new_height := label_h in
       p ← int_mul_float new_height aspect_ratio;
       new_width ← int_of_float p;
       mret (new_width, new_height)
     else mret (new_width, new_height));
  mret (Z.max 1 new_width, Z.max 1 new_height).

(** The size [display_image] resizes to (lines 169-185). *)
Definition display_image_size (vp : viewport) (img_size : Z * Z)
    : result (Z * Z) :=
  let '(label_width, label_height) :=
    if (label_width vp <=? 1) || (label_height vp <=? 1) then (600, 400)
    else (label_width vp, label_height vp) in
  let '(img_width, img_height) := img_size in
  fit label_width label_height img_width img_height.

(** The size [draw_stamp_rectangles] scales the boxes to (lines 263-283). *)
Definition draw_scaled_size (vp : viewport) (img_size : Z * Z)
    : result (Z * Z) :=
  let '(label_width, label_height) :=
    if (label_width vp <=? 1) || (label_height vp <=? 1) then
      (master_width vp, master_height vp)
    else (label_width vp, label_height vp) in
  let '(orig_img_width, orig_img_height) := img_size in
  fit label_width label_height orig_img_width orig_img_height.

Section Gui.

(** [Image.open]: the size of the image at a path, if it can be opened. *)
Variable image_open : string → option (Z * Z).

(** [display_image].  Every exception is caught inside the method, which
    then leaves [tk_image] as it was. *)
Definition display_image (vp : viewport) (image_path_to_display : string)
    (draw_boxes_on_this_image : option (Z * Z)) (a : StampScannerApp)
    : StampScannerApp :=
  let opened :=
    match draw_boxes_on_this_image with
    | Some img => Some (img, a)
    | None =>
        match image_open image_path_to_display with
        | Some img =>
            Some (img,
                  {| current_image_path := current_image_path a;
                     original_pil_image := Some img;
                     tk_image := tk_image a;
                     detected_stamps_data := detected_stamps_data a;
                     displayed_stamp_rects_info :=
                       displayed_stamp_rects_info a |})
        | None => None
        end
    end in
  match opened with
  | None => a
  | Some (display_pil_image, a) =>
      match display_image_size vp display_pil_image with
      | Raise _ => a
      | Ok resized =>
          {| current_image_path := current_image_path a;
             original_pil_image := original_pil_image a;
             tk_image := Some resized;
             detected_stamps_data := detected_stamps_data a;
             displayed_stamp_rects_info := displayed_stamp_rects_info a |}
      end
  end.

(** The four corners of one box in display space (lines 296-299). *)
Definition scale_bbox (scale_x scale_y : float) (b : rect)
    : result (Z * Z * Z * Z) :=
  let '(x, y, w, h) := b in
  scaled_x1 ← (p ← int_mul_float x scale_x; int_of_float p);
  scaled_y1 ← (p ← int_mul_float y scale_y; int_of_float p);
  scaled_x2 ← (p ← int_mul_float (x + w) scale_x; int_of_float p);
  scaled_y2 ← (p ← int_mul_float (y + h) scale_y; int_of_float p);
  mret (scaled_x1, scaled_y1, scaled_x2, scaled_y2).

(** The loop of lines 288-304: the entries appended so far are kept when
    a conversion raises. *)
Fixpoint scale_stamps (scale_x scale_y : float) (stamps : list stamp)
    (infos : list rect_info) : result unit * list rect_info :=
  match stamps with
  | [] => (Ok (), infos)
  | stamp_item :: rest =>
      match scale_bbox scale_x scale_y (bbox stamp_item) with
      | Raise e => (Raise e, infos)
      | Ok sb =>
          scale_stamps scale_x scale_y rest
            (infos ++ [{| scaled_bbox := sb; original_data := stamp_item |}])
      end
  end.

Definition set_rects (a : StampScannerApp) (infos : list rect_info)
    : StampScannerApp :=
  {| current_image_path := current_image_path a;
     original_pil_image := original_pil_image a;
     tk_image := tk_image a;
     detected_stamps_data := detected_stamps_data a;
     displayed_stamp_rects_info := infos |}.

(** [draw_stamp_rectangles].  An exception leaves the method with the
    attributes as they are at that point. *)
Definition draw_stamp_rectangles (vp : viewport)
    (stamps_data_to_draw : list stamp) (a : StampScannerApp)
    : result unit * StampScannerApp :=
  match original_pil_image a with
  | None => (Ok (), a)
  | Some img_size =>
      let a := set_rects a [] in
      let scales :=
        '(scaled_display_width, scaled_display_height) ←
          draw_scaled_size vp img_size;
        scale_x ← int_truediv scaled_display_width img_size.1;
        scale_y ← int_truediv scaled_display_height img_size.2;
        mret (scale_x, scale_y) in
      match scales with
      | Raise e => (Raise e, a)
      | Ok (scale_x, scale_y) =>
          match scale_stamps scale_x scale_y stamps_data_to_draw [] with
          | (Raise e, infos) => (Raise e, set_rects a infos)
          | (Ok _, infos) =>
              (Ok (),
               display_image vp (default "" (current_image_path a))
                 (Some img_size) (set_rects a infos))
          end
      end
  end.

Definition hit (x y : Z) (item_info : rect_info) : bool :=
  let '(scaled_x1, scaled_y1, scaled_x2, scaled_y2) :=
    scaled_bbox item_info in
  (scaled_x1 <=? x) && (x <=? scaled_x2)
  && (scaled_y1 <=? y) && (y <=? scaled_y2).

(** [on_image_click]: the detection whose details window is opened, if
    any. *)
Definition on_image_click (vp : viewport) (click_x click_y : Z)
    (a : StampScannerApp)
    : option stamp :=
  match tk_image a with
  | None => None
  | Some (displayed_img_width, displayed_img_height) =>
      let offset_x := (label_width vp - displayed_img_width) `div` 2 in
      let offset_y := (label_height vp - displayed_img_height) `div` 2 in
      let adjusted_click_x := click_x - offset_x in
      let adjusted_click_y := click_y - offset_y in
      original_data <$>
        List.find (hit adjusted_click_x adjusted_click_y)
          (displayed_stamp_rects_info a)
  end.

End Gui.

(** A display-space box whose corners are in order. *)
Definition ordered (sb : Z * Z * Z * Z) : Prop :=
  let '(x1, y1, x2, y2) := sb in 0 ≤ x1 ≤ x2 ∧ 0 ≤ y1 ≤ y2.

End Main.

(** ** [main.py]: opening an image and running the detection *)

Module Session.

Import ImageProcessing Main.

Definition ALLOWED_EXTENSIONS : list string := [".png"; ".jpg"; ".jpeg"].

(** What [handle_image_upload] raises: [FileNotFoundError], or the
    [ValueError] and [IOError] of [Py]. *)
Inductive upload_exn : Set :=
| FileNotFoundError
| Builtin (e : exn).

Section Upload.

(** [Path.is_file], [Path.suffix], [Path.stem], [str.lower],
    [shutil.copy2] (whether the copy is made) and [uuid.uuid4().hex]. *)
Variable BASE_DIR : string.
Variable is_file : string → bool.
Variable path_suffix : string → string.
Variable path_stem : string → string.
Variable lower : string → string.
Variable copy2 : string → string → bool.
Variable uuid4_hex : nat → string.

Definition UPLOADED_IMAGES_DIR : string :=
  BASE_DIR +:+ "/data/uploaded_images".

(** [handle_image_upload]: the path of the copy ([inr]), or the
    exception raised ([inl]). *)
Definition handle_image_upload (image_path : string) (w : world)
    : (upload_exn + string) * world :=
  if negb (is_file image_path) then (inl FileNotFoundError, w)
  else if negb (bool_decide
                  (lower (path_suffix image_path) ∈ ALLOWED_EXTENSIONS))
  then (inl (Builtin ValueError), w)
  else
    let target_dir := UPLOADED_IMAGES_DIR in
    let unique_filename :=
      path_stem image_path +:+ "_" +:+ uuid4_hex (uuid_count w) +:+
      path_suffix image_path in
    let destination_path := target_dir +:+ "/" +:+ unique_filename in
    let w' := {| uuid_count := S (uuid_count w); stdout := stdout w |} in
    if copy2 image_path destination_path then (inr destination_path, w')
    else (inl (Builtin IOError), w').

End Upload.

(** The attributes of the window: those of [StampScannerApp] above and
    [original_selected_path], which is only written.  The status bar,
    the state of the button and the message boxes are left out: no
    method reads them. *)
Record window : Set := {
  attributes : StampScannerApp;
  original_selected_path : option string
}.

(** The attributes as [__init__] sets them; [tk_image] is not set
    before the first image is displayed. *)
Definition startup : window :=
  {| attributes :=
       {| current_image_path := None;
          original_pil_image := None;
          tk_image := None;
          detected_stamps_data := [];
          displayed_stamp_rects_info := [] |};
     original_selected_path := None |}.

(** [self.detected_stamps_data = []] and
    [self.displayed_stamp_rects_info = []]. *)
Definition clear_results (a : StampScannerApp) : StampScannerApp :=
  {| current_image_path := current_image_path a;
     original_pil_image := original_pil_image a;
     tk_image := tk_image a;
     detected_stamps_data := [];
     displayed_stamp_rects_info := [] |}.

Definition set_current_image_path (a : StampScannerApp) (p : string)
    : StampScannerApp :=
  {| current_image_path := Some p;
     original_pil_image := original_pil_image a;
     tk_image := tk_image a;
     detected_stamps_data := detected_stamps_data a;
     displayed_stamp_rects_info := displayed_stamp_rects_info a |}.

Definition set_detected_stamps_data (a : StampScannerApp)
    (l : list stamp) : StampScannerApp :=
  {| current_image_path := current_image_path a;
     original_pil_image := original_pil_image a;
     tk_image := tk_image a;
     detected_stamps_data := l;
     displayed_stamp_rects_info := displayed_stamp_rects_info a |}.

Section Window.

Variable BASE_DIR : string.
Variable is_file : string → bool.
Variable path_suffix : string → string.
Variable path_stem : string → string.
Variable lower : string → string.
Variable copy2 : string → string → bool.
Variable uuid4_hex : nat → string.
Variable image_open : string → option (Z * Z).
Variable mkdir_ok : bool.
Variable imread : string → option image.
Variable outer_contours : image → list contour.
Variable contourArea : contour → float.
Variable arcLength : contour → bool → float.
Variable approxPolyDP : contour → float → bool → contour.
Variable boundingRect : contour → rect.
Variable imwrite : string → rect → write_outcome.

(** [open_image_dialog], with the answer [filepath] of the file dialog:
    the empty string when the dialog is cancelled.  The exceptions of
    [handle_image_upload] are caught. *)
Definition open_image_dialog (vp : viewport) (filepath : string)
    (s : window) (w : world) : window * world :=
  let a := clear_results (attributes s) in
  if bool_decide (filepath = "") then
    ({| attributes := a;
        original_selected_path := original_selected_path s |}, w)
  else
    match handle_image_upload BASE_DIR is_file path_suffix path_stem lower
            copy2 uuid4_hex filepath w with
    | (inr p, w') =>
        let a := set_current_image_path a p in
        ({| attributes := display_image image_open vp p None a;
            original_selected_path := Some filepath |}, w')
    | (inl _, w') =>
        ({| attributes := a; original_selected_path := Some filepath |},
         w')
    end.

(** [run_stamp_detection].  Whatever the detection or the drawing
    raises is caught. *)
Definition run_stamp_detection (vp : viewport) (a : StampScannerApp)
    (w : world) : StampScannerApp * world :=
  match current_image_path a, original_pil_image a with
  | Some p, Some _ =>
      if bool_decide (p = "") then (a, w)
      else
        let a := clear_results a in
        match detect_and_segment_stamps BASE_DIR path_stem mkdir_ok imread
                outer_contours contourArea arcLength approxPolyDP
                boundingRect imwrite uuid4_hex p w with
        | (Raise _, w') => (a, w')
        | (Ok detected_stamps_data_result, w') =>
            let a := set_detected_stamps_data a detected_stamps_data_result in
            match detected_stamps_data a with
            | [] => (display_image image_open vp p None a, w')
            | _ :: _ =>
                ((draw_stamp_rectangles image_open vp
                    (detected_stamps_data a) a).2, w')
            end
        end
  | _, _ => (a, w)
  end.

End Window.

(** *** Vocabulary for the properties below *)

(** The boxes that answer clicks belong to the first detections of the
    current list, in its order. *)
Definition boxes_match_detections (a : StampScannerApp) : Prop :=
  original_data <$> displayed_stamp_rects_info a
    `prefix_of` detected_stamps_data a.

(** Rectangle [inner] lies within rectangle [outer]. *)
Definition within (inner outer : rect) : Prop :=
  let '(x, y, w, h) := inner in
  let '(x', y', w', h') := outer in
  x' ≤ x ∧ y' ≤ y ∧ x + w ≤ x' + w' ∧ y + h ≤ y' + h'.

End Session.

(** ** [main.py]: the picture in the details window *)

Module Details.

(** [Image.resize]: Pillow refuses a size with a side below one
    (["height and width must be > 0"]). *)
Definition resize (size : Z * Z) : result (Z * Z) :=
  let '(width, height) := size in
  if (width <? 1) || (height <? 1) then Raise ValueError else Ok size.

(** Lines 375-386 of [show_stamp_details_window]: the size the cropped
    image is shown at.  An exception is caught by the method, which then
    shows a line of text in place of the picture. *)
Definition thumbnail_size (img_width img_height : Z) : result (Z * Z) :=
  let max_dim := 200 in
  if (img_width >? max_dim) || (img_height >? max_dim) then
    aspect_ratio ← int_truediv img_width img_height;
    '(new_width, new_height) ←
      (if img_width >? img_height then
         let new_width := max_dim in
         q ← int_div_float new_width aspect_ratio;
         new_height ← int_of_float q;
         mret (new_width, new_height)
       else
         let new_height := max_dim in
         p ← int_mul_float new_height aspect_ratio;
         new_width ← int_of_float p;
         mret (new_width, new_height));
    resize (new_width, new_height)
  else mret (img_width, img_height).

End Details.

(** ** Concrete inputs for the closed statements below *)

Module Examples.

Import ImageProcessing DbUtils Main.

(** A label that Tk has not laid out yet, inside an 800 by 560 frame. *)
Definition vp_unmapped : viewport :=
  {| label_width := 1; label_height := 1;
     master_width := 800; master_height := 560 |}.

Definition vp_laid_out : viewport :=
  {| label_width := 780; label_height := 522;
     master_width := 800; master_height := 560 |}.

Definition vp_square : viewport :=
  {| label_width := 200; label_height := 200;
     master_width := 220; master_height := 220 |}.

(** Two detections whose boxes overlap: thin slanted quadrilaterals have
    disjoint outlines and overlapping bounding rectangles. *)
Definition stamp_A : stamp :=
  {| path := "/app/data/detected_stamps/sheet_stamp_3f2a9c1e.png";
     bbox := (0, 0, 100, 100) |}.
Definition stamp_B : stamp :=
  {| path := "/app/data/detected_stamps/sheet_stamp_a81d04f2.png";
     bbox := (40, 40, 100, 100) |}.

Definition app_square : StampScannerApp :=
  {| current_image_path := Some "/app/data/uploaded_images/sheet.png";
     original_pil_image := Some (200, 200);
     tk_image := Some (200, 200);
     detected_stamps_data := [stamp_A; stamp_B];
     displayed_stamp_rects_info := [] |}.

Definition no_image (p : string) : option (Z * Z) := None.

(** The two detections of the sheet of [Sheet], in the order of its
    outlines: the first token goes to the box of [Sheet.rectangle_B]. *)
Definition sheet_stamp_B : stamp :=
  {| path := "/app/data/detected_stamps/sheet_stamp_3f2a9c1e.png";
     bbox := (200, 80, 151, 101) |}.
Definition sheet_stamp_A : stamp :=
  {| path := "/app/data/detected_stamps/sheet_stamp_a81d04f2.png";
     bbox := (50, 50, 101, 151) |}.

(** What a second run on the same sheet returns. *)
Definition sheet_stamp_B2 : stamp :=
  {| path := "/app/data/detected_stamps/sheet_stamp_5c7e21b0.png";
     bbox := (200, 80, 151, 101) |}.
Definition sheet_stamp_A2 : stamp :=
  {| path := "/app/data/detected_stamps/sheet_stamp_e4b6f83d.png";
     bbox := (50, 50, 101, 151) |}.

(** A third detection, whose box lies within the box of [sheet_stamp_A]. *)
Definition sheet_stamp_inner : stamp :=
  {| path := "/app/data/detected_stamps/sheet_stamp_5c7e21b0.png";
     bbox := (60, 70, 40, 50) |}.

Definition world_after (runs : nat) : world :=
  {| uuid_count := 2 * runs; stdout := [] |}.

Definition app_sheet : StampScannerApp :=
  {| current_image_path := Some Sheet.sheet_path;
     original_pil_image := Some (400, 300);
     tk_image := Some (696, 522);
     detected_stamps_data := [sheet_stamp_B; sheet_stamp_A];
     displayed_stamp_rects_info := [] |}.

(** Writes that fail the way [cv2.imwrite] reports an unwritable target:
    by returning [False]. *)
Definition imwrite_unwritable (p : string) (crop : rect) : write_outcome :=
  NotWritten.

Definition imwrite_ok (p : string) (crop : rect) : write_outcome := Written.

(** Writes of which the one of the first crop raises. *)
Definition imwrite_first_raises (p : string) (crop : rect) : write_outcome :=
  if bool_decide (p = path sheet_stamp_B)
  then WriteRaised "could not find a writer for the specified extension"
  else Written.

(** Stand-ins for [cv2.boundingRect] that return what it never does: a
    rectangle of height zero, and one of width zero. *)
Definition flat_boundingRect (pts : contour) : rect := (50, 50, 101, 0).


Definition detect_sheet (boundingRect : contour → rect)
    (imwrite : string → rect → write_outcome) :=
  detect_and_segment_stamps "/app" Sheet.path_stem true Sheet.imread
    Sheet.outer_contours Sheet.contourArea Sheet.arcLength
    Sheet.approxPolyDP boundingRect imwrite Sheet.uuid4_hex.

Definition filter_sheet (boundingRect : contour → rect) :=
  filter_contour Sheet.contourArea Sheet.arcLength Sheet.approxPolyDP
    boundingRect.

(** A catalog with one record, and two more dictionaries. *)
Definition empty_catalog : database :=
  initialize_database {| stamps := None; sequence := 0 |}.

Definition clock : string := "2025-01-01 00:00:00".

Definition record_A : gmap string field_value :=
  {[ "detected_stamp_image_path" := FStr (path sheet_stamp_A);
     "country" := FStr "Canada";
     "source_urls" := FList ["http://example.com/stamp_info/canada_qe2_5c"] ]}.

Definition row_A : row :=
  {| id := 1;
     original_image_ref := None;
     detected_stamp_image_path := path sheet_stamp_A;
     search_keywords := None;
     country := Some "Canada";
     title_suggestion := None;
     estimated_price_range := None;
     history_notes := None;
     source_urls :=
       Some (Json.dumps ["http://example.com/stamp_info/canada_qe2_5c"]);
     timestamp := clock |}.

Definition catalog_A : database :=
  (add_stamp_record true clock Json.dumps record_A empty_catalog).2.

Definition record_A_again : gmap string field_value :=
  {[ "detected_stamp_image_path" := FStr (path sheet_stamp_A);
     "country" := FStr "Kanada" ]}.

Definition record_without_path : gmap string field_value :=
  {[ "country" := FStr "Canada"; "search_keywords" := FStr "eagle" ]}.

(** A record whose ['source_urls'] is a string, which [add_stamp_record]
    stores as it is. *)
Definition record_B : gmap string field_value :=
  {[ "detected_stamp_image_path" := FStr (path sheet_stamp_B);
     "source_urls" := FStr "123" ]}.

Definition catalog_B : database :=
  (add_stamp_record true clock Json.dumps record_B empty_catalog).2.

(** The dictionary of [record_A] with two keys that name no column. *)
Definition record_A_annotated : gmap string field_value :=
  <["id" := FStr "77"]> (<["condition" := FStr "mint"]> record_A).

(** A sort for [ORDER BY timestamp DESC]: the texts are compared
    character by character. *)
Definition newer_first (r1 r2 : row) : Prop :=
  Is_true (String.leb (timestamp r2) (timestamp r1)).

#[global] Instance newer_first_dec : RelDecision newer_first :=
  λ r1 r2, Is_true_dec _.

Definition order_by_timestamp_desc (rows : list row) : list row :=
  merge_sort newer_first rows.

(** A file system with one picture, of 400 by 300 pixels wherever it is
    copied, on which every copy succeeds. *)
Definition picked_file : string := "/home/user/Pictures/sheet.PNG".

Definition is_file (p : string) : bool := bool_decide (p = picked_file).

Definition path_suffix (p : string) : string := ".PNG".

Definition lower_ascii (c : Ascii.ascii) : Ascii.ascii :=
  let n := Ascii.nat_of_ascii c in
  if Nat.leb 65 n && Nat.leb n 90 then Ascii.ascii_of_nat (n + 32) else c.

Fixpoint lower (s : string) : string :=
  match s with
  | EmptyString => EmptyString
  | String c s => String (lower_ascii c) (lower s)
  end.

Definition copy2 (src dst : string) : bool := true.

Definition image_open (p : string) : option (Z * Z) := Some (400, 300).

End Examples.


(** * Properties *)

(** ** Facts about binary64 arithmetic *)

Module PyFacts.

Import Rounding.

Lemma digits2_size p : digits2_pos p = Pos.size p.
Proof. induction p; simpl; congruence. Qed.

Lemma digits_log2 p : Z.pos (digits2_pos p) = Z.log2 (Z.pos p) + 1.
Proof.
  rewrite digits2_size. destruct p; simpl; try lia.
Qed.

Lemma digits_bounds p : 2 ^ (Z.pos (digits2_pos p) - 1) ≤ Z.pos p < 2 ^ Z.pos (digits2_pos p).
Proof.
  rewrite digits_log2. replace (Z.log2 (Z.pos p) + 1 - 1) with (Z.log2 (Z.pos p)) by lia.
  pose proof (Z.log2_spec (Z.pos p)). lia.
Qed.

Lemma digits_unique p k : 2 ^ (k - 1) ≤ Z.pos p < 2 ^ k → Z.pos (digits2_pos p) = k.
Proof.
  intros H. rewrite digits_log2.
  assert (0 ≤ k - 1).
  { destruct (Z.le_gt_cases 0 (k - 1)); [done|].
    assert (k ≤ 0) by lia. 
    destruct (Z.eq_dec k 0) as [->|]; [simpl in H; lia|].
    rewrite (Z.pow_neg_r 2 k) in H by lia. lia. }
  rewrite (Z.log2_unique (Z.pos p) (k - 1)); [lia|lia|].
  replace (Z.succ (k - 1)) with k by lia. done.
Qed.

(** iteration *)
Lemma nat_iter_plus {A} (f : A → A) n m x :
  Nat.iter (n + m) f x = Nat.iter n f (Nat.iter m f x).
Proof. induction n as [|n IH]; simpl; [reflexivity|]. f_equal. exact IH. Qed.

Lemma nat_iter_S_r {A} (f : A → A) n x :
  Nat.iter (S n) f x = Nat.iter n f (f x).
Proof.
  replace (S n) with (n + 1)%nat by lia. rewrite nat_iter_plus. reflexivity.
Qed.

Lemma iter_pos_nat {A} (f : A → A) p x :
  SpecFloat.iter_pos f p x = Nat.iter (Pos.to_nat p) f x.
Proof.
  revert x. induction p as [p IH|p IH|]; intros x; cbn [SpecFloat.iter_pos].
  - rewrite !IH. rewrite Pos2Nat.inj_xI.
    replace (S (2 * Pos.to_nat p)) with (S (Pos.to_nat p + Pos.to_nat p)) by lia.
    rewrite nat_iter_S_r, nat_iter_plus. reflexivity.
  - rewrite !IH. rewrite Pos2Nat.inj_xO.
    replace (2 * Pos.to_nat p)%nat with (Pos.to_nat p + Pos.to_nat p)%nat by lia.
    rewrite nat_iter_plus. reflexivity.
  - reflexivity.
Qed.

Lemma shr_n_0 mrs : shr_n 0 mrs = mrs.
Proof. reflexivity. Qed.

Lemma shr_n_S k mrs : shr_n (S k) mrs = shr_1 (shr_n k mrs).
Proof. reflexivity. Qed.

Lemma shr_1_spec m r s : 0 ≤ m →
  shr_1 {| shr_m := m; shr_r := r; shr_s := s |} =
  {| shr_m := m / 2; shr_r := Z.odd m; shr_s := r || s |}.
Proof.
  intros Hm. destruct m as [|p|p]; [reflexivity| |lia].
  destruct p as [p|p|]; unfold shr_1.
  - rewrite Pos2Z.inj_xI. f_equal.
    + rewrite Z.add_comm, Z.mul_comm, Z.div_add by lia. reflexivity.
  - rewrite Pos2Z.inj_xO. f_equal.
    + rewrite Z.mul_comm, Z.div_mul by lia. reflexivity.
  - reflexivity.
Qed.

Lemma shr_n_spec k m r s : 0 ≤ m →
  shr_n (S k) {| shr_m := m; shr_r := r; shr_s := s |} =
  {| shr_m := m / 2 ^ Z.of_nat (S k);
     shr_r := Z.odd (m / 2 ^ Z.of_nat k);
     shr_s := negb (m mod 2 ^ Z.of_nat k =? 0) || (r || s) |}.
Proof.
  intros Hm. induction k as [|k IH].
  - rewrite shr_n_S, shr_n_0, shr_1_spec by done.
    change (2 ^ Z.of_nat 1) with 2. change (2 ^ Z.of_nat 0) with 1.
    rewrite Z.div_1_r, Z.mod_1_r. reflexivity.
  - rewrite shr_n_S, IH. rewrite shr_1_spec by (apply Z.div_pos; lia).
    assert (H2 : 2 ^ Z.of_nat (S k) = 2 ^ Z.of_nat k * 2).
    { rewrite Nat2Z.inj_succ, Z.pow_succ_r by lia. lia. }
    assert (Hp : 0 < 2 ^ Z.of_nat k) by (apply Z.pow_pos_nonneg; lia).
    f_equal.
    + rewrite Z.div_div by lia.
      rewrite (Nat2Z.inj_succ (S k)), Z.pow_succ_r by lia. f_equal. lia.
    + rewrite H2.
      rewrite Z.rem_mul_r by lia.
      destruct (Z.odd (m / 2 ^ Z.of_nat k)) eqn:Hodd.
      * rewrite Zmod_odd, Hodd.
        destruct (Z.eqb_spec (m mod 2 ^ Z.of_nat k + 2 ^ Z.of_nat k * 1) 0) as [E|E].
        { pose proof (Z.mod_pos_bound m (2 ^ Z.of_nat k)). lia. }
        reflexivity.
      * rewrite Zmod_odd, Hodd. rewrite Z.mul_0_r, Z.add_0_r. reflexivity.
Qed.

Lemma rne_shr k m : 0 ≤ m →
  let mrs := shr_n k {| shr_m := m; shr_r := false; shr_s := false |} in
  round_nearest_even (shr_m mrs) (loc_of_shr_record mrs) = rne m (Z.of_nat k).
Proof.
  intros Hm. destruct k as [|k].
  - rewrite shr_n_0. cbn [shr_m loc_of_shr_record round_nearest_even].
    unfold rne. change (2 ^ Z.of_nat 0) with 1. rewrite Z.mod_1_r, Z.div_1_r. reflexivity.
  - intros mrs. subst mrs. rewrite shr_n_spec by done.
    unfold rne.
    assert (H2 : 2 ^ Z.of_nat (S k) = 2 ^ Z.of_nat k * 2).
    { rewrite Nat2Z.inj_succ, Z.pow_succ_r by lia. lia. }
    assert (Hp : 0 < 2 ^ Z.of_nat k) by (apply Z.pow_pos_nonneg; lia).
    set (h := 2 ^ Z.of_nat k) in *. rewrite H2.
    rewrite (Z.rem_mul_r m h 2) by lia.
    pose proof (Z.mod_pos_bound m h Hp) as Hb.
    rewrite Zmod_odd.
    simpl orb. rewrite orb_false_r.
    destruct (Z.odd (m / h)) eqn:Hodd.
    + destruct (Z.eqb_spec (m mod h) 0) as [E|E]; simpl.
      * rewrite E. 
        destruct (Z.ltb_spec (2 * (0 + h * 1)) (h * 2)); [lia|].
        destruct (Z.eqb_spec (2 * (0 + h * 1)) (h * 2)); [|lia]. reflexivity.
      * destruct (Z.ltb_spec (2 * (m mod h + h * 1)) (h * 2)); [lia|].
        destruct (Z.eqb_spec (2 * (m mod h + h * 1)) (h * 2)); [lia|]. reflexivity.
    + destruct (Z.eqb_spec (m mod h) 0) as [E|E]; simpl.
      * rewrite E. destruct (Z.ltb_spec (2 * (0 + h * 0)) (h * 2)); [|lia]. reflexivity.
      * destruct (Z.ltb_spec (2 * (m mod h + h * 0)) (h * 2)); [|lia]. reflexivity.
Qed.

Lemma fexp_normal x : -1074 ≤ x - 53 → fexp prec emax x = x - 53.
Proof. unfold fexp, SpecFloat.emin, prec, emax. lia. Qed.

Lemma shr_nat mrs e n : 0 ≤ n → shr mrs e n = (shr_n (Z.to_nat n) mrs, e + n).
Proof.
  destruct n as [|k|k]; intros Hn.
  - rewrite Z.add_0_r. reflexivity.
  - unfold shr. rewrite iter_pos_nat. reflexivity.
  - lia.
Qed.

Lemma shr_m_shr_n k m r s : 0 ≤ m →
  shr_m (shr_n k {| shr_m := m; shr_r := r; shr_s := s |}) = m / 2 ^ Z.of_nat k.
Proof.
  intros Hm. destruct k as [|k].
  - rewrite shr_n_0. change (2 ^ Z.of_nat 0) with 1. rewrite Z.div_1_r. reflexivity.
  - rewrite shr_n_spec by done. reflexivity.
Qed.

Lemma rne_range m k : 0 ≤ k → 0 ≤ m →
  m / 2 ^ k ≤ rne m k ≤ m / 2 ^ k + 1.
Proof.
  intros Hk Hm. unfold rne.
  repeat match goal with |- context [if ?b then _ else _] => destruct b end; lia.
Qed.

Lemma pow2_pos k : 0 ≤ k → 0 < 2 ^ k.
Proof. intros. apply Z.pow_pos_nonneg; lia. Qed.

Lemma div_pow2_bounds m k j : 0 ≤ k → 0 ≤ j →
  2 ^ (k + j) ≤ m < 2 ^ (k + j + 1) → 2 ^ j ≤ m / 2 ^ k < 2 ^ (j + 1).
Proof.
  intros Hk Hj [Hlo Hhi].
  pose proof (pow2_pos k Hk).
  rewrite Z.pow_add_r in Hlo by lia.
  replace (k + j + 1) with (k + (j + 1)) in Hhi by lia.
  rewrite Z.pow_add_r in Hhi by lia.
  split.
  - apply Z.div_le_lower_bound; lia.
  - apply Z.div_lt_upper_bound; lia.
Qed.

Lemma round_nearest_even_range m l :
  m ≤ round_nearest_even m l ≤ m + 1.
Proof.
  destruct l as [|[| |]]; cbn [round_nearest_even]; try lia.
  destruct (Z.even m); lia.
Qed.

Lemma bra_gen s p E l :
  let d := Z.pos (digits2_pos p) in
  let n := d - 53 in
  0 ≤ n → -1074 ≤ E + n → E + n + 1 ≤ 971 →
  let mrs := shr_n (Z.to_nat n) (shr_record_of_loc (Z.pos p) l) in
  let m1 := round_nearest_even (shr_m mrs) (loc_of_shr_record mrs) in
  2 ^ 52 ≤ m1 ≤ 2 ^ 53 ∧
  binary_round_aux prec emax s (Z.pos p) E l =
    if m1 <? 2 ^ 53
    then S754_finite s (Z.to_pos m1) (E + n)
    else S754_finite s (Z.to_pos (2 ^ 52)) (E + n + 1).
Proof.
  intros d n Hn Hlo Hhi mrs m1.
  pose proof (digits_bounds p) as Hd. fold d in Hd.
  assert (Hq : 2 ^ 52 ≤ Z.pos p / 2 ^ n < 2 ^ 53).
  { apply (div_pow2_bounds _ n 52); [lia|lia|].
    replace (n + 52) with (d - 1) by lia. replace (d - 1 + 1) with d by lia. done. }
  assert (Hm : shr_m mrs = Z.pos p / 2 ^ n).
  { subst mrs. destruct l as [|[| |]]; cbn [shr_record_of_loc];
      rewrite shr_m_shr_n by lia; rewrite Z2Nat.id by lia; reflexivity. }
  pose proof (round_nearest_even_range (shr_m mrs) (loc_of_shr_record mrs)) as Hr.
  fold m1 in Hr. rewrite Hm in Hr.
  split; [lia|].
  unfold binary_round_aux.
  assert (H1 : shr_fexp prec emax (Z.pos p) E l = (mrs, E + n)).
  { unfold shr_fexp. change (Zdigits2 (Z.pos p)) with d.
    rewrite fexp_normal by lia.
    replace (d + E - 53 - E) with n by lia.
    rewrite shr_nat by lia. reflexivity. }
  rewrite H1. fold m1.
  destruct m1 as [|q|q] eqn:Hm1; [lia| |lia].
  destruct (Z.ltb_spec (Z.pos q) (2 ^ 53)) as [Hlt|Hge].
  - assert (Hdq : Z.pos (digits2_pos q) = 53) by (apply digits_unique; lia).
    unfold shr_fexp. change (Zdigits2 (Z.pos q)) with (Z.pos (digits2_pos q)).
    rewrite Hdq. rewrite fexp_normal by lia.
    replace (53 + (E + n) - 53 - (E + n)) with 0 by lia.
    cbn [shr shr_record_of_loc shr_m].
    destruct (Z.leb_spec (E + n) (emax - prec)) as [_|Hbad];
      [reflexivity | unfold emax, prec in Hbad; lia].
  - assert (Hq53 : Z.pos q = 2 ^ 53) by lia.
    assert (Hdq : Z.pos (digits2_pos q) = 54) by (apply digits_unique; lia).
    unfold shr_fexp. change (Zdigits2 (Z.pos q)) with (Z.pos (digits2_pos q)).
    rewrite Hdq. rewrite fexp_normal by lia.
    replace (54 + (E + n) - 53 - (E + n)) with 1 by lia.
    rewrite shr_nat by lia. change (Z.to_nat 1) with 1%nat.
    cbn [shr_record_of_loc]. rewrite shr_m_shr_n by lia.
    rewrite Hq53. change (2 ^ 53 / 2 ^ Z.of_nat 1) with (2 ^ 52).
    change (2 ^ 52) with (Z.pos (Z.to_pos (2 ^ 52))) at 1.
    cbv iota beta.
    destruct (Z.leb_spec (E + n + 1) (emax - prec)) as [_|Hbad];
      [reflexivity | unfold emax, prec in Hbad; lia].
Qed.

Lemma bra_normal s p E l :
  let n := Z.pos (digits2_pos p) - 53 in
  0 ≤ n → -1074 ≤ E + n → E + n + 1 ≤ 971 →
  normal (binary_round_aux prec emax s (Z.pos p) E l) s (E + n) (E + n + 1).
Proof.
  intros n Hn Hlo Hhi.
  destruct (bra_gen s p E l Hn Hlo Hhi) as [Hr ->]. fold n.
  set (m1 := round_nearest_even _ _) in *.
  destruct (Z.ltb_spec m1 (2 ^ 53)).
  - exists (Z.to_pos m1), (E + n). rewrite Z2Pos.id by lia. split; [done|lia].
  - exists (Z.to_pos (2 ^ 52)), (E + n + 1). split; [done|].
    change (Z.pos (Z.to_pos (2 ^ 52))) with (2 ^ 52). lia.
Qed.

Lemma bra_exact s p E :
  let n := Z.pos (digits2_pos p) - 53 in
  0 ≤ n → -1074 ≤ E + n → E + n + 1 ≤ 971 →
  2 ^ 52 ≤ rne (Z.pos p) n ≤ 2 ^ 53 ∧
  binary_round_aux prec emax s (Z.pos p) E loc_Exact =
    if rne (Z.pos p) n <? 2 ^ 53
    then S754_finite s (Z.to_pos (rne (Z.pos p) n)) (E + n)
    else S754_finite s (Z.to_pos (2 ^ 52)) (E + n + 1).
Proof.
  intros n Hn Hlo Hhi.
  pose proof (bra_gen s p E loc_Exact Hn Hlo Hhi) as H. fold n in H.
  cbn [shr_record_of_loc] in H. cbv zeta in H.
  rewrite rne_shr in H by lia. rewrite Z2Nat.id in H by lia. exact H.
Qed.

Lemma pos_iter_xO p k : Z.pos (Pos.iter xO p k) = Z.pos p * 2 ^ Z.pos k.
Proof.
  induction k as [|k IH] using Pos.peano_ind.
  - cbn [Pos.iter]. rewrite Pos2Z.inj_xO. change (2 ^ 1) with 2. lia.
  - rewrite Pos.iter_succ, Pos2Z.inj_xO, IH, Pos2Z.inj_succ, Z.pow_succ_r by lia. lia.
Qed.

Lemma digits_mul_pow2 p j : 0 ≤ j →
  Z.log2 (Z.pos p * 2 ^ j) + 1 = Z.pos (digits2_pos p) + j.
Proof.
  intros Hj. rewrite Z.log2_mul_pow2 by lia. rewrite digits_log2. lia.
Qed.

(** The double that equals [z * 2^e], for a positive integer [z] below
    [2^53]: the mantissa is [z] shifted to 53 bits. *)
Lemma binary_normalize_pos z e :
  0 < z < 2 ^ 53 → -1000 ≤ e ≤ 900 →
  let d := Z.log2 z + 1 in
  binary_normalize prec emax z e false =
  S754_finite false (Z.to_pos (z * 2 ^ (53 - d))) (e + d - 53).
Proof.
  intros Hz He d. destruct z as [|p|p]; [lia| |lia].
  assert (Hd : Z.pos (digits2_pos p) = d) by (apply digits_log2).
  assert (Hd53 : 1 ≤ d ≤ 53).
  { pose proof (digits_bounds p) as Hb. rewrite Hd in Hb. split; [lia|].
    destruct (Z.le_gt_cases d 53); [done|].
    assert (2 ^ 53 ≤ 2 ^ (d - 1)) by (apply Z.pow_le_mono_r; lia). lia. }
  unfold binary_normalize, binary_round.
  rewrite Hd, fexp_normal by lia.
  assert (Hal : shl_align p e (d + e - 53) =
                (Z.to_pos (Z.pos p * 2 ^ (53 - d)), e + d - 53)).
  { unfold shl_align. replace (d + e - 53 - e) with (d - 53) by lia.
    destruct (d - 53) as [|k|k] eqn:Hk; [|lia|].
    - replace (53 - d) with 0 by lia. rewrite Z.mul_1_r.
      f_equal. lia.
    - f_equal; [|lia]. apply Pos2Z.inj. rewrite pos_iter_xO.
      replace (53 - d) with (Z.pos k) by lia.
      rewrite Z2Pos.id; [reflexivity|]. pose proof (pow2_pos (Z.pos k)). lia. }
  rewrite Hal.
  set (q := Z.to_pos (Z.pos p * 2 ^ (53 - d))).
  assert (Hq : Z.pos q = Z.pos p * 2 ^ (53 - d)).
  { subst q. rewrite Z2Pos.id; [reflexivity|]. pose proof (pow2_pos (53 - d)). lia. }
  assert (Hdq : Z.pos (digits2_pos q) = 53).
  { rewrite digits_log2, Hq, digits_mul_pow2 by lia. lia. }
  pose proof (bra_exact false q (e + d - 53)) as H. cbv zeta in H.
  rewrite Hdq in H. replace (53 - 53) with 0 in H by lia.
  destruct H as [Hr ->]; [lia|lia|lia|].
  assert (Hrne : rne (Z.pos q) 0 = Z.pos q).
  { unfold rne. change (2 ^ 0) with 1. rewrite Z.mod_1_r, Z.div_1_r. reflexivity. }
  rewrite Hrne in *.
  pose proof (digits_bounds q) as Hb. rewrite Hdq in Hb.
  destruct (Z.ltb_spec (Z.pos q) (2 ^ 53)); [|lia].
  rewrite Z.add_0_r. reflexivity.
Qed.

Lemma binary_normalize_mantissa z e :
  0 < z < 2 ^ 53 → -1000 ≤ e ≤ 900 →
  ∃ m j, binary_normalize prec emax z e false = S754_finite false m (e - j) ∧
         0 ≤ j ≤ 52 ∧ Z.pos m = z * 2 ^ j ∧ 2 ^ 52 ≤ Z.pos m < 2 ^ 53.
Proof.
  intros Hz He. rewrite binary_normalize_pos by done.
  set (d := Z.log2 z + 1).
  assert (Hd53 : 1 ≤ d ≤ 53).
  { pose proof (Z.log2_spec z ltac:(lia)) as Hb. pose proof (Z.log2_nonneg z). split; [lia|].
    destruct (Z.le_gt_cases d 53); [done|].
    assert (2 ^ 53 ≤ 2 ^ (Z.log2 z)) by (apply Z.pow_le_mono_r; lia). lia. }
  exists (Z.to_pos (z * 2 ^ (53 - d))), (53 - d).
  split; [f_equal; lia|]. split; [lia|].
  pose proof (pow2_pos (53 - d) ltac:(lia)) as Hp.
  rewrite Z2Pos.id by lia. split; [reflexivity|].
  pose proof (Z.log2_spec z ltac:(lia)) as Hb.
  replace (Z.succ (Z.log2 z)) with d in Hb by lia.
  replace (Z.log2 z) with (d - 1) in Hb by lia.
  replace (2 ^ 52) with (2 ^ (d - 1) * 2 ^ (53 - d)).
  2:{ rewrite <- Z.pow_add_r by lia. f_equal. lia. }
  replace (2 ^ 53) with (2 ^ d * 2 ^ (53 - d)).
  2:{ rewrite <- Z.pow_add_r by lia. f_equal. lia. }
  split.
  - apply Z.mul_le_mono_nonneg_r; lia.
  - apply Z.mul_lt_mono_pos_r; lia.
Qed.

(** [float(z)] for a positive integer below [2^53] *)
Lemma float_of_int_pos z :
  0 < z < 2 ^ 53 →
  let d := Z.log2 z + 1 in
  float_of_int z = Ok (S754_finite false (Z.to_pos (z * 2 ^ (53 - d))) (d - 53)).
Proof.
  intros Hz d. unfold float_of_int.
  rewrite binary_normalize_pos by lia. fold d.
  replace (0 + d - 53) with (d - 53) by lia. reflexivity.
Qed.

Lemma float_of_int_normal z :
  0 < z < 2 ^ 53 →
  ∃ f, float_of_int z = Ok f ∧ normal f false (-52) 0.
Proof.
  intros Hz. rewrite float_of_int_pos by done.
  eexists; split; [reflexivity|].
  set (d := Z.log2 z + 1).
  assert (Hd53 : 1 ≤ d ≤ 53).
  { pose proof (Z.log2_spec z ltac:(lia)) as Hb. pose proof (Z.log2_nonneg z). split; [lia|].
    destruct (Z.le_gt_cases d 53); [done|].
    assert (2 ^ 53 ≤ 2 ^ (Z.log2 z)) by (apply Z.pow_le_mono_r; lia). lia. }
  eexists _, _; split; [reflexivity|].
  rewrite Z2Pos.id by (pose proof (pow2_pos (53 - d)); lia).
  split; [|lia].
  pose proof (Z.log2_spec z ltac:(lia)) as Hb.
  replace (Z.succ (Z.log2 z)) with d in Hb by lia.
  replace (Z.log2 z) with (d - 1) in Hb by lia.
  replace (2 ^ 52) with (2 ^ (d - 1) * 2 ^ (53 - d)).
  2:{ rewrite <- Z.pow_add_r by lia. f_equal. lia. }
  replace (2 ^ 53) with (2 ^ d * 2 ^ (53 - d)).
  2:{ rewrite <- Z.pow_add_r by lia. f_equal. lia. }
  pose proof (pow2_pos (53 - d)). nia.
Qed.

Lemma normal_weaken f s lo hi lo' hi' :
  normal f s lo hi → lo' ≤ lo → hi ≤ hi' → normal f s lo' hi'.
Proof. intros (m & e & -> & Hm & He) ? ?. exists m, e. split; [done|]. split; [done|lia]. Qed.

Lemma digits_between p lo hi :
  0 ≤ lo → 2 ^ lo ≤ Z.pos p < 2 ^ hi → lo + 1 ≤ Z.pos (digits2_pos p) ≤ hi.
Proof.
  intros Hlo [H1 H2]. pose proof (digits_bounds p) as [Hb1 Hb2].
  set (d := Z.pos (digits2_pos p)) in *.
  assert (Hd : 1 ≤ d) by (subst d; lia).
  split.
  - destruct (Z.le_gt_cases (lo + 1) d); [done|].
    assert (2 ^ d ≤ 2 ^ lo) by (apply Z.pow_le_mono_r; lia). lia.
  - destruct (Z.le_gt_cases d hi); [done|].
    assert (0 ≤ hi).
    { destruct (Z.le_gt_cases 0 hi); [done|]. rewrite Z.pow_neg_r in H2 by lia. lia. }
    assert (2 ^ hi ≤ 2 ^ (d - 1)) by (apply Z.pow_le_mono_r; lia). lia.
Qed.

Lemma SFdiv_normal s1 m1 e1 s2 m2 e2 :
  let X := (Z.pos (digits2_pos m1) + e1) - (Z.pos (digits2_pos m2) + e2) - 53 in
  -1074 ≤ X → X + 2 ≤ 971 →
  normal (SFdiv prec emax (S754_finite s1 m1 e1) (S754_finite s2 m2 e2))
    (xorb s1 s2) X (X + 2).
Proof.
  intros X Hlo Hhi.
  unfold SFdiv, SFdiv_core_binary.
  change (Zdigits2 (Z.pos m1)) with (Z.pos (digits2_pos m1)).
  change (Zdigits2 (Z.pos m2)) with (Z.pos (digits2_pos m2)).
  pose proof (digits_bounds m1) as Hb1. pose proof (digits_bounds m2) as Hb2.
  set (d1 := Z.pos (digits2_pos m1)) in *. set (d2 := Z.pos (digits2_pos m2)) in *.
  assert (Hd1 : 1 ≤ d1) by (subst d1; lia). assert (Hd2 : 1 ≤ d2) by (subst d2; lia).
  rewrite fexp_normal by (subst X; lia).
  replace (d1 + e1 - (d2 + e2) - 53) with X by (subst X; lia).
  set (e' := Z.min X (e1 - e2)).
  set (s := e1 - e2 - e').
  assert (Hs : 0 ≤ s) by (subst s e'; lia).
  set (m' := match s with Z.pos _ => Z.shiftl (Z.pos m1) s | 0 => Z.pos m1 | Z.neg _ => 0 end).
  assert (Hm' : m' = Z.pos m1 * 2 ^ s).
  { subst m'. destruct s as [|k|k] eqn:Hk; [|rewrite Z.shiftl_mul_pow2 by lia; reflexivity|lia].
    rewrite Z.mul_1_r. reflexivity. }
  clearbody m'.
  pose proof (Z_div_mod m' (Z.pos m2) ltac:(lia)) as Hdm.
  destruct (Z.div_eucl m' (Z.pos m2)) as [q r] eqn:Hqr.
  assert (Hq : q = m' / Z.pos m2) by (unfold Z.div; rewrite Hqr; reflexivity).
  set (D := d1 + s - d2).
  assert (HD : 53 ≤ D) by (subst D s e' X; lia).
  assert (Hqb : 2 ^ (D - 1) ≤ q < 2 ^ (D + 1)).
  { rewrite Hq, Hm'. pose proof (pow2_pos s Hs) as Hps. split.
    - apply Z.div_le_lower_bound; [lia|].
      assert (2 ^ (D - 1) * 2 ^ d2 = 2 ^ (d1 - 1) * 2 ^ s) as Heq.
      { rewrite <- !Z.pow_add_r by lia. f_equal. subst D. lia. }
      pose proof (pow2_pos (D - 1) ltac:(lia)). nia.
    - apply Z.div_lt_upper_bound; [lia|].
      assert (2 ^ (d2 - 1) * 2 ^ (D + 1) = 2 ^ d1 * 2 ^ s) as Heq.
      { rewrite <- !Z.pow_add_r by lia. f_equal. subst D. lia. }
      pose proof (pow2_pos (D + 1) ltac:(lia)). nia. }
  destruct q as [|pq|pq]; [pose proof (pow2_pos (D - 1)); lia| |pose proof (pow2_pos (D - 1)); lia].
  pose proof (digits_between pq (D - 1) (D + 1) ltac:(lia) Hqb) as Hdq.
  eapply normal_weaken; [apply bra_normal| |].
  - lia.
  - subst D s e' X. lia.
  - subst D s e' X. lia.
  - subst D s e' X. lia.
  - subst D s e' X. lia.
Qed.

Lemma rne_scale m k j : 0 ≤ k → 0 ≤ j → rne (m * 2 ^ j) (k + j) = rne m k.
Proof.
  intros Hk Hj. unfold rne.
  pose proof (pow2_pos k Hk) as Hpk. pose proof (pow2_pos j Hj) as Hpj.
  rewrite Z.pow_add_r by lia.
  rewrite Z.div_mul_cancel_r by lia.
  rewrite Z.mul_mod_distr_r by lia.
  set (r := m mod 2 ^ k). set (q := m / 2 ^ k).
  destruct (Z.ltb_spec (2 * r) (2 ^ k)), (Z.ltb_spec (2 * (r * 2 ^ j)) (2 ^ k * 2 ^ j));
    try reflexivity; try nia.
  destruct (Z.eqb_spec (2 * r) (2 ^ k)), (Z.eqb_spec (2 * (r * 2 ^ j)) (2 ^ k * 2 ^ j));
    try reflexivity; try nia.
Qed.

Lemma rne_mono m m' k : 0 ≤ k → m ≤ m' → rne m k ≤ rne m' k.
Proof.
  intros Hk Hm. unfold rne.
  pose proof (pow2_pos k Hk) as Hpk.
  pose proof (Z.div_mod m (2 ^ k) ltac:(lia)) as E1.
  pose proof (Z.div_mod m' (2 ^ k) ltac:(lia)) as E2.
  pose proof (Z.mod_pos_bound m (2 ^ k) Hpk) as B1.
  pose proof (Z.mod_pos_bound m' (2 ^ k) Hpk) as B2.
  set (q := m / 2 ^ k) in *. set (q' := m' / 2 ^ k) in *.
  set (r := m mod 2 ^ k) in *. set (r' := m' mod 2 ^ k) in *.
  assert (Hq : q ≤ q') by (apply Z.div_le_mono; lia).
  destruct (Z.eq_dec q q') as [Heq|Hne].
  - rewrite <- Heq in *. assert (r ≤ r') by lia.
    destruct (Z.ltb_spec (2 * r) (2 ^ k)), (Z.ltb_spec (2 * r') (2 ^ k));
    destruct (Z.eqb_spec (2 * r) (2 ^ k)), (Z.eqb_spec (2 * r') (2 ^ k));
    destruct (Z.even q); lia.
  - assert (q + 1 ≤ q') by lia.
    repeat match goal with |- context [if ?b then _ else _] => destruct b end; lia.
Qed.

Lemma rne_exact q k : 0 ≤ k → rne (q * 2 ^ k) k = q.
Proof.
  intros Hk. unfold rne. pose proof (pow2_pos k Hk).
  rewrite Z.mod_mul, Z.div_mul by lia.
  destruct (Z.ltb_spec (2 * 0) (2 ^ k)); [reflexivity|lia].
Qed.

Lemma R53_mono N N' : 2 ^ 52 ≤ N ≤ N' → R53 N ≤ R53 N'.
Proof.
  intros [HN HNN']. unfold R53.
  pose proof (Z.log2_spec N ltac:(lia)) as [L1 U1].
  pose proof (Z.log2_spec N' ltac:(lia)) as [L2 U2].
  assert (H52 : 52 ≤ Z.log2 N).
  { change 52 with (Z.log2 (2 ^ 52)). apply Z.log2_le_mono. lia. }
  assert (Hll : Z.log2 N ≤ Z.log2 N') by (apply Z.log2_le_mono; lia).
  set (l := Z.log2 N) in *. set (l' := Z.log2 N') in *.
  destruct (Z.eq_dec l l') as [Heq|Hne].
  - rewrite <- Heq. pose proof (pow2_pos (l + 1 - 53) ltac:(lia)).
    apply Z.mul_le_mono_nonneg_r; [lia|]. apply rne_mono; lia.
  - (* different binades: 2^(l+1) separates the two results *)
    assert (Hmid1 : rne N (l + 1 - 53) * 2 ^ (l + 1 - 53) ≤ 2 ^ (l + 1)).
    { assert (rne N (l + 1 - 53) ≤ 2 ^ 53).
      { replace (2 ^ 53) with (rne (2 ^ 53 * 2 ^ (l + 1 - 53)) (l + 1 - 53))
          by (apply rne_exact; lia).
        apply rne_mono; [lia|]. rewrite <- Z.pow_add_r by lia.
        replace (53 + (l + 1 - 53)) with (Z.succ l) by lia. lia. }
      replace (2 ^ (l + 1)) with (2 ^ 53 * 2 ^ (l + 1 - 53)).
      2:{ rewrite <- Z.pow_add_r by lia. f_equal. lia. }
      apply Z.mul_le_mono_nonneg_r; [pose proof (pow2_pos (l + 1 - 53)); lia|done]. }
    assert (Hmid2 : 2 ^ l' ≤ rne N' (l' + 1 - 53) * 2 ^ (l' + 1 - 53)).
    { assert (2 ^ 52 ≤ rne N' (l' + 1 - 53)).
      { replace (2 ^ 52) with (rne (2 ^ 52 * 2 ^ (l' + 1 - 53)) (l' + 1 - 53)) at 1
          by (apply rne_exact; lia).
        apply rne_mono; [lia|]. rewrite <- Z.pow_add_r by lia.
        replace (52 + (l' + 1 - 53)) with l' by lia. lia. }
      replace (2 ^ l') with (2 ^ 52 * 2 ^ (l' + 1 - 53)).
      2:{ rewrite <- Z.pow_add_r by lia. f_equal. lia. }
      apply Z.mul_le_mono_nonneg_r; [pose proof (pow2_pos (l' + 1 - 53)); lia|done]. }
    assert (2 ^ (l + 1) ≤ 2 ^ l') by (apply Z.pow_le_mono_r; lia).
    lia.
Qed.

Lemma shiftl_mono a b n : a ≤ b → Z.shiftl a n ≤ Z.shiftl b n.
Proof.
  intros Hab. destruct (Z.le_gt_cases 0 n).
  - rewrite !Z.shiftl_mul_pow2 by lia. pose proof (pow2_pos n). nia.
  - rewrite !Z.shiftl_div_pow2 by lia. apply Z.div_le_mono; [|done].
    apply pow2_pos. lia.
Qed.

Lemma shiftl_nonneg a n : 0 ≤ a → 0 ≤ Z.shiftl a n.
Proof. intros. apply Z.shiftl_nonneg. done. Qed.

Lemma shiftl_double a k : Z.shiftl (2 * a) k = Z.shiftl a (k + 1).
Proof.
  replace (2 * a) with (Z.shiftl a 1) by (rewrite Z.shiftl_mul_pow2; lia).
  rewrite Z.shiftl_shiftl by lia. f_equal. lia.
Qed.

(** [int(a * s)] for a positive integer and a positive normal double *)
Lemma int_mul_float_spec a ms es :
  0 < a < 2 ^ 53 → 2 ^ 52 ≤ Z.pos ms < 2 ^ 53 → -1074 ≤ es ≤ 900 →
  ∃ f, int_mul_float a (S754_finite false ms es) = Ok f ∧
       int_of_float f = Ok (Z.shiftl (R53 (a * Z.pos ms)) es).
Proof.
  intros Ha Hms Hes.
  unfold int_mul_float. rewrite float_of_int_pos by done.
  set (d := Z.log2 a + 1).
  assert (Hd53 : 1 ≤ d ≤ 53).
  { pose proof (Z.log2_spec a ltac:(lia)) as Hb. pose proof (Z.log2_nonneg a). split; [lia|].
    destruct (Z.le_gt_cases d 53); [done|].
    assert (2 ^ 53 ≤ 2 ^ (Z.log2 a)) by (apply Z.pow_le_mono_r; lia). lia. }
  set (j := 53 - d).
  pose proof (pow2_pos j ltac:(lia)) as Hpj.
  cbn [mbind result_bind mret result_ret]. unfold float_mul, SFmul.
  set (mx := Z.to_pos (a * 2 ^ j)).
  assert (Hmx : Z.pos mx = a * 2 ^ j) by (subst mx; rewrite Z2Pos.id; lia).
  set (N := a * Z.pos ms).
  assert (HN : 2 ^ 52 ≤ N) by (subst N; nia).
  assert (HM : Z.pos (mx * ms) = N * 2 ^ j) by (rewrite Pos2Z.inj_mul, Hmx; subst N; lia).
  set (n0 := Z.log2 N + 1 - 53).
  assert (Hl52 : 52 ≤ Z.log2 N).
  { change 52 with (Z.log2 (2 ^ 52)). apply Z.log2_le_mono. lia. }
  assert (Hl106 : Z.log2 N < 106).
  { apply Z.log2_lt_pow2; [lia|]. subst N.
    change (2 ^ 106) with (2 ^ 53 * 2 ^ 53). nia. }
  assert (Hdig : Z.pos (digits2_pos (mx * ms)) - 53 = n0 + j).
  { rewrite digits_log2, HM, Z.log2_mul_pow2 by lia. subst n0. lia. }
  change (xorb false false) with false.
  eexists; split; [reflexivity|].
  pose proof (bra_exact false (mx * ms) (d - 53 + es)) as H. cbv zeta in H.
  rewrite Hdig in H.
  destruct H as [Hr ->]; [lia|subst j; lia|subst j; lia|].
  rewrite HM in *. rewrite rne_scale in * by lia.
  assert (Hsh : Z.shiftl (R53 N) es = Z.shiftl (rne N n0) (n0 + es)).
  { unfold R53. fold n0. rewrite <- Z.shiftl_mul_pow2 by lia.
    rewrite Z.shiftl_shiftl by lia. reflexivity. }
  rewrite Hsh.
  destruct (Z.ltb_spec (rne N n0) (2 ^ 53)) as [Hlt|Hge]; cbn [int_of_float cond_Zopp].
  - rewrite Z2Pos.id by lia. do 2 f_equal. subst j. lia.
  - assert (Heq : rne N n0 = 2 * 2 ^ 52) by (change (2 * 2 ^ 52) with (2 ^ 53); lia).
    rewrite Heq, shiftl_double.
    change (Z.pos (Z.to_pos (2 ^ 52))) with (2 ^ 52). do 2 f_equal. subst j. lia.
Qed.

Lemma int_mul_float_pos a ms es :
  0 < a < 2 ^ 53 → 2 ^ 52 ≤ Z.pos ms < 2 ^ 53 → -1074 ≤ es ≤ 900 →
  (p ← int_mul_float a (S754_finite false ms es); int_of_float p)
  = Ok (Z.shiftl (R53 (a * Z.pos ms)) es).
Proof.
  intros Ha Hms Hes.
  destruct (int_mul_float_spec a ms es Ha Hms Hes) as (f & -> & Hf). exact Hf.
Qed.

Lemma int_mul_float_zero ms es :
  (p ← int_mul_float 0 (S754_finite false ms es); int_of_float p) = Ok 0.
Proof. reflexivity. Qed.

(** Scaling a coordinate is monotone. *)
Lemma scaled_coordinate_mono a b ms es :
  0 ≤ a ≤ b → b < 2 ^ 53 → 2 ^ 52 ≤ Z.pos ms < 2 ^ 53 → -1074 ≤ es ≤ 900 →
  ∃ za zb,
    (p ← int_mul_float a (S754_finite false ms es); int_of_float p) = Ok za ∧
    (p ← int_mul_float b (S754_finite false ms es); int_of_float p) = Ok zb ∧
    0 ≤ za ≤ zb.
Proof.
  intros Hab Hb Hms Hes.
  assert (Hnn : ∀ c, 0 < c → 0 ≤ Z.shiftl (R53 (c * Z.pos ms)) es).
  { intros c Hc. apply Z.shiftl_nonneg. unfold R53.
    assert (52 ≤ Z.log2 (c * Z.pos ms)).
    { change 52 with (Z.log2 (2 ^ 52)). apply Z.log2_le_mono. nia. }
    pose proof (pow2_pos (Z.log2 (c * Z.pos ms) + 1 - 53) ltac:(lia)).
    pose proof (rne_range (c * Z.pos ms) (Z.log2 (c * Z.pos ms) + 1 - 53) ltac:(lia) ltac:(nia)).
    assert (0 ≤ c * Z.pos ms / 2 ^ (Z.log2 (c * Z.pos ms) + 1 - 53)) by (apply Z.div_pos; nia).
    nia. }
  destruct (Z.eq_dec a 0) as [->|Ha0].
  - destruct (Z.eq_dec b 0) as [->|Hb0].
    + exists 0, 0. rewrite int_mul_float_zero. split; [done|]. split; [done|lia].
    + exists 0, (Z.shiftl (R53 (b * Z.pos ms)) es).
      rewrite int_mul_float_zero, int_mul_float_pos by lia.
      split; [done|]. split; [done|]. split; [lia|]. apply Hnn. lia.
  - exists (Z.shiftl (R53 (a * Z.pos ms)) es), (Z.shiftl (R53 (b * Z.pos ms)) es).
    rewrite !int_mul_float_pos by lia.
    split; [done|]. split; [done|]. split; [apply Hnn; lia|].
    apply shiftl_mono, R53_mono. nia.
Qed.

Lemma R53_upper N : 2 ^ 52 ≤ N → R53 N ≤ 2 ^ (Z.log2 N + 1).
Proof.
  intros HN. unfold R53.
  pose proof (Z.log2_spec N ltac:(lia)) as [L1 U1].
  assert (H52 : 52 ≤ Z.log2 N).
  { change 52 with (Z.log2 (2 ^ 52)). apply Z.log2_le_mono. lia. }
  set (l := Z.log2 N) in *.
  assert (rne N (l + 1 - 53) ≤ 2 ^ 53).
  { replace (2 ^ 53) with (rne (2 ^ 53 * 2 ^ (l + 1 - 53)) (l + 1 - 53))
      by (apply rne_exact; lia).
    apply rne_mono; [lia|]. rewrite <- Z.pow_add_r by lia.
    replace (53 + (l + 1 - 53)) with (Z.succ l) by lia. lia. }
  replace (2 ^ (l + 1)) with (2 ^ 53 * 2 ^ (l + 1 - 53)).
  2:{ rewrite <- Z.pow_add_r by lia. f_equal. lia. }
  apply Z.mul_le_mono_nonneg_r; [pose proof (pow2_pos (l + 1 - 53)); lia|done].
Qed.

Lemma shiftl_lt_pow2 m e k :
  0 ≤ m < 2 ^ k → 0 ≤ k → 0 ≤ k + e → Z.shiftl m e < 2 ^ (k + e).
Proof.
  intros Hm Hk Hke. destruct (Z.le_gt_cases 0 e).
  - rewrite Z.shiftl_mul_pow2, Z.pow_add_r by lia. pose proof (pow2_pos e). nia.
  - rewrite Z.shiftl_div_pow2 by lia.
    apply Z.div_lt_upper_bound; [apply pow2_pos; lia|].
    rewrite <- Z.pow_add_r by lia. replace (- e + (k + e)) with k by lia. lia.
Qed.

Lemma int_of_float_normal f lo hi :
  normal f false lo hi → 0 ≤ 53 + hi →
  ∃ z, int_of_float f = Ok z ∧ 0 ≤ z < 2 ^ (53 + hi).
Proof.
  intros (m & e & -> & Hm & He) Hhi. cbn [int_of_float cond_Zopp].
  eexists; split; [reflexivity|]. split; [apply Z.shiftl_nonneg; lia|].
  destruct (Z.le_gt_cases 0 (53 + e)).
  - eapply Z.lt_le_trans; [apply (shiftl_lt_pow2 _ e 53); lia|].
    apply Z.pow_le_mono_r; lia.
  - rewrite Z.shiftl_div_pow2 by lia. rewrite Z.div_small.
    + apply pow2_pos. lia.
    + split; [lia|]. eapply Z.lt_le_trans; [apply Hm|].
      apply Z.pow_le_mono_r; lia.
Qed.

Lemma log2_bounds z k : 0 < z < 2 ^ k → 0 ≤ Z.log2 z < k.
Proof.
  intros Hz. split; [apply Z.log2_nonneg|].
  assert (0 ≤ k).
  { destruct (Z.le_gt_cases 0 k); [done|]. rewrite Z.pow_neg_r in Hz by lia. lia. }
  apply Z.log2_lt_pow2; lia.
Qed.

Lemma int_truediv_normal a b :
  0 < a < 2 ^ 64 → 0 < b < 2 ^ 64 →
  ∃ f, int_truediv a b = Ok f ∧
       normal f false (Z.log2 a - Z.log2 b - 53) (Z.log2 a - Z.log2 b - 51).
Proof.
  intros Ha Hb. unfold int_truediv.
  destruct (Z.eqb_spec b 0); [lia|].
  destruct a as [|pa|pa]; [lia| |lia]. destruct b as [|pb|pb]; [lia| |lia].
  pose proof (log2_bounds _ _ Ha) as Hla. pose proof (log2_bounds _ _ Hb) as Hlb.
  cbn [exact_int].
  pose proof (SFdiv_normal false pa 0 false pb 0) as H. cbv zeta in H.
  rewrite !digits_log2 in H.
  destruct H as (m & e & -> & Hm & He); [lia|lia|].
  eexists; split; [reflexivity|]. exists m, e. split; [done|]. split; [done|lia].
Qed.

Lemma float_truediv_normal x y lo1 hi1 lo2 hi2 :
  normal x false lo1 hi1 → normal y false lo2 hi2 →
  -1074 ≤ lo1 - hi2 - 53 → hi1 - lo2 - 51 ≤ 971 →
  ∃ f, float_truediv x y = Ok f ∧ normal f false (lo1 - hi2 - 53) (hi1 - lo2 - 51).
Proof.
  intros (m1 & e1 & -> & Hm1 & He1) (m2 & e2 & -> & Hm2 & He2) Hlo Hhi.
  unfold float_truediv. cbn [is_zero].
  eexists; split; [reflexivity|].
  pose proof (SFdiv_normal false m1 e1 false m2 e2) as H. cbv zeta in H.
  rewrite (digits_unique m1 53), (digits_unique m2 53) in H by lia.
  eapply normal_weaken; [apply H|..]; lia.
Qed.

Lemma new_location_zero m : new_location m 0 = loc_Exact.
Proof. unfold new_location. destruct (Z.even m); reflexivity. Qed.

Lemma new_location_nonzero m r :
  0 ≤ r < m → r ≠ 0 → new_location m r = loc_Inexact (2 * r ?= m).
Proof.
  intros Hr Hr0. unfold new_location, new_location_even, new_location_odd.
  assert (Hnz : (r =? 0) = false) by (apply Z.eqb_neq; done).
  destruct (Z.even m) eqn:Hev; cbv beta; rewrite Hnz; [reflexivity|].
  f_equal.
  assert (Hodd : Z.odd m = true) by (rewrite <- Z.negb_even, Hev; reflexivity).
  apply Z.odd_spec in Hodd as [k Hk].
  destruct (Z.compare_spec (2 * r + 1) m), (Z.compare_spec (2 * r) m); try reflexivity; lia.
Qed.

Lemma loc_of_record_of_loc m l :
  loc_of_shr_record (shr_record_of_loc m l) = l.
Proof. destruct l as [|[| |]]; reflexivity. Qed.

Lemma shr_m_record_of_loc m l : shr_m (shr_record_of_loc m l) = m.
Proof. destruct l as [|[| |]]; reflexivity. Qed.

(** The quotient of two positive doubles with full mantissas: the
    exponent depends on which mantissa is larger, and the mantissa of
    the quotient is [2^52] only when the two are equal. *)
Lemma SFdiv_53 m1 e1 m2 e2 :
  2 ^ 52 ≤ Z.pos m1 < 2 ^ 53 → 2 ^ 52 ≤ Z.pos m2 < 2 ^ 53 →
  -1000 ≤ e1 - e2 ≤ 1000 →
  ∃ mq eq,
    SFdiv prec emax (S754_finite false m1 e1) (S754_finite false m2 e2)
      = S754_finite false mq eq ∧
    2 ^ 52 ≤ Z.pos mq < 2 ^ 53 ∧
    ((Z.pos m2 ≤ Z.pos m1 ∧ eq = e1 - e2 - 52 ∧
      (Z.pos mq = 2 ^ 52 ↔ m1 = m2)) ∨
     (Z.pos m1 < Z.pos m2 ∧ eq = e1 - e2 - 53 ∧ 2 ^ 52 < Z.pos mq)).
Proof.
  intros Hm1 Hm2 He.
  unfold SFdiv, SFdiv_core_binary.
  change (Zdigits2 (Z.pos m1)) with (Z.pos (digits2_pos m1)).
  change (Zdigits2 (Z.pos m2)) with (Z.pos (digits2_pos m2)).
  rewrite (digits_unique m1 53), (digits_unique m2 53) by lia.
  rewrite fexp_normal by lia.
  replace (Z.min (53 + e1 - (53 + e2) - 53) (e1 - e2)) with (e1 - e2 - 53) by lia.
  replace (e1 - e2 - (e1 - e2 - 53)) with 53 by lia.
  cbv iota. rewrite Z.shiftl_mul_pow2 by lia.
  pose proof (Z_div_mod (Z.pos m1 * 2 ^ 53) (Z.pos m2) ltac:(lia)) as Hdm.
  destruct (Z.div_eucl (Z.pos m1 * 2 ^ 53) (Z.pos m2)) as [q r] eqn:Hqr.
  destruct Hdm as [Hdm Hr].
  set (E := e1 - e2 - 53) in *.
  change (xorb false false) with false.
  change (2 ^ 53) with 9007199254740992 in *. change (2 ^ 52) with 4503599627370496 in *.
  destruct (Z.le_gt_cases (Z.pos m2) (Z.pos m1)) as [Hge|Hlt].
  - (* the quotient has 54 bits *)
    assert (Hq : 9007199254740992 ≤ q ≤ 18014398509481982) by nia.
    destruct q as [|pq|pq]; [lia| |lia].
    assert (Hdq : Z.pos (digits2_pos pq) = 54).
    { apply digits_unique. change (2 ^ (54 - 1)) with 9007199254740992.
      change (2 ^ 54) with 18014398509481984. lia. }
    pose proof (bra_gen false pq E (new_location (Z.pos m2) r)) as H. cbv zeta in H.
    rewrite Hdq in H. change (54 - 53) with 1 in H. change (Z.to_nat 1) with 1%nat in H.
    rewrite shr_n_S, shr_n_0 in H.
    destruct H as [Hrange Heq]; [lia|subst E; lia|subst E; lia|].
    change (2 ^ 53) with 9007199254740992 in *. change (2 ^ 52) with 4503599627370496 in *.
    set (l := new_location (Z.pos m2) r) in *.
    assert (Hrec : shr_1 (shr_record_of_loc (Z.pos pq) l) =
      {| shr_m := Z.pos pq / 2; shr_r := Z.odd (Z.pos pq);
         shr_s := negb (match l with loc_Exact => true | _ => false end) |}).
    { destruct l as [|[| |]]; cbn [shr_record_of_loc]; rewrite shr_1_spec by lia; reflexivity. }
    rewrite Hrec in *. cbn [shr_m] in *.
    set (m' := round_nearest_even _ _) in *.
    pose proof (round_nearest_even_range (Z.pos pq / 2)
      (loc_of_shr_record {| shr_m := Z.pos pq / 2; shr_r := Z.odd (Z.pos pq);
         shr_s := negb (match l with loc_Exact => true | _ => false end) |})) as Hrr.
    fold m' in Hrr.
    assert (Hnocarry : m' < 9007199254740992).
    { destruct (Z.eq_dec (Z.pos pq) 18014398509481982) as [E2|NE].
      - subst m'. rewrite E2. change (Z.odd 18014398509481982) with false.
        change (18014398509481982 / 2) with 9007199254740991.
        destruct l as [|[| |]]; cbn; lia.
      - assert (Z.pos pq / 2 < 9007199254740991); [|lia].
        apply Z.div_lt_upper_bound; lia. }
    destruct (Z.ltb_spec m' 9007199254740992); [|lia].
    exists (Z.to_pos m'), (E + 1). split; [exact Heq|].
    rewrite Z2Pos.id by lia. split; [lia|]. left. split; [lia|]. split; [subst E; lia|].
    split.
    + intros Hm'. apply Pos2Z.inj.
      destruct (Z.eq_dec (Z.pos m1) (Z.pos m2)) as [|Hne]; [done|exfalso].
      assert (Hgt : Z.pos m2 + 1 ≤ Z.pos m1) by lia.
      assert (Hq1 : 9007199254740993 ≤ Z.pos pq) by nia.
      destruct (Z.eq_dec (Z.pos pq) 9007199254740993) as [E3|NE3].
      * assert (Hr0 : r ≠ 0) by nia.
        subst m' l. rewrite new_location_nonzero in Hm' by lia.
        rewrite E3 in Hm'.
        change (Z.odd 9007199254740993) with true in Hm'.
        change (9007199254740993 / 2) with 4503599627370496 in Hm'.
        cbn in Hm'. lia.
      * assert (4503599627370497 ≤ Z.pos pq / 2); [|lia].
        apply Z.div_le_lower_bound; lia.
    + intros ->. assert (Hq0 : Z.pos pq = 9007199254740992 ∧ r = 0) by nia.
      destruct Hq0 as [Hq0 ->]. subst l m'. rewrite new_location_zero, Hq0. reflexivity.
  - (* the quotient has 53 bits *)
    assert (Hq : 4503599627370496 ≤ q ≤ 9007199254740990) by nia.
    destruct q as [|pq|pq]; [lia| |lia].
    assert (Hdq : Z.pos (digits2_pos pq) = 53).
    { apply digits_unique. change (2 ^ (53 - 1)) with 4503599627370496.
      change (2 ^ 53) with 9007199254740992. lia. }
    pose proof (bra_gen false pq E (new_location (Z.pos m2) r)) as H. cbv zeta in H.
    rewrite Hdq in H. change (53 - 53) with 0 in H. change (Z.to_nat 0) with 0%nat in H.
    rewrite shr_n_0, loc_of_record_of_loc, shr_m_record_of_loc in H.
    destruct H as [Hrange Heq]; [lia|subst E; lia|subst E; lia|].
    change (2 ^ 53) with 9007199254740992 in *. change (2 ^ 52) with 4503599627370496 in *.
    set (l := new_location (Z.pos m2) r) in *.
    set (m' := round_nearest_even (Z.pos pq) l) in *.
    pose proof (round_nearest_even_range (Z.pos pq) l) as Hrr. fold m' in Hrr.
    destruct (Z.ltb_spec m' 9007199254740992); [|lia].
    exists (Z.to_pos m'), (E + 0). split; [exact Heq|].
    rewrite Z2Pos.id by lia. split; [lia|]. right. split; [lia|]. split; [subst E; lia|].
    destruct (Z.eq_dec (Z.pos pq) 4503599627370496) as [E3|NE3]; [|lia].
    assert (Hr0 : r ≠ 0) by nia.
    subst m' l. rewrite new_location_nonzero by lia.
    assert (Hc : (2 * r ?= Z.pos m2) = Gt) by (apply Z.compare_gt_iff; nia).
    rewrite Hc, E3. cbn. lia.
Qed.

Lemma compare_cont_Z p q :
  PosDef.Pos.compare_cont Eq p q = (Z.pos p ?= Z.pos q).
Proof. reflexivity. Qed.

(** Comparison of two positive doubles is the comparison of their values:
    with 53-bit mantissas the order is that of the exponents, then of the
    mantissas. *)
Lemma float_lt_finite m1 e1 m2 e2 :
  float_lt (S754_finite false m1 e1) (S754_finite false m2 e2) = true ↔
  e1 < e2 ∨ (e1 = e2 ∧ Z.pos m1 < Z.pos m2).
Proof.
  unfold float_lt, SFltb, SFcompare.
  destruct (Z.compare_spec e1 e2) as [E|L|G].
  - rewrite compare_cont_Z.
    destruct (Z.compare_spec (Z.pos m1) (Z.pos m2)).
    + split; [discriminate|lia].
    + split; [intros _; right; done|done].
    + split; [discriminate|lia].
  - split; [intros _; left; done|done].
  - split; [discriminate|lia].
Qed.

Lemma normal_lt_value m1 e1 m2 e2 k :
  2 ^ 52 ≤ m1 < 2 ^ 53 → 2 ^ 52 ≤ m2 < 2 ^ 53 → k ≤ e1 → k ≤ e2 →
  (e1 < e2 ∨ (e1 = e2 ∧ m1 < m2)) ↔ m1 * 2 ^ (e1 - k) < m2 * 2 ^ (e2 - k).
Proof.
  intros H1 H2 K1 K2.
  pose proof (pow2_pos (e1 - k) ltac:(lia)) as P1.
  destruct (Z.lt_trichotomy e1 e2) as [L|[E|G]].
  - replace (e2 - k) with ((e2 - e1 - 1) + 1 + (e1 - k)) by lia.
    rewrite !Z.pow_add_r by lia. change (2 ^ 1) with 2.
    pose proof (pow2_pos (e2 - e1 - 1) ltac:(lia)) as P2.
    split; [intros _|intros _; left; done].
    rewrite Z.mul_assoc. apply Z.mul_lt_mono_pos_r; [done|]. nia.
  - subst e2. split.
    + intros [?|[_ ?]]; [lia|]. apply Z.mul_lt_mono_pos_r; done.
    + intros H. right. split; [done|]. apply Z.mul_lt_mono_pos_r in H; done.
  - replace (e1 - k) with ((e1 - e2 - 1) + 1 + (e2 - k)) by lia.
    rewrite !Z.pow_add_r by lia. change (2 ^ 1) with 2.
    pose proof (pow2_pos (e1 - e2 - 1) ltac:(lia)) as P2.
    pose proof (pow2_pos (e2 - k) ltac:(lia)) as P3.
    split; [lia|]. rewrite Z.mul_assoc. intros H.
    apply Z.mul_lt_mono_pos_r in H; [|done]. nia.
Qed.

Lemma float_le_half mq eq :
  2 ^ 52 ≤ Z.pos mq →
  float_le lit_0_5 (S754_finite false mq eq) = true ↔ -53 ≤ eq.
Proof.
  intros Hm. unfold float_le, SFleb, lit_0_5, SFcompare.
  destruct (Z.compare_spec (-53) eq) as [E|L|G].
  - rewrite compare_cont_Z.
    change (2 ^ 52) with 4503599627370496 in Hm.
    destruct (Z.compare_spec 4503599627370496 (Z.pos mq)) as [E2|L2|G2].
    + split; [intros _; lia|reflexivity].
    + split; [intros _; lia|reflexivity].
    + lia.
  - split; [intros _; lia|reflexivity].
  - split; [discriminate|lia].
Qed.

Lemma float_le_two mq eq :
  2 ^ 52 ≤ Z.pos mq →
  float_le (S754_finite false mq eq) lit_2_0 = true ↔
  eq < -51 ∨ (eq = -51 ∧ Z.pos mq = 2 ^ 52).
Proof.
  change (2 ^ 52) with 4503599627370496.
  intros Hm. unfold float_le, SFleb, lit_2_0, SFcompare.
  destruct (Z.compare_spec eq (-51)) as [E|L|G].
  - rewrite compare_cont_Z.
    destruct (Z.compare_spec (Z.pos mq) 4503599627370496) as [E2|L2|G2].
    + split; [intros _; right; split; assumption|reflexivity].
    + lia.
    + split; [discriminate|]. intros [Hlt|[_ Heq]]; lia.
  - split; [intros _; left; assumption|reflexivity].
  - split; [discriminate|]. intros [Hlt|[Heq _]]; lia.
Qed.

Lemma band_arith w h jw jh :
  0 < w → 0 < h → 0 ≤ jw → 0 ≤ jh →
  2 ^ 52 ≤ w * 2 ^ jw < 2 ^ 53 → 2 ^ 52 ≤ h * 2 ^ jh < 2 ^ 53 →
  h ≤ 2 * w ↔
  (h * 2 ^ jh ≤ w * 2 ^ jw ∧ jw ≤ jh + 1) ∨ (w * 2 ^ jw < h * 2 ^ jh ∧ jw ≤ jh).
Proof.
  intros Hw Hh Hjw Hjh HMw HMh.
  change (2 ^ 53) with (2 * 2 ^ 52) in *.
  generalize dependent (2 ^ 52). intros T HMw HMh.
  destruct (Z.le_gt_cases jw jh) as [Hle|Hgt].
  - assert (Hb : 2 ^ jh = 2 ^ jw * 2 ^ (jh - jw)).
    { rewrite <- Z.pow_add_r by lia. f_equal. lia. }
    pose proof (pow2_pos jw Hjw) as Ha. pose proof (pow2_pos (jh - jw) ltac:(lia)) as Hk.
    rewrite Hb in *. clear Hb.
    generalize dependent (2 ^ jw). intros a HMw HMh Ha.
    generalize dependent (2 ^ (jh - jw)). intros k HMh Hk.
    assert (H1 : h * a ≤ h * (a * k)).
    { apply Z.mul_le_mono_nonneg_l; [lia|]. rewrite <- (Z.mul_1_r a) at 1.
      apply Z.mul_le_mono_nonneg_l; lia. }
    assert (H2 : h * a < (2 * w) * a) by lia.
    apply Z.mul_lt_mono_pos_r in H2; [|done].
    split; [intros _|intros _; lia].
    destruct (Z.le_gt_cases (h * (a * k)) (w * a)); [left|right]; lia.
  - destruct (Z.eq_dec jw (jh + 1)) as [->|Hne].
    + rewrite (Z.pow_add_r 2 jh 1) in * by lia. change (2 ^ 1) with 2 in *.
      pose proof (pow2_pos jh Hjh) as Hb.
      generalize dependent (2 ^ jh). intros b HMw HMh Hb.
      replace (w * (b * 2)) with ((2 * w) * b) in * by lia.
      split.
      * intros Hle. left. split; [|lia]. apply Z.mul_le_mono_nonneg_r; lia.
      * intros [[Hle _]|[_ ?]]; [|lia]. apply Z.mul_le_mono_pos_r in Hle; done.
    + assert (Ha : 2 ^ jw = 4 * 2 ^ jh * 2 ^ (jw - jh - 2)).
      { change 4 with (2 ^ 2). rewrite <- !Z.pow_add_r by lia. f_equal. lia. }
      pose proof (pow2_pos jh Hjh) as Hb. pose proof (pow2_pos (jw - jh - 2) ltac:(lia)) as Hk.
      rewrite Ha in *. clear Ha.
      generalize dependent (2 ^ jh). intros b HMw HMh Hb.
      generalize dependent (2 ^ (jw - jh - 2)). intros k HMw Hk.
      assert (H1 : w * (4 * b) ≤ w * (4 * b * k)).
      { apply Z.mul_le_mono_nonneg_l; [lia|]. rewrite <- (Z.mul_1_r (4 * b)) at 1.
        apply Z.mul_le_mono_nonneg_l; lia. }
      assert (H2 : (2 * w) * b < h * b) by lia.
      apply Z.mul_lt_mono_pos_r in H2; [|done].
      split; [intros; lia|intros [[_ ?]|[_ ?]]; lia].
Qed.

Lemma float_of_int_mantissa z :
  0 < z < 2 ^ 53 →
  ∃ m j, float_of_int z = Ok (S754_finite false m (- j)) ∧
         0 ≤ j ≤ 52 ∧ Z.pos m = z * 2 ^ j ∧ 2 ^ 52 ≤ Z.pos m < 2 ^ 53.
Proof.
  intros Hz. unfold float_of_int.
  destruct (binary_normalize_mantissa z 0) as (m & j & -> & Hj & Hm & Hr);
    [done|lia|].
  exists m, j. split; [reflexivity|done].
Qed.

(** *** Quotients and products within one unit in the last place *)

(** A quotient shifted right and rounded: the result is the shifted
    quotient or the next integer, and the shifted quotient when nothing
    is lost. *)
Lemma shr_round_bounds q l n :
  0 ≤ q → 0 ≤ n →
  let mrs := shr_n (Z.to_nat n) (shr_record_of_loc q l) in
  let m := round_nearest_even (shr_m mrs) (loc_of_shr_record mrs) in
  q / 2 ^ n ≤ m ≤ q / 2 ^ n + 1 ∧
  (l = loc_Exact → q mod 2 ^ n = 0 → m = q / 2 ^ n).
Proof.
  intros Hq Hn mrs m.
  assert (Hm : shr_m mrs = q / 2 ^ n).
  { subst mrs. destruct l as [|[| |]]; cbn [shr_record_of_loc];
      rewrite shr_m_shr_n by lia; rewrite Z2Nat.id by lia; reflexivity. }
  split.
  - pose proof (round_nearest_even_range (shr_m mrs) (loc_of_shr_record mrs)) as Hr.
    fold m in Hr. rewrite Hm in Hr. exact Hr.
  - intros -> Hmod. subst m. rewrite Hm.
    assert (Hloc : loc_of_shr_record mrs = loc_Exact); [|rewrite Hloc; reflexivity].
    subst mrs. cbn [shr_record_of_loc].
    destruct (Z.to_nat n) as [|k] eqn:Hk.
    + rewrite shr_n_0. reflexivity.
    + rewrite shr_n_spec by lia. cbn [loc_of_shr_record].
      assert (n = Z.of_nat k + 1) as -> by lia.
      rewrite Z.pow_add_r, Z.pow_1_r in Hmod by lia.
      pose proof (pow2_pos (Z.of_nat k) ltac:(lia)) as Hp.
      apply Z.mod_divide in Hmod; [|lia]. destruct Hmod as [t Ht].
      assert (Hdiv : q / 2 ^ Z.of_nat k = 2 * t).
      { rewrite Ht. replace (t * (2 ^ Z.of_nat k * 2)) with (2 * t * 2 ^ Z.of_nat k) by lia.
        apply Z.div_mul. lia. }
      assert (Hmod' : q mod 2 ^ Z.of_nat k = 0).
      { rewrite Ht. replace (t * (2 ^ Z.of_nat k * 2)) with (2 * t * 2 ^ Z.of_nat k) by lia.
        apply Z.mod_mul. lia. }
      rewrite Hdiv, Hmod'. rewrite Z.odd_mul. reflexivity.
Qed.

(** The quotient of two positive doubles is within one unit in the last
    place of the exact quotient: with [mq * 2^eq] the result,
    [(mq - 1) * 2^eq < (m1 * 2^e1) / (m2 * 2^e2) < (mq + 1) * 2^eq],
    written without fractions. *)
Lemma SFdiv_ulp m1 e1 m2 e2 :
  let X := (Z.pos (digits2_pos m1) + e1) - (Z.pos (digits2_pos m2) + e2) - 53 in
  -1074 ≤ X → X + 2 ≤ 971 →
  ∃ mq eq a b,
    SFdiv prec emax (S754_finite false m1 e1) (S754_finite false m2 e2)
      = S754_finite false mq eq ∧
    2 ^ 52 ≤ Z.pos mq < 2 ^ 53 ∧
    0 ≤ a ∧ 0 ≤ b ∧ eq = e1 - e2 - a + b ∧
    (Z.pos mq - 1) * Z.pos m2 * 2 ^ b < Z.pos m1 * 2 ^ a ∧
    Z.pos m1 * 2 ^ a < (Z.pos mq + 1) * Z.pos m2 * 2 ^ b.
Proof.
  intros X Hlo Hhi.
  unfold SFdiv, SFdiv_core_binary.
  change (Zdigits2 (Z.pos m1)) with (Z.pos (digits2_pos m1)).
  change (Zdigits2 (Z.pos m2)) with (Z.pos (digits2_pos m2)).
  pose proof (digits_bounds m1) as Hb1. pose proof (digits_bounds m2) as Hb2.
  set (d1 := Z.pos (digits2_pos m1)) in *. set (d2 := Z.pos (digits2_pos m2)) in *.
  assert (Hd1 : 1 ≤ d1) by (subst d1; lia). assert (Hd2 : 1 ≤ d2) by (subst d2; lia).
  rewrite fexp_normal by (subst X; lia).
  replace (d1 + e1 - (d2 + e2) - 53) with X by (subst X; lia).
  set (e' := Z.min X (e1 - e2)).
  set (s := e1 - e2 - e').
  assert (Hs : 0 ≤ s) by (subst s e'; lia).
  set (m' := match s with Z.pos _ => Z.shiftl (Z.pos m1) s | 0 => Z.pos m1 | Z.neg _ => 0 end).
  assert (Hm' : m' = Z.pos m1 * 2 ^ s).
  { subst m'. destruct s as [|k|k] eqn:Hk; [|rewrite Z.shiftl_mul_pow2 by lia; reflexivity|lia].
    rewrite Z.mul_1_r. reflexivity. }
  clearbody m'.
  pose proof (Z_div_mod m' (Z.pos m2) ltac:(lia)) as Hdm.
  destruct (Z.div_eucl m' (Z.pos m2)) as [q r] eqn:Hqr.
  destruct Hdm as [Hdm Hr].
  assert (Hq : q = m' / Z.pos m2) by (unfold Z.div; rewrite Hqr; reflexivity).
  set (D := d1 + s - d2).
  assert (HD : 53 ≤ D) by (subst D s e' X; lia).
  assert (Hqb : 2 ^ (D - 1) ≤ q < 2 ^ (D + 1)).
  { rewrite Hq, Hm'. pose proof (pow2_pos s Hs) as Hps. split.
    - apply Z.div_le_lower_bound; [lia|].
      assert (2 ^ (D - 1) * 2 ^ d2 = 2 ^ (d1 - 1) * 2 ^ s) as Heq.
      { rewrite <- !Z.pow_add_r by lia. f_equal. subst D. lia. }
      pose proof (pow2_pos (D - 1) ltac:(lia)). nia.
    - apply Z.div_lt_upper_bound; [lia|].
      assert (2 ^ (d2 - 1) * 2 ^ (D + 1) = 2 ^ d1 * 2 ^ s) as Heq.
      { rewrite <- !Z.pow_add_r by lia. f_equal. subst D. lia. }
      pose proof (pow2_pos (D + 1) ltac:(lia)). nia. }
  destruct q as [|pq|pq]; [pose proof (pow2_pos (D - 1)); lia| |pose proof (pow2_pos (D - 1)); lia].
  pose proof (digits_between pq (D - 1) (D + 1) ltac:(lia) Hqb) as Hdq.
  change (xorb false false) with false.
  set (l := new_location (Z.pos m2) r).
  set (n := Z.pos (digits2_pos pq) - 53).
  assert (Hn : 0 ≤ n) by (subst n; lia).
  pose proof (bra_gen false pq e' l) as H. cbv zeta in H. fold n in H.
  destruct H as [Hrange Heq]; [lia|subst n D s e' X; lia|subst n D s e' X; lia|].
  pose proof (shr_round_bounds (Z.pos pq) l n ltac:(lia) Hn) as Hsr.
  cbv zeta in Hsr.
  set (mr := round_nearest_even _ _) in *.
  destruct Hsr as [Hfl Hexact].
  set (F := Z.pos pq / 2 ^ n) in *.
  pose proof (pow2_pos n Hn) as Hpn.
  pose proof (Z.div_mod (Z.pos pq) (2 ^ n) ltac:(lia)) as Hqn.
  pose proof (Z.mod_pos_bound (Z.pos pq) (2 ^ n) ltac:(lia)) as Hrho.
  fold F in Hqn. set (rho := Z.pos pq mod 2 ^ n) in *.
  (* the sandwich around the rounded mantissa, before a carry *)
  assert (Hlow : (mr - 1) * Z.pos m2 * 2 ^ n < m').
  { destruct (Z.eq_dec mr F) as [E|NE].
    - rewrite E.
      assert (F * Z.pos m2 * 2 ^ n ≤ m') by nia.
      assert (0 < Z.pos m2 * 2 ^ n) by nia. nia.
    - assert (Emr : mr = F + 1) by lia.
      assert (Hinexact : r ≠ 0 ∨ rho ≠ 0).
      { destruct (Z.eq_dec r 0) as [Hr0|]; [|left; done].
        destruct (Z.eq_dec rho 0) as [Hrho0|]; [|right; done].
        exfalso. apply NE. apply Hexact; [|done].
        subst l. rewrite Hr0. apply new_location_zero. }
      rewrite Emr. replace (F + 1 - 1) with F by lia.
      destruct Hinexact; nia. }
  assert (Hupp : m' < (mr + 1) * Z.pos m2 * 2 ^ n).
  { assert (m' < (Z.pos pq + 1) * Z.pos m2) by nia.
    assert (Z.pos pq + 1 ≤ (F + 1) * 2 ^ n) by nia.
    assert ((Z.pos pq + 1) * Z.pos m2 ≤ (F + 1) * 2 ^ n * Z.pos m2)
      by (apply Z.mul_le_mono_nonneg_r; lia).
    assert ((F + 1) * 2 ^ n * Z.pos m2 ≤ (mr + 1) * 2 ^ n * Z.pos m2).
    { apply Z.mul_le_mono_nonneg_r; [lia|].
      apply Z.mul_le_mono_nonneg_r; lia. }
    lia. }
  rewrite Heq.
  destruct (Z.ltb_spec mr (2 ^ 53)) as [Hlt|Hge].
  - exists (Z.to_pos mr), (e' + n), s, n.
    rewrite Z2Pos.id by lia.
    split; [reflexivity|]. split; [lia|]. split; [done|]. split; [done|].
    split; [subst s; lia|]. rewrite <- Hm'. split; done.
  - assert (Emr : mr = 2 ^ 53) by lia.
    exists (Z.to_pos (2 ^ 52)), (e' + n + 1), s, (n + 1).
    change (Z.pos (Z.to_pos (2 ^ 52))) with (2 ^ 52).
    split; [reflexivity|]. split; [split; [lia|apply Z.pow_lt_mono_r; lia]|].
    split; [done|]. split; [lia|].
    split; [subst s; lia|]. rewrite <- Hm'.
    rewrite Z.pow_add_r, Z.pow_1_r by lia.
    rewrite Emr in Hlow, Hupp.
    change (2 ^ 53) with (2 * 2 ^ 52) in Hlow, Hupp.
    assert (0 < Z.pos m2 * 2 ^ n) by nia.
    split; nia.
Qed.

Lemma int_truediv_ulp a b :
  0 < a < 2 ^ 64 → 0 < b < 2 ^ 64 →
  ∃ mq eq u v,
    int_truediv a b = Ok (S754_finite false mq eq) ∧
    2 ^ 52 ≤ Z.pos mq < 2 ^ 53 ∧
    0 ≤ u ∧ 0 ≤ v ∧ eq = v - u ∧
    Z.log2 a - Z.log2 b - 53 ≤ eq ≤ Z.log2 a - Z.log2 b - 51 ∧
    (Z.pos mq - 1) * b * 2 ^ v < a * 2 ^ u ∧
    a * 2 ^ u < (Z.pos mq + 1) * b * 2 ^ v.
Proof.
  intros Ha Hb.
  destruct (int_truediv_normal a b Ha Hb) as (f & Hf & (m & e & -> & Hm & He)).
  revert Hf. unfold int_truediv.
  destruct (Z.eqb_spec b 0); [lia|].
  destruct a as [|pa|pa]; [lia| |lia]. destruct b as [|pb|pb]; [lia| |lia].
  pose proof (log2_bounds _ _ Ha) as Hla. pose proof (log2_bounds _ _ Hb) as Hlb.
  cbn [exact_int].
  pose proof (SFdiv_ulp pa 0 pb 0) as H. cbv zeta in H.
  rewrite !digits_log2 in H.
  destruct H as (mq & eq & u & v & -> & Hmq & Hu & Hv & -> & Hlow & Hupp);
    [lia|lia|].
  intros [= -> Heq]. exists m, e, u, v.
  split; [rewrite Heq; reflexivity|]. split; [done|]. split; [done|]. split; [done|].
  split; [lia|]. split; [done|]. split; done.
Qed.

(** Rounding steps at a boundary: an integer strictly within one of a
    scaled bound is on the right side of it. *)
Lemma scaled_succ_ge m C u v :
  0 ≤ u → 0 ≤ v → 2 ^ 52 ≤ m → 0 ≤ C < 2 ^ 53 →
  C * 2 ^ u < (m + 1) * 2 ^ v → C * 2 ^ u ≤ m * 2 ^ v.
Proof.
  intros Hu Hv Hm HC H.
  destruct (Z.le_gt_cases v u) as [Hvu|Huv].
  - replace u with ((u - v) + v) in * by lia.
    rewrite Z.pow_add_r in * by lia.
    pose proof (pow2_pos v Hv). pose proof (pow2_pos (u - v) ltac:(lia)).
    rewrite Z.mul_assoc in *.
    apply Z.mul_lt_mono_pos_r in H; [|done].
    apply Z.mul_le_mono_nonneg_r; lia.
  - replace v with ((v - u - 1) + 1 + u) by lia.
    rewrite !Z.pow_add_r by lia. change (2 ^ 1) with 2.
    pose proof (pow2_pos u Hu). pose proof (pow2_pos (v - u - 1) ltac:(lia)).
    rewrite !Z.mul_assoc. apply Z.mul_le_mono_nonneg_r; [lia|].
    change (2 ^ 53) with (2 * 2 ^ 52) in HC. nia.
Qed.

Lemma scaled_pred_le m C u v :
  0 ≤ u → 0 ≤ v → 2 ^ 52 ≤ m → 0 ≤ C < 2 ^ 53 → Z.even C = true →
  (m - 1) * 2 ^ v < C * 2 ^ u → m * 2 ^ v ≤ C * 2 ^ u.
Proof.
  intros Hu Hv Hm HC Hev H.
  destruct (Z.le_gt_cases v u) as [Hvu|Huv].
  - replace u with ((u - v) + v) in * by lia.
    rewrite Z.pow_add_r in * by lia.
    pose proof (pow2_pos v Hv). pose proof (pow2_pos (u - v) ltac:(lia)).
    rewrite Z.mul_assoc in *.
    apply Z.mul_lt_mono_pos_r in H; [|done].
    apply Z.mul_le_mono_nonneg_r; lia.
  - replace v with ((v - u - 1) + 1 + u) in * by lia.
    rewrite !Z.pow_add_r in * by lia. change (2 ^ 1) with 2 in *.
    pose proof (pow2_pos u Hu). pose proof (pow2_pos (v - u - 1) ltac:(lia)).
    rewrite !Z.mul_assoc in *.
    apply Z.mul_lt_mono_pos_r in H; [|done].
    apply Z.mul_le_mono_nonneg_r; [lia|].
    change (2 ^ 53) with (4 * 2 ^ 51) in HC.
    change (2 ^ 52) with (2 * 2 ^ 51) in Hm.
    pose proof (pow2_pos 51 ltac:(lia)) as P51.
    assert (H51 : 2 ^ 51 * (2 ^ (v - u - 1) * 2) ≤ (m - 1) * (2 ^ (v - u - 1) * 2))
      by (apply Z.mul_le_mono_nonneg_r; lia).
    assert (H4 : 2 ^ 51 * (2 ^ (v - u - 1) * 2) < 2 ^ 51 * 4) by lia.
    apply Z.mul_lt_mono_pos_l in H4; [|done].
    assert (2 ^ (v - u - 1) = 1) as -> by lia.
    apply Z.even_spec in Hev as [c ->]. lia.
Qed.

(** The rounded quotient of two integers against the bounds 1/2, 1
    and 2 of the exact one. *)
Lemma ratio_bounds a b mq u v :
  0 < a → 0 < b → 0 ≤ u → 0 ≤ v → 2 ^ 52 ≤ mq < 2 ^ 53 →
  (mq - 1) * b * 2 ^ v < a * 2 ^ u →
  a * 2 ^ u < (mq + 1) * b * 2 ^ v →
  (b ≤ a → 2 ^ u ≤ mq * 2 ^ v) ∧
  (a ≤ b → mq * 2 ^ v ≤ 2 ^ u) ∧
  (a ≤ 2 * b → mq * 2 ^ v ≤ 2 ^ (u + 1)) ∧
  (b ≤ 2 * a → 2 ^ u ≤ mq * 2 ^ (v + 1)).
Proof.
  intros Ha Hb Hu Hv Hmq Hlow Hupp.
  pose proof (pow2_pos u Hu) as Pu. pose proof (pow2_pos v Hv) as Pv.
  assert (B1 : 0 ≤ 1 < 2 ^ 53) by (split; [lia|apply (pow2_pos 53); lia]).
  split; [|split; [|split]].
  - intros Hba.
    assert (H : 1 * 2 ^ u < (mq + 1) * 2 ^ v).
    { apply (Z.mul_lt_mono_pos_l b); [done|]. nia. }
    pose proof (scaled_succ_ge mq 1 u v Hu Hv ltac:(lia) B1 H). lia.
  - intros Hab.
    assert (H : (mq - 1) * 2 ^ v < 2 * 2 ^ u).
    { apply (Z.mul_lt_mono_pos_l b); [done|]. nia. }
    assert (H' : (mq - 1) * 2 ^ v < 1 * 2 ^ u).
    { apply (Z.mul_lt_mono_pos_l b); [done|]. nia. }
    destruct (Z.le_gt_cases v u) as [Hvu|Huv].
    + replace u with ((u - v) + v) in * by lia.
      rewrite Z.pow_add_r in * by lia.
      pose proof (pow2_pos (u - v) ltac:(lia)).
      rewrite Z.mul_assoc in H'.
      apply Z.mul_lt_mono_pos_r in H'; [|done].
      apply Z.mul_le_mono_nonneg_r; lia.
    + exfalso.
      assert (2 ^ u < 2 ^ v) by (apply Z.pow_lt_mono_r; lia).
      change (2 ^ 52) with 4503599627370496 in Hmq. nia.
  - intros Hab.
    assert (H' : (mq - 1) * 2 ^ v < 1 * 2 ^ (u + 1)).
    { rewrite Z.pow_add_r, Z.pow_1_r by lia.
      apply (Z.mul_lt_mono_pos_l b); [done|]. nia. }
    destruct (Z.le_gt_cases v (u + 1)) as [Hvu|Huv].
    + replace (u + 1) with ((u + 1 - v) + v) in * by lia.
      rewrite Z.pow_add_r in * by lia.
      pose proof (pow2_pos (u + 1 - v) ltac:(lia)).
      rewrite Z.mul_assoc in H'.
      apply Z.mul_lt_mono_pos_r in H'; [|done].
      apply Z.mul_le_mono_nonneg_r; lia.
    + exfalso.
      assert (2 ^ (u + 1) < 2 ^ v) by (apply Z.pow_lt_mono_r; lia).
      change (2 ^ 52) with 4503599627370496 in Hmq. nia.
  - intros Hba.
    assert (H : 1 * 2 ^ u < (mq + 1) * 2 ^ (v + 1)).
    { rewrite Z.pow_add_r, Z.pow_1_r by lia.
      apply (Z.mul_lt_mono_pos_l b); [done|]. nia. }
    pose proof (scaled_succ_ge mq 1 u (v + 1) Hu ltac:(lia) ltac:(lia) B1 H).
    lia.
Qed.

Lemma shiftl_le_of_scaled m c t s :
  0 ≤ t → 0 ≤ s → 0 ≤ m → m * 2 ^ t ≤ c * 2 ^ s → Z.shiftl m (t - s) ≤ c.
Proof.
  intros Ht Hs Hm H.
  destruct (Z.le_gt_cases s t) as [Hst|Hts].
  - rewrite Z.shiftl_mul_pow2 by lia.
    replace t with ((t - s) + s) in H by lia.
    rewrite Z.pow_add_r, Z.mul_assoc in H by lia.
    pose proof (pow2_pos s Hs).
    apply Z.mul_le_mono_pos_r in H; done.
  - rewrite Z.shiftl_div_pow2 by lia.
    replace (- (t - s)) with (s - t) by lia.
    replace s with ((s - t) + t) in H by lia.
    rewrite Z.pow_add_r, Z.mul_assoc in H by lia.
    pose proof (pow2_pos t Ht). pose proof (pow2_pos (s - t) ltac:(lia)).
    apply Z.mul_le_mono_pos_r in H; [|done].
    apply Z.div_le_upper_bound; lia.
Qed.

Lemma shiftl_ge_of_scaled m c t s :
  0 ≤ t → 0 ≤ s → c * 2 ^ s ≤ m * 2 ^ t → c ≤ Z.shiftl m (t - s).
Proof.
  intros Ht Hs H.
  destruct (Z.le_gt_cases s t) as [Hst|Hts].
  - rewrite Z.shiftl_mul_pow2 by lia.
    replace t with ((t - s) + s) in H by lia.
    rewrite Z.pow_add_r, Z.mul_assoc in H by lia.
    pose proof (pow2_pos s Hs).
    apply Z.mul_le_mono_pos_r in H; done.
  - rewrite Z.shiftl_div_pow2 by lia.
    replace (- (t - s)) with (s - t) by lia.
    replace s with ((s - t) + t) in H by lia.
    rewrite Z.pow_add_r, Z.mul_assoc in H by lia.
    pose proof (pow2_pos t Ht). pose proof (pow2_pos (s - t) ltac:(lia)).
    apply Z.mul_le_mono_pos_r in H; [|done].
    apply Z.div_le_lower_bound; lia.
Qed.

(** A number with at most 53 significant bits is not changed by the
    rounding to 53 bits. *)
Lemma R53_exact c j :
  0 < c < 2 ^ 53 → 0 ≤ j → 2 ^ 52 ≤ c * 2 ^ j → R53 (c * 2 ^ j) = c * 2 ^ j.
Proof.
  intros Hc Hj HN. unfold R53. cbv zeta.
  rewrite Z.log2_mul_pow2 by lia.
  pose proof (log2_bounds c 53 Hc) as Hl.
  replace (j + Z.log2 c + 1 - 53) with (Z.log2 c + j + 1 - 53) by lia.
  set (n := Z.log2 c + j + 1 - 53).
  assert (Hn : 0 ≤ n).
  { subst n. destruct (Z.le_gt_cases 52 (Z.log2 c + j)) as [|Hlt]; [lia|exfalso].
    pose proof (Z.log2_spec c ltac:(lia)) as [_ Hub].
    assert (c * 2 ^ j < 2 ^ (Z.succ (Z.log2 c)) * 2 ^ j)
      by (apply Z.mul_lt_mono_pos_r; [apply pow2_pos; lia|lia]).
    rewrite <- Z.pow_add_r in * by lia.
    assert (2 ^ (Z.succ (Z.log2 c) + j) ≤ 2 ^ 52) by (apply Z.pow_le_mono_r; lia).
    lia. }
  replace (c * 2 ^ j) with (c * 2 ^ (j - n) * 2 ^ n).
  2:{ rewrite <- Z.mul_assoc, <- Z.pow_add_r by lia. do 2 f_equal. lia. }
  rewrite rne_exact by lia. reflexivity.
Qed.

(** Rounding to 53 bits adds at most one part in [2^52]. *)
Lemma R53_le_succ N : 2 ^ 52 ≤ N → R53 N * 2 ^ 52 ≤ N * (2 ^ 52 + 1).
Proof.
  intros HN. unfold R53. cbv zeta.
  pose proof (Z.log2_spec N ltac:(lia)) as [L1 U1].
  assert (H52 : 52 ≤ Z.log2 N).
  { change 52 with (Z.log2 (2 ^ 52)). apply Z.log2_le_mono. lia. }
  set (n := Z.log2 N + 1 - 53).
  assert (Hn : 0 ≤ n) by (subst n; lia).
  pose proof (pow2_pos n Hn) as Pn.
  pose proof (rne_range N n Hn ltac:(lia)) as [_ Hr].
  pose proof (Z.mul_div_le N (2 ^ n) Pn) as Hfl.
  assert (Hpow : 2 ^ n * 2 ^ 52 ≤ N).
  { rewrite <- Z.pow_add_r by lia. replace (n + 52) with (Z.log2 N) by (subst n; lia).
    done. }
  assert (rne N n * 2 ^ n ≤ N + 2 ^ n) by nia.
  pose proof (pow2_pos 52 ltac:(lia)). nia.
Qed.

Lemma shiftl_ge_scaled c m e :
  0 ≤ m → c ≤ Z.shiftl m e →
  ∃ s t, 0 ≤ s ∧ 0 ≤ t ∧ e = t - s ∧ c * 2 ^ s ≤ m * 2 ^ t.
Proof.
  intros Hm H. destruct (Z.le_gt_cases 0 e) as [He|He].
  - exists 0, e. rewrite Z.shiftl_mul_pow2 in H by lia.
    change (2 ^ 0) with 1. repeat split; lia.
  - exists (- e), 0. rewrite Z.shiftl_div_pow2 in H by lia.
    pose proof (pow2_pos (- e) ltac:(lia)) as P.
    pose proof (Z.mul_div_le m (2 ^ (- e)) P).
    change (2 ^ 0) with 1. repeat split; [lia|lia|lia|]. nia.
Qed.

(** When the height that fits the width is too tall, the width that fits
    the height of the label is within the width of the label. *)
Lemma refit_width_le Lw Lh ma k q nh p nw :
  1 ≤ Lw < 2 ^ 31 → 1 ≤ Lh < 2 ^ 31 →
  2 ^ 52 ≤ Z.pos ma < 2 ^ 53 → 21 ≤ k ≤ 83 →
  int_div_float Lw (S754_finite false ma (- k)) = Ok q →
  int_of_float q = Ok nh → Lh < nh →
  int_mul_float Lh (S754_finite false ma (- k)) = Ok p →
  int_of_float p = Ok nw →
  nw ≤ Lw.
Proof.
  intros HLw HLh Hma Hk Hq Hnh Htall Hp Hnw.
  assert (B31 : 2 ^ 31 < 2 ^ 53) by (apply Z.pow_lt_mono_r; lia).
  unfold int_div_float in Hq.
  destruct (float_of_int_mantissa Lw ltac:(lia)) as (mL & jL & E & HjL & EmL & HmL).
  rewrite E in Hq. cbn [mbind result_bind] in Hq.
  change (Ok (SFdiv prec emax (S754_finite false mL (- jL))
                (S754_finite false ma (- k))) = Ok q) in Hq.
  pose proof (SFdiv_ulp mL (- jL) ma (- k)) as H. cbv zeta in H.
  rewrite (digits_unique mL 53), (digits_unique ma 53) in H by lia.
  destruct H as (mq & eq & a & b & Hdiv & Hmq & Ha & Hb & Heq & Hlow & _);
    [lia|lia|].
  rewrite Hdiv in Hq. injection Hq as <-.
  cbn [int_of_float cond_Zopp] in Hnh. injection Hnh as <-.
  destruct (int_mul_float_spec Lh ma (- k)) as (f & Hf & Hi); [lia|done|lia|].
  rewrite Hf in Hp. injection Hp as <-. rewrite Hi in Hnw. injection Hnw as <-.
  destruct (Z.le_gt_cases (Z.shiftl (R53 (Lh * Z.pos ma)) (- k)) Lw) as [|Hbig];
    [done|exfalso].
  (* the product, rounded, is at least (Lw + 1) * 2^k *)
  rewrite Z.shiftl_div_pow2 in Hbig by lia. replace (- - k) with k in Hbig by lia.
  pose proof (pow2_pos k ltac:(lia)) as Pk.
  pose proof (Z.mul_div_le (R53 (Lh * Z.pos ma)) (2 ^ k) Pk) as Hfl.
  assert (H3 : (Lw + 1) * 2 ^ k ≤ R53 (Lh * Z.pos ma)) by nia.
  pose proof (R53_le_succ (Lh * Z.pos ma) ltac:(nia)) as HR.
  (* the quotient is more than Lh *)
  destruct (shiftl_ge_scaled (Lh + 1) (Z.pos mq) eq ltac:(lia) ltac:(lia))
    as (s & t & Hs & Ht & Hst & Hge).
  pose proof (pow2_pos s Hs) as Ps. pose proof (pow2_pos t Ht) as Pt.
  pose proof (pow2_pos a Ha) as Pa. pose proof (pow2_pos b Hb) as Pb.
  pose proof (pow2_pos jL ltac:(lia)) as Pj.
  assert (Hexp : 2 ^ jL * 2 ^ a * 2 ^ t = 2 ^ k * 2 ^ b * 2 ^ s).
  { rewrite <- !Z.pow_add_r by lia. f_equal. lia. }
  rewrite EmL in Hlow.
  change (2 ^ 53) with 9007199254740992 in *.
  change (2 ^ 52) with 4503599627370496 in *.
  change (2 ^ 31) with 2147483648 in *.
  set (Q := Z.pos mq) in *. set (A := Z.pos ma) in *.
  set (R := R53 (Lh * A)) in *.
  set (Ps_ := 2 ^ s) in *. set (Pt_ := 2 ^ t) in *. set (Pa_ := 2 ^ a) in *.
  set (Pb_ := 2 ^ b) in *. set (Pj_ := 2 ^ jL) in *. set (Pk_ := 2 ^ k) in *.
  clearbody Q A R Ps_ Pt_ Pa_ Pb_ Pj_ Pk_.
  clear Hdiv Hf Hi E EmL HmL Hfl Hbig Htall Heq Hst.
  assert (S1 : (Lh + 1) * Ps_ * ((4503599627370496 - 1) * A * Pb_)
               ≤ Q * Pt_ * ((4503599627370496 - 1) * A * Pb_))
    by (apply Z.mul_le_mono_nonneg_r; [nia|done]).
  assert (S2 : Q * (4503599627370496 - 1) * (A * Pb_ * Pt_)
               ≤ (Q - 1) * 4503599627370496 * (A * Pb_ * Pt_))
    by (apply Z.mul_le_mono_nonneg_r; [nia|lia]).
  assert (S3 : (Q - 1) * A * Pb_ * (4503599627370496 * Pt_)
               < Lw * Pj_ * Pa_ * (4503599627370496 * Pt_))
    by (apply Z.mul_lt_mono_pos_r; [nia|done]).
  assert (S4 : (Lh + 1) * (4503599627370496 - 1) * A * (Pb_ * Ps_)
               < Lw * 4503599627370496 * Pk_ * (Pb_ * Ps_)).
  { replace (Lw * 4503599627370496 * Pk_ * (Pb_ * Ps_))
      with (Lw * 4503599627370496 * (Pk_ * Pb_ * Ps_)) by ring.
    rewrite <- Hexp.
    assert (E1 : (Lh + 1) * (4503599627370496 - 1) * A * (Pb_ * Ps_)
                 = (Lh + 1) * Ps_ * ((4503599627370496 - 1) * A * Pb_)) by ring.
    assert (E2 : Q * Pt_ * ((4503599627370496 - 1) * A * Pb_)
                 = Q * (4503599627370496 - 1) * (A * Pb_ * Pt_)) by ring.
    assert (E3 : (Q - 1) * 4503599627370496 * (A * Pb_ * Pt_)
                 = (Q - 1) * A * Pb_ * (4503599627370496 * Pt_)) by ring.
    assert (E4 : Lw * 4503599627370496 * (Pj_ * Pa_ * Pt_)
                 = Lw * Pj_ * Pa_ * (4503599627370496 * Pt_)) by ring.
    rewrite E1, E4. rewrite E2, E3 in *. lia. }
  apply Z.mul_lt_mono_pos_r in S4; [|nia].
  assert (S5 : (Lh + 1) * (4503599627370496 - 1) * A
               < Lh * (4503599627370496 + 1) * A) by nia.
  apply Z.mul_lt_mono_pos_r in S5; [|lia]. lia.
Qed.

(** *** Quotients within half a unit in the last place *)

(** A quotient [q] with remainder [r] by [m2], shifted right and
    rounded: the result is within one half of the exact shifted
    quotient. *)
Lemma shr_round_half q r m2 n :
  0 ≤ q → 0 ≤ n → 0 ≤ r < m2 →
  let mrs := shr_n (Z.to_nat n) (shr_record_of_loc q (new_location m2 r)) in
  let m := round_nearest_even (shr_m mrs) (loc_of_shr_record mrs) in
  (2 * m - 1) * m2 * 2 ^ n ≤ 2 * (q * m2 + r) ∧
  2 * (q * m2 + r) ≤ (2 * m + 1) * m2 * 2 ^ n.
Proof.
  intros Hq Hn Hr. cbv zeta.
  destruct (Z.to_nat n) as [|k] eqn:Hk.
  - assert (n = 0) as -> by lia. rewrite shr_n_0.
    rewrite loc_of_record_of_loc, shr_m_record_of_loc.
    change (2 ^ 0) with 1. rewrite !Z.mul_1_r.
    destruct (Z.eq_dec r 0) as [->|Hr0].
    + rewrite new_location_zero. cbn [round_nearest_even]. lia.
    + rewrite new_location_nonzero by lia.
      destruct (Z.compare_spec (2 * r) m2); cbn [round_nearest_even];
        [destruct (Z.even q)| |]; nia.
  - assert (En : n = Z.of_nat k + 1) by lia.
    pose proof (pow2_pos (Z.of_nat k) ltac:(lia)) as Pk.
    assert (E2 : 2 ^ n = 2 * 2 ^ Z.of_nat k).
    { rewrite En, Z.pow_add_r, Z.pow_1_r by lia. lia. }
    assert (E2' : 2 ^ Z.of_nat (S k) = 2 * 2 ^ Z.of_nat k).
    { rewrite Nat2Z.inj_succ, Z.pow_succ_r by lia. reflexivity. }
    pose proof (Z.div_mod q (2 ^ Z.of_nat k) ltac:(lia)) as Hdm.
    pose proof (Z.mod_pos_bound q (2 ^ Z.of_nat k) ltac:(lia)) as Hrho.
    set (rho := q mod 2 ^ Z.of_nat k) in *.
    set (G := q / 2 ^ Z.of_nat k) in *.
    assert (HG : 0 ≤ G) by (subst G; apply Z.div_pos; lia).
    assert (HF : q / 2 ^ Z.of_nat (S k) = G / 2).
    { rewrite E2', Z.mul_comm, <- Z.div_div by lia. reflexivity. }
    pose proof (Z.div_mod G 2 ltac:(lia)) as HG2.
    pose proof (Z.mod_pos_bound G 2 ltac:(lia)) as Hb.
    rewrite Zmod_odd in HG2, Hb.
    set (F := G / 2) in *. rewrite E2.
    destruct (Z.eq_dec r 0) as [->|Hr0].
    + rewrite new_location_zero. cbn [shr_record_of_loc].
      rewrite shr_n_spec by done. cbn [shr_m loc_of_shr_record].
      fold G. fold rho. rewrite HF. fold F.
      rewrite orb_false_r.
      destruct (Z.odd G); destruct (Z.eqb_spec rho 0);
        cbn [negb round_nearest_even]; [destruct (Z.even F)| | |]; nia.
    + rewrite new_location_nonzero by lia.
      assert (Hs : ∀ c, shr_n (S k) (shr_record_of_loc q (loc_Inexact c))
                = {| shr_m := F; shr_r := Z.odd G; shr_s := true |}).
      { intros c. destruct c; cbn [shr_record_of_loc];
          rewrite shr_n_spec by done; fold G; rewrite HF; fold F;
          rewrite ?orb_true_r; reflexivity. }
      rewrite Hs. cbn [shr_m loc_of_shr_record].
      destruct (Z.odd G); cbn [round_nearest_even]; nia.
Qed.

(** The quotient of two positive doubles is within half a unit in the
    last place of the exact quotient: with [mq * 2^eq] the result,
    [(mq - 1/2) * 2^eq <= (m1 * 2^e1) / (m2 * 2^e2) <= (mq + 1/2) * 2^eq],
    written without fractions. *)
Lemma SFdiv_half m1 e1 m2 e2 :
  let X := (Z.pos (digits2_pos m1) + e1) - (Z.pos (digits2_pos m2) + e2) - 53 in
  -1074 ≤ X → X + 2 ≤ 971 →
  ∃ mq eq a b,
    SFdiv prec emax (S754_finite false m1 e1) (S754_finite false m2 e2)
      = S754_finite false mq eq ∧
    2 ^ 52 ≤ Z.pos mq < 2 ^ 53 ∧
    0 ≤ a ∧ 0 ≤ b ∧ eq = e1 - e2 - a + b ∧
    (2 * Z.pos mq - 1) * Z.pos m2 * 2 ^ b ≤ 2 * (Z.pos m1 * 2 ^ a) ∧
    2 * (Z.pos m1 * 2 ^ a) ≤ (2 * Z.pos mq + 1) * Z.pos m2 * 2 ^ b.
Proof.
  intros X Hlo Hhi.
  unfold SFdiv, SFdiv_core_binary.
  change (Zdigits2 (Z.pos m1)) with (Z.pos (digits2_pos m1)).
  change (Zdigits2 (Z.pos m2)) with (Z.pos (digits2_pos m2)).
  pose proof (digits_bounds m1) as Hb1. pose proof (digits_bounds m2) as Hb2.
  set (d1 := Z.pos (digits2_pos m1)) in *. set (d2 := Z.pos (digits2_pos m2)) in *.
  assert (Hd1 : 1 ≤ d1) by (subst d1; lia). assert (Hd2 : 1 ≤ d2) by (subst d2; lia).
  rewrite fexp_normal by (subst X; lia).
  replace (d1 + e1 - (d2 + e2) - 53) with X by (subst X; lia).
  set (e' := Z.min X (e1 - e2)).
  set (s := e1 - e2 - e').
  assert (Hs : 0 ≤ s) by (subst s e'; lia).
  set (m' := match s with Z.pos _ => Z.shiftl (Z.pos m1) s | 0 => Z.pos m1 | Z.neg _ => 0 end).
  assert (Hm' : m' = Z.pos m1 * 2 ^ s).
  { subst m'. destruct s as [|k|k] eqn:Hk; [|rewrite Z.shiftl_mul_pow2 by lia; reflexivity|lia].
    rewrite Z.mul_1_r. reflexivity. }
  clearbody m'.
  pose proof (Z_div_mod m' (Z.pos m2) ltac:(lia)) as Hdm.
  destruct (Z.div_eucl m' (Z.pos m2)) as [q r] eqn:Hqr.
  destruct Hdm as [Hdm Hr].
  assert (Hq : q = m' / Z.pos m2) by (unfold Z.div; rewrite Hqr; reflexivity).
  set (D := d1 + s - d2).
  assert (HD : 53 ≤ D) by (subst D s e' X; lia).
  assert (Hqb : 2 ^ (D - 1) ≤ q < 2 ^ (D + 1)).
  { rewrite Hq, Hm'. pose proof (pow2_pos s Hs) as Hps. split.
    - apply Z.div_le_lower_bound; [lia|].
      assert (2 ^ (D - 1) * 2 ^ d2 = 2 ^ (d1 - 1) * 2 ^ s) as Heq.
      { rewrite <- !Z.pow_add_r by lia. f_equal. subst D. lia. }
      pose proof (pow2_pos (D - 1) ltac:(lia)). nia.
    - apply Z.div_lt_upper_bound; [lia|].
      assert (2 ^ (d2 - 1) * 2 ^ (D + 1) = 2 ^ d1 * 2 ^ s) as Heq.
      { rewrite <- !Z.pow_add_r by lia. f_equal. subst D. lia. }
      pose proof (pow2_pos (D + 1) ltac:(lia)). nia. }
  destruct q as [|pq|pq]; [pose proof (pow2_pos (D - 1)); lia| |pose proof (pow2_pos (D - 1)); lia].
  pose proof (digits_between pq (D - 1) (D + 1) ltac:(lia) Hqb) as Hdq.
  change (xorb false false) with false.
  set (l := new_location (Z.pos m2) r).
  set (n := Z.pos (digits2_pos pq) - 53).
  assert (Hn : 0 ≤ n) by (subst n; lia).
  pose proof (bra_gen false pq e' l) as H. cbv zeta in H. fold n in H.
  destruct H as [Hrange Heq]; [lia|subst n D s e' X; lia|subst n D s e' X; lia|].
  pose proof (shr_round_half (Z.pos pq) r (Z.pos m2) n ltac:(lia) Hn Hr) as Hsr.
  cbv zeta in Hsr. fold l in Hsr.
  set (mr := round_nearest_even _ _) in *.
  destruct Hsr as [Hlow Hupp].
  replace (Z.pos pq * Z.pos m2 + r) with m' in Hlow, Hupp by lia.
  pose proof (pow2_pos n Hn) as Hpn.
  rewrite Heq.
  destruct (Z.ltb_spec mr (2 ^ 53)) as [Hlt|Hge].
  - exists (Z.to_pos mr), (e' + n), s, n.
    rewrite Z2Pos.id by lia.
    split; [reflexivity|]. split; [lia|]. split; [done|]. split; [done|].
    split; [subst s; lia|]. rewrite <- Hm'. split; done.
  - assert (Emr : mr = 2 ^ 53) by lia.
    exists (Z.to_pos (2 ^ 52)), (e' + n + 1), s, (n + 1).
    change (Z.pos (Z.to_pos (2 ^ 52))) with (2 ^ 52).
    split; [reflexivity|]. split; [split; [lia|apply Z.pow_lt_mono_r; lia]|].
    split; [done|]. split; [lia|].
    split; [subst s; lia|]. rewrite <- Hm'.
    rewrite Z.pow_add_r, Z.pow_1_r by lia.
    rewrite Emr in Hlow, Hupp.
    change (2 ^ 53) with (2 * 2 ^ 52) in Hlow, Hupp.
    assert (0 < Z.pos m2 * 2 ^ n) by nia.
    split; nia.
Qed.

Lemma int_truediv_half a b :
  0 < a < 2 ^ 64 → 0 < b < 2 ^ 64 →
  ∃ mq eq u v,
    int_truediv a b = Ok (S754_finite false mq eq) ∧
    2 ^ 52 ≤ Z.pos mq < 2 ^ 53 ∧
    0 ≤ u ∧ 0 ≤ v ∧ eq = v - u ∧
    Z.log2 a - Z.log2 b - 53 ≤ eq ≤ Z.log2 a - Z.log2 b - 51 ∧
    ((Z.pos mq - 1) * b * 2 ^ v < a * 2 ^ u ∧
     a * 2 ^ u < (Z.pos mq + 1) * b * 2 ^ v) ∧
    (2 * Z.pos mq - 1) * b * 2 ^ v ≤ 2 * (a * 2 ^ u) ∧
    2 * (a * 2 ^ u) ≤ (2 * Z.pos mq + 1) * b * 2 ^ v.
Proof.
  intros Ha Hb.
  destruct (int_truediv_normal a b Ha Hb) as (f & Hf & (m & e & -> & Hm & He)).
  revert Hf. unfold int_truediv.
  destruct (Z.eqb_spec b 0); [lia|].
  destruct a as [|pa|pa]; [lia| |lia]. destruct b as [|pb|pb]; [lia| |lia].
  pose proof (log2_bounds _ _ Ha) as Hla. pose proof (log2_bounds _ _ Hb) as Hlb.
  cbn [exact_int].
  pose proof (SFdiv_half pa 0 pb 0) as H. cbv zeta in H.
  rewrite !digits_log2 in H.
  destruct H as (mq & eq & u & v & -> & Hmq & Hu & Hv & -> & Hlow & Hupp);
    [lia|lia|].
  intros [= -> Heq]. exists m, e, u, v.
  split; [rewrite Heq; reflexivity|]. split; [done|]. split; [done|]. split; [done|].
  split; [lia|]. split; [done|].
  pose proof (pow2_pos u Hu). pose proof (pow2_pos v Hv).
  assert (0 < Z.pos pb * 2 ^ v) by nia.
  split; [split; nia|]. split; done.
Qed.

Lemma shiftl_lt_of_scaled m c t s :
  0 ≤ t → 0 ≤ s → 0 ≤ m → m * 2 ^ t < c * 2 ^ s → Z.shiftl m (t - s) < c.
Proof.
  intros Ht Hs Hm H.
  destruct (Z.le_gt_cases s t) as [Hst|Hts].
  - rewrite Z.shiftl_mul_pow2 by lia.
    replace t with ((t - s) + s) in H by lia.
    rewrite Z.pow_add_r, Z.mul_assoc in H by lia.
    pose proof (pow2_pos s Hs).
    apply Z.mul_lt_mono_pos_r in H; done.
  - rewrite Z.shiftl_div_pow2 by lia.
    replace (- (t - s)) with (s - t) by lia.
    replace s with ((s - t) + t) in H by lia.
    rewrite Z.pow_add_r, Z.mul_assoc in H by lia.
    pose proof (pow2_pos t Ht). pose proof (pow2_pos (s - t) ltac:(lia)).
    apply Z.mul_lt_mono_pos_r in H; [|done].
    apply Z.div_lt_upper_bound; lia.
Qed.

(** [int(200 / x)] for a double [x = ma * 2^-k] of at least 1: at most
    200, at least 100 when [x <= 2], at least 1 when [x <= 200], and 0
    when [x > 200]. *)
Lemma div_200 ma k :
  2 ^ 52 ≤ Z.pos ma < 2 ^ 53 → 0 ≤ k ≤ 100 → 2 ^ k ≤ Z.pos ma →
  ∃ q nh,
    int_div_float 200 (S754_finite false ma (- k)) = Ok q ∧
    int_of_float q = Ok nh ∧
    0 ≤ nh ≤ 200 ∧ (Z.pos ma ≤ 2 ^ (k + 1) → 100 ≤ nh) ∧
    (Z.pos ma ≤ 200 * 2 ^ k → 1 ≤ nh) ∧
    (200 * 2 ^ k < Z.pos ma → nh = 0).
Proof.
  intros Hma Hk Hge1. unfold int_div_float.
  change (float_of_int 200)
    with (Ok (S754_finite false 7036874417766400 (-45))).
  cbn [mbind result_bind]. unfold float_truediv. cbn [is_zero].
  pose proof (SFdiv_half 7036874417766400 (-45) ma (- k)) as H. cbv zeta in H.
  rewrite (digits_unique ma 53) in H by lia.
  change (Z.pos (digits2_pos 7036874417766400)) with 53 in H.
  destruct H as (mq & eq & a & b & -> & Hmq & Ha & Hb & -> & Hlow2 & Hupp2);
    [lia|lia|].
  eexists _, _. split; [reflexivity|].
  cbn [int_of_float cond_Zopp]. split; [reflexivity|].
  pose proof (pow2_pos k ltac:(lia)) as Pk.
  pose proof (pow2_pos a Ha) as Pa. pose proof (pow2_pos b Hb) as Pb.
  assert (Pmb : 0 < Z.pos ma * 2 ^ b) by nia.
  assert (Hlow : (Z.pos mq - 1) * Z.pos ma * 2 ^ b < 7036874417766400 * 2 ^ a) by nia.
  assert (Hupp : 7036874417766400 * 2 ^ a < (Z.pos mq + 1) * Z.pos ma * 2 ^ b) by nia.
  assert (B200 : 0 ≤ 7036874417766400 < 2 ^ 53)
    by (change (2 ^ 53) with 9007199254740992; lia).
  replace (-45 - - k - a + b) with ((k + b) - (45 + a)) by lia.
  split; [split|split; [|split]].
  - apply shiftl_nonneg. lia.
  - apply shiftl_le_of_scaled; [lia|lia|lia|].
    rewrite (Z.pow_add_r 2 45 a) by lia.
    change (2 ^ 45) with 35184372088832.
    assert (H : (Z.pos mq - 1) * 2 ^ (k + b) < 7036874417766400 * 2 ^ a).
    { eapply Z.le_lt_trans; [|exact Hlow].
      rewrite Z.pow_add_r by lia. rewrite !Z.mul_assoc.
      apply Z.mul_le_mono_nonneg_r; [lia|].
      apply Z.mul_le_mono_nonneg_l; lia. }
    pose proof (scaled_pred_le (Z.pos mq) 7036874417766400 a (k + b)
                  Ha ltac:(lia) ltac:(lia) B200 eq_refl H). lia.
  - intros Hle2.
    replace (k + b - (45 + a)) with ((k + 1 + b) - (46 + a)) by lia.
    apply shiftl_ge_of_scaled; [lia|lia|].
    rewrite (Z.pow_add_r 2 46 a) by lia.
    change (2 ^ 46) with 70368744177664.
    assert (H : 7036874417766400 * 2 ^ a < (Z.pos mq + 1) * 2 ^ (k + 1 + b)).
    { eapply Z.lt_le_trans; [exact Hupp|].
      rewrite (Z.pow_add_r 2 (k + 1) b) by lia. rewrite !Z.mul_assoc.
      apply Z.mul_le_mono_nonneg_r; [lia|].
      apply Z.mul_le_mono_nonneg_l; lia. }
    pose proof (scaled_succ_ge (Z.pos mq) 7036874417766400 a (k + 1 + b)
                  Ha ltac:(lia) ltac:(lia) B200 H). lia.
  - intros Hle200.
    apply shiftl_ge_of_scaled; [lia|lia|].
    assert (B1 : 0 ≤ 1 < 2 ^ 53) by (change (2 ^ 53) with 9007199254740992; lia).
    assert (H : 1 * 2 ^ (45 + a) < (Z.pos mq + 1) * 2 ^ (k + b)).
    { rewrite (Z.pow_add_r 2 45 a), (Z.pow_add_r 2 k b) by lia.
      change (2 ^ 45) with 35184372088832.
      assert ((Z.pos mq + 1) * Z.pos ma * 2 ^ b
              ≤ (Z.pos mq + 1) * (200 * 2 ^ k) * 2 ^ b).
      { apply Z.mul_le_mono_nonneg_r; [lia|].
        apply Z.mul_le_mono_nonneg_l; lia. }
      nia. }
    exact (scaled_succ_ge (Z.pos mq) 1 (45 + a) (k + b)
             ltac:(lia) ltac:(lia) ltac:(lia) B1 H).
  - intros Hgt200.
    assert (Hk45 : k ≤ 45).
    { destruct (Z.le_gt_cases k 45) as [|Hk46]; [done|exfalso].
      assert (2 ^ 46 ≤ 2 ^ k) by (apply Z.pow_le_mono_r; lia).
      change (2 ^ 46) with 70368744177664 in *.
      change (2 ^ 53) with 9007199254740992 in *. lia. }
    assert (B45 : 2 ^ k ≤ 2 ^ 45) by (apply Z.pow_le_mono_r; lia).
    change (2 ^ 45) with 35184372088832 in B45.
    assert (Hlt : Z.shiftl (Z.pos mq) (k + b - (45 + a)) < 1).
    { apply shiftl_lt_of_scaled; [lia|lia|lia|].
      rewrite (Z.pow_add_r 2 45 a), (Z.pow_add_r 2 k b) by lia.
      change (2 ^ 45) with 35184372088832.
      destruct (Z.lt_ge_cases (Z.pos mq * (2 ^ k * 2 ^ b))
                  (1 * (35184372088832 * 2 ^ a))) as [|Hge]; [done|exfalso].
      (* the quotient is at least one: more than half a unit above the
         exact one *)
      assert (H1 : (2 * Z.pos mq - 1) * (200 * 2 ^ k + 1) * 2 ^ b
                   ≤ (2 * Z.pos mq - 1) * Z.pos ma * 2 ^ b).
      { apply Z.mul_le_mono_nonneg_r; [lia|].
        apply Z.mul_le_mono_nonneg_l; lia. }
      assert (H2 : 2 * Z.pos mq - 1 > 200 * 2 ^ k)
        by (change (2 ^ 52) with 4503599627370496 in Hmq; lia).
      assert (H3 : (2 * Z.pos mq - 1) * 2 ^ b > 200 * 2 ^ k * 2 ^ b) by nia.
      nia. }
    pose proof (shiftl_nonneg (Z.pos mq) (k + b - (45 + a)) ltac:(lia)). lia.
Qed.

(** [int(200 * x)] for a double [x = ma * 2^-k] of at most 1: at most
    200, at least 100 when [x >= 1/2], at least 1 when [200 x >= 1], and
    0 when [200 x < 1]. *)
Lemma mul_200 ma k :
  2 ^ 52 ≤ Z.pos ma < 2 ^ 53 → 1 ≤ k ≤ 100 → Z.pos ma ≤ 2 ^ k →
  ∃ p nw,
    int_mul_float 200 (S754_finite false ma (- k)) = Ok p ∧
    int_of_float p = Ok nw ∧
    0 ≤ nw ≤ 200 ∧ (2 ^ (k - 1) ≤ Z.pos ma → 100 ≤ nw) ∧
    (2 ^ k ≤ 200 * Z.pos ma → 1 ≤ nw) ∧
    (200 * Z.pos ma < 2 ^ k → nw = 0).
Proof.
  intros Hma Hk Hle1.
  destruct (int_mul_float_spec 200 ma (- k)) as (f & Hf & Hi);
    [change (2 ^ 53) with 9007199254740992; lia|done|lia|].
  exists f. eexists. split; [exact Hf|]. split; [exact Hi|].
  pose proof (pow2_pos k ltac:(lia)) as Pk.
  pose proof (pow2_pos (k - 1) ltac:(lia)) as Pk1.
  assert (B200 : 0 < 200 < 2 ^ 53) by (change (2 ^ 53) with 9007199254740992; lia).
  assert (B100 : 0 < 100 < 2 ^ 53) by (change (2 ^ 53) with 9007199254740992; lia).
  assert (B1 : 0 < 1 < 2 ^ 53) by (change (2 ^ 53) with 9007199254740992; lia).
  assert (HN : 2 ^ 52 ≤ 200 * Z.pos ma) by lia.
  assert (Hsh : ∀ c, Z.shiftl (c * 2 ^ k) (- k) = c).
  { intros c. rewrite Z.shiftl_div_pow2 by lia.
    replace (- - k) with k by lia. apply Z.div_mul. lia. }
  assert (Hnn : 0 ≤ Z.shiftl (R53 (200 * Z.pos ma)) (- k)).
  { apply shiftl_nonneg. unfold R53.
    assert (52 ≤ Z.log2 (200 * Z.pos ma)).
    { change 52 with (Z.log2 (2 ^ 52)). apply Z.log2_le_mono. lia. }
    pose proof (rne_range (200 * Z.pos ma) (Z.log2 (200 * Z.pos ma) + 1 - 53)
                  ltac:(lia) ltac:(lia)) as Hr.
    pose proof (pow2_pos (Z.log2 (200 * Z.pos ma) + 1 - 53) ltac:(lia)).
    assert (0 ≤ 200 * Z.pos ma / 2 ^ (Z.log2 (200 * Z.pos ma) + 1 - 53))
      by (apply Z.div_pos; lia).
    apply Z.mul_nonneg_nonneg; lia. }
  split; [split|split; [|split]].
  - exact Hnn.
  - assert (E : R53 (200 * 2 ^ k) = 200 * 2 ^ k) by (apply R53_exact; lia).
    assert (Hm : R53 (200 * Z.pos ma) ≤ R53 (200 * 2 ^ k))
      by (apply R53_mono; lia).
    transitivity (Z.shiftl (200 * 2 ^ k) (- k)); [|rewrite Hsh; lia].
    apply shiftl_mono. lia.
  - intros Hhalf.
    assert (E2 : 2 ^ k = 2 * 2 ^ (k - 1)).
    { replace k with ((k - 1) + 1) at 1 by lia.
      rewrite Z.pow_add_r, Z.pow_1_r by lia. lia. }
    assert (E : R53 (100 * 2 ^ k) = 100 * 2 ^ k) by (apply R53_exact; lia).
    assert (Hm : R53 (100 * 2 ^ k) ≤ R53 (200 * Z.pos ma))
      by (apply R53_mono; lia).
    transitivity (Z.shiftl (100 * 2 ^ k) (- k)); [rewrite Hsh; lia|].
    apply shiftl_mono. lia.
  - intros Hge.
    assert (Hk52 : 52 ≤ k).
    { destruct (Z.le_gt_cases 52 k) as [|Hlt]; [done|exfalso].
      assert (2 ^ k ≤ 2 ^ 51) by (apply Z.pow_le_mono_r; lia).
      change (2 ^ 51) with 2251799813685248 in *.
      change (2 ^ 52) with 4503599627370496 in *. lia. }
    assert (P52 : 2 ^ 52 ≤ 2 ^ k) by (apply Z.pow_le_mono_r; lia).
    assert (E : R53 (1 * 2 ^ k) = 1 * 2 ^ k) by (apply R53_exact; lia).
    assert (Hm : R53 (1 * 2 ^ k) ≤ R53 (200 * Z.pos ma))
      by (apply R53_mono; lia).
    transitivity (Z.shiftl (1 * 2 ^ k) (- k)); [rewrite Hsh; lia|].
    apply shiftl_mono. lia.
  - intros Hlt.
    assert (Hk60 : 60 ≤ k).
    { destruct (Z.le_gt_cases 60 k) as [|Hlt59]; [done|exfalso].
      assert (2 ^ k ≤ 2 ^ 59) by (apply Z.pow_le_mono_r; lia).
      change (2 ^ 59) with 576460752303423488 in *.
      change (2 ^ 52) with 4503599627370496 in *. lia. }
    assert (Hr : R53 (200 * Z.pos ma) < 2 ^ k).
    { destruct (Z.eq_dec k 60) as [->|Hne].
      - change (2 ^ 60) with 1152921504606846976 in *.
        assert (E : R53 (9007199254740991 * 2 ^ 7) = 9007199254740991 * 2 ^ 7).
        { apply R53_exact; [change (2 ^ 53) with 9007199254740992; lia|lia|].
          change (2 ^ 52) with 4503599627370496. change (2 ^ 7) with 128. lia. }
        assert (Hm : R53 (200 * Z.pos ma) ≤ R53 (9007199254740991 * 2 ^ 7)).
        { apply R53_mono. split; [done|]. change (2 ^ 7) with 128. lia. }
        rewrite E in Hm. change (2 ^ 7) with 128 in Hm. lia.
      - assert (E : R53 (25 * 2 ^ 56) = 25 * 2 ^ 56).
        { apply R53_exact; [change (2 ^ 53) with 9007199254740992; lia|lia|].
          change (2 ^ 52) with 4503599627370496.
          change (2 ^ 56) with 72057594037927936. lia. }
        assert (Hm : R53 (200 * Z.pos ma) ≤ R53 (25 * 2 ^ 56)).
        { apply R53_mono. split; [done|].
          change (2 ^ 56) with 72057594037927936.
          change (2 ^ 53) with 9007199254740992 in Hma. lia. }
        rewrite E in Hm.
        assert (2 ^ 61 ≤ 2 ^ k) by (apply Z.pow_le_mono_r; lia).
        change (2 ^ 61) with 2305843009213693952 in *.
        change (2 ^ 56) with 72057594037927936 in *. lia. }
    assert (Hlt' : Z.shiftl (R53 (200 * Z.pos ma)) (- k) < 1).
    { rewrite Z.shiftl_div_pow2 by lia. replace (- - k) with k by lia.
      apply Z.div_lt_upper_bound; lia. }
    lia.
Qed.

(** The rounded quotient [ma * 2^-K] of two sizes below [2^31] against
    the bounds 200 and 1/200 of the exact one. *)
Lemma ratio_200 w h ma K :
  0 < w < 2 ^ 31 → 0 < h < 2 ^ 31 → 0 ≤ K → 2 ^ 52 ≤ ma < 2 ^ 53 →
  (ma - 1) * h < w * 2 ^ K → w * 2 ^ K < (ma + 1) * h →
  2 * (w * 2 ^ K) ≤ (2 * ma + 1) * h →
  (w ≤ 200 * h → ma ≤ 200 * 2 ^ K) ∧
  (200 * h < w → 200 * 2 ^ K < ma) ∧
  (h ≤ 200 * w → 2 ^ K ≤ 200 * ma) ∧
  (200 * w < h → 200 * ma < 2 ^ K).
Proof.
  intros Hw Hh HK Hma Hlow Hupp Hhalf.
  pose proof (pow2_pos K HK) as PK.
  change (2 ^ 31) with 2147483648 in *.
  change (2 ^ 52) with 4503599627370496 in *.
  change (2 ^ 53) with 9007199254740992 in *.
  split; [|split; [|split]].
  - intros Hle.
    assert (H1 : w * 2 ^ K ≤ 200 * h * 2 ^ K)
      by (apply Z.mul_le_mono_nonneg_r; lia).
    assert (H2 : (ma - 1) * h < 200 * 2 ^ K * h) by lia.
    apply Z.mul_lt_mono_pos_r in H2; lia.
  - intros Hgt.
    destruct (Z.lt_ge_cases (200 * 2 ^ K) ma) as [|Hle]; [done|exfalso].
    assert (H1 : (200 * h + 1) * 2 ^ K ≤ w * 2 ^ K)
      by (apply Z.mul_le_mono_nonneg_r; lia).
    assert (H2 : (ma + 1) * h ≤ (200 * 2 ^ K + 1) * h)
      by (apply Z.mul_le_mono_nonneg_r; lia).
    assert (H3 : 2 ^ K < h) by lia.
    lia.
  - intros Hle.
    destruct (Z.le_gt_cases (2 ^ K) (200 * ma)) as [|Hgt]; [done|exfalso].
    assert (H1 : (2 * ma + 1) * h ≤ (2 * ma + 1) * (200 * w))
      by (apply Z.mul_le_mono_nonneg_l; lia).
    assert (H2 : 2 * 2 ^ K * w ≤ (2 * ma + 1) * 200 * w) by lia.
    apply Z.mul_le_mono_pos_r in H2; [|lia].
    destruct (Z.lt_trichotomy K 60) as [Hlt|[->|Hgt60]].
    + assert (2 ^ K ≤ 2 ^ 59) by (apply Z.pow_le_mono_r; lia).
      change (2 ^ 59) with 576460752303423488 in *. lia.
    + change (2 ^ 60) with 1152921504606846976 in *. lia.
    + assert (2 ^ 61 ≤ 2 ^ K) by (apply Z.pow_le_mono_r; lia).
      change (2 ^ 61) with 2305843009213693952 in *. lia.
  - intros Hlt.
    destruct (Z.lt_ge_cases (200 * ma) (2 ^ K)) as [|Hge]; [done|exfalso].
    assert (H1 : (ma - 1) * (200 * w + 1) ≤ (ma - 1) * h)
      by (apply Z.mul_le_mono_nonneg_l; lia).
    assert (H2 : w * 2 ^ K ≤ w * (200 * ma))
      by (apply Z.mul_le_mono_nonneg_l; lia).
    nia.
Qed.

End PyFacts.

(** ** Facts about [image_processing.py] *)

Module ImageProcessingFacts.

Import Rounding PyFacts ImageProcessing.

(** The band test on [float(w) / h] is the band test on the exact ratio. *)
Lemma aspect_ratio_band w h :
  0 < w < 2 ^ 53 → 0 < h < 2 ^ 53 →
  ∃ ar, aspect_ratio_of w h = Ok ar ∧
        (ratio_in_band ar = true ↔ h ≤ 2 * w ∧ w ≤ 2 * h).
Proof.
  intros Hw Hh. unfold aspect_ratio_of, float_div_int.
  destruct (float_of_int_mantissa w Hw) as (mw & jw & -> & Hjw & Emw & Hmw).
  destruct (float_of_int_mantissa h Hh) as (mh & jh & -> & Hjh & Emh & Hmh).
  cbn [mbind result_bind]. unfold float_truediv. cbn [is_zero].
  destruct (SFdiv_53 mw (- jw) mh (- jh) Hmw Hmh ltac:(lia))
    as (mq & eq & -> & Hmq & Hcase).
  eexists; split; [reflexivity|].
  unfold ratio_in_band, ASPECT_RATIO_MIN, ASPECT_RATIO_MAX.
  rewrite andb_true_iff, float_le_half, float_le_two by lia.
  pose proof (band_arith w h jw jh ltac:(lia) ltac:(lia) ltac:(lia) ltac:(lia)) as B1.
  pose proof (band_arith h w jh jw ltac:(lia) ltac:(lia) ltac:(lia) ltac:(lia)) as B2.
  rewrite <- Emw, <- Emh in B1, B2.
  specialize (B1 Hmw Hmh). specialize (B2 Hmh Hmw).
  rewrite B1, B2. clear B1 B2.
  destruct Hcase as [(Hge & -> & Hiff)|(Hlt & -> & Hgt)].
  - assert (Hiff' : Z.pos mq = 2 ^ 52 ↔ Z.pos mw = Z.pos mh).
    { rewrite Hiff. split; [intros ->; reflexivity|intros E; apply Pos2Z.inj; exact E]. }
    rewrite Hiff'. lia.
  - lia.
Qed.


(** The band test on an area [n / 2], the area of a contour with integer
    vertices, is the strict test on the exact number. *)
Lemma area_in_band_half n :
  0 ≤ n < 2 ^ 53 →
  area_in_band (float_half n) = true ↔
  2 * MIN_CONTOUR_AREA < n < 2 * MAX_CONTOUR_AREA.
Proof.
  intros Hn. destruct (Z.eq_dec n 0) as [->|Hnz].
  { split; [discriminate|unfold MIN_CONTOUR_AREA; lia]. }
  unfold float_half.
  destruct (binary_normalize_mantissa n (-1)) as (m & j & -> & Hj & Hm & Hr);
    [lia|lia|].
  unfold area_in_band, int_lt_float, float_lt_int.
  unfold MIN_CONTOUR_AREA, MAX_CONTOUR_AREA.
  change (float_const 1000) with (S754_finite false 8796093022208000 (-43)).
  change (float_const 50000) with (S754_finite false 6871947673600000 (-37)).
  rewrite andb_true_iff.
  fold (float_lt (S754_finite false 8796093022208000 (-43))
          (S754_finite false m (-1 - j))).
  fold (float_lt (S754_finite false m (-1 - j))
          (S754_finite false 6871947673600000 (-37))).
  rewrite !float_lt_finite.
  assert (Hp : 2 ^ j * 2 ^ (52 - j) = 2 ^ 52)
    by (rewrite <- Z.pow_add_r by lia; f_equal; lia).
  assert (Hv : Z.pos m * 2 ^ (-1 - j - -53) = n * 2 ^ 52).
  { replace (-1 - j - -53) with (52 - j) by lia.
    rewrite Hm, <- Z.mul_assoc, Hp. reflexivity. }
  rewrite (normal_lt_value 8796093022208000 (-43) (Z.pos m) (-1 - j) (-53)), Hv;
    [|change (2 ^ 52) with 4503599627370496;
      change (2 ^ 53) with 9007199254740992; lia|done|lia|lia].
  rewrite (normal_lt_value (Z.pos m) (-1 - j) 6871947673600000 (-37) (-53)), Hv;
    [|done|change (2 ^ 52) with 4503599627370496;
      change (2 ^ 53) with 9007199254740992; lia|lia|lia].
  change (-43 - -53) with 10. change (-37 - -53) with 16.
  change (2 ^ 10) with 1024. change (2 ^ 16) with 65536.
  change (2 ^ 52) with 4503599627370496. lia.
Qed.

Lemma area_boundary_rejected area :
  area = float_const MIN_CONTOUR_AREA ∨ area = float_const MAX_CONTOUR_AREA →
  area_in_band area = false.
Proof. intros [-> | ->]; vm_compute; reflexivity. Qed.

(** *** Strings and point sets *)

Lemma string_app_cons c a b : String c a +:+ b = String c (a +:+ b).
Proof. reflexivity. Qed.

Lemma string_app_nil b : "" +:+ b = b.
Proof. reflexivity. Qed.

Lemma string_length_app a b :
  String.length (a +:+ b) = (String.length a + String.length b)%nat.
Proof.
  induction a as [|c a IH]; [reflexivity|].
  rewrite string_app_cons. cbn [String.length]. rewrite IH. reflexivity.
Qed.

Lemma string_app_inj_r a b s : a +:+ s = b +:+ s → a = b.
Proof.
  revert b. induction a as [|c a IH]; intros [|d b] H.
  - reflexivity.
  - apply (f_equal String.length) in H.
    rewrite string_app_nil, string_app_cons in H. cbn [String.length] in H.
    rewrite string_length_app in H. lia.
  - apply (f_equal String.length) in H.
    rewrite string_app_nil, string_app_cons in H. cbn [String.length] in H.
    rewrite string_length_app in H. lia.
  - rewrite !string_app_cons in H. injection H as -> H. f_equal. apply IH, H.
Qed.

Lemma string_app4_inj a b c d t1 t2 s :
  a +:+ b +:+ c +:+ d +:+ t1 +:+ s = a +:+ b +:+ c +:+ d +:+ t2 +:+ s →
  t1 = t2.
Proof.
  intros H. do 4 apply String.app_inj in H.
  apply string_app_inj_r in H. exact H.
Qed.

Lemma foldr_min_le x0 xs : foldr Z.min x0 xs ≤ x0.
Proof. induction xs as [|x xs IH]; cbn [foldr]; lia. Qed.

Lemma foldr_max_ge x0 xs : x0 ≤ foldr Z.max x0 xs.
Proof. induction xs as [|x xs IH]; cbn [foldr]; lia. Qed.

Lemma foldr_min_bounds lo hi x0 xs :
  lo ≤ x0 ≤ hi → Forall (λ x, lo ≤ x ≤ hi) xs → lo ≤ foldr Z.min x0 xs ≤ hi.
Proof. intros H0 Hall. induction Hall; cbn [foldr]; lia. Qed.

Lemma foldr_max_bounds lo hi x0 xs :
  lo ≤ x0 ≤ hi → Forall (λ x, lo ≤ x ≤ hi) xs → lo ≤ foldr Z.max x0 xs ≤ hi.
Proof. intros H0 Hall. induction Hall; cbn [foldr]; lia. Qed.

(** OpenCV's bounding rectangle of points of the image lies in the image. *)
Lemma cv_boundingRect_in_image W H pts :
  pts ≠ [] →
  Forall (λ p : point, 0 ≤ p.1 < W ∧ 0 ≤ p.2 < H) pts →
  bbox_in_image W H (cv_boundingRect pts).
Proof.
  intros Hne Hall. destruct pts as [|[x0 y0] rest]; [done|].
  apply Forall_cons in Hall as [[Hx0 Hy0] Hrest]. cbn [fst snd] in *.
  unfold cv_boundingRect, bbox_in_image.
  assert (Hxs : Forall (λ x, 0 ≤ x ≤ W - 1) (fst <$> rest)).
  { apply Forall_fmap. eapply Forall_impl; [exact Hrest|].
    intros [a b] [? ?]. cbn in *. lia. }
  assert (Hys : Forall (λ y, 0 ≤ y ≤ H - 1) (snd <$> rest)).
  { apply Forall_fmap. eapply Forall_impl; [exact Hrest|].
    intros [a b] [? ?]. cbn in *. lia. }
  pose proof (foldr_min_bounds 0 (W - 1) x0 _ ltac:(lia) Hxs).
  pose proof (foldr_max_bounds 0 (W - 1) x0 _ ltac:(lia) Hxs).
  pose proof (foldr_min_bounds 0 (H - 1) y0 _ ltac:(lia) Hys).
  pose proof (foldr_max_bounds 0 (H - 1) y0 _ ltac:(lia) Hys).
  pose proof (foldr_min_le x0 (fst <$> rest)).
  pose proof (foldr_max_ge x0 (fst <$> rest)).
  pose proof (foldr_min_le y0 (snd <$> rest)).
  pose proof (foldr_max_ge y0 (snd <$> rest)).
  lia.
Qed.


(** *** The filter and the export loop, for any OpenCV *)

Section Detect.

Variable BASE_DIR : string.
Variable path_stem : string → string.
Variable mkdir_ok : bool.
Variable imread : string → option image.
Variable outer_contours : image → list contour.
Variable contourArea : contour → float.
Variable arcLength : contour → bool → float.
Variable approxPolyDP : contour → float → bool → contour.
Variable boundingRect : contour → rect.
Variable imwrite : string → rect → write_outcome.
Variable uuid4_hex : nat → string.

#[local] Abbreviation filter_c :=
  (filter_contour contourArea arcLength approxPolyDP boundingRect).
#[local] Abbreviation approx c :=
  (approxPolyDP c (float_mul lit_0_02 (arcLength c true)) true).
#[local] Abbreviation process :=
  (process_contours BASE_DIR contourArea arcLength approxPolyDP boundingRect
     imwrite uuid4_hex).
#[local] Abbreviation detect :=
  (detect_and_segment_stamps BASE_DIR path_stem mkdir_ok imread
     outer_contours contourArea arcLength approxPolyDP boundingRect imwrite
     uuid4_hex).
#[local] Abbreviation accepted :=
  (accepted_rects contourArea arcLength approxPolyDP boundingRect).
#[local] Abbreviation save_path := (stamp_save_path BASE_DIR).
#[local] Abbreviation exported_l := (exported BASE_DIR imwrite uuid4_hex).
#[local] Abbreviation warnings_l := (warnings BASE_DIR imwrite uuid4_hex).
#[local] Abbreviation written_l := (written BASE_DIR imwrite uuid4_hex).
#[local] Abbreviation token8 i := (String.substring 0 8 (uuid4_hex i)).
#[local] Abbreviation path_of_token stem t :=
  (DETECTED_STAMPS_DIR BASE_DIR +:+ "/" +:+ stem +:+ "_stamp_" +:+ t +:+
   ".png").

Lemma filter_contour_accepts c r :
  filter_c c = Ok (Some r) ↔
    area_in_band (contourArea c) = true ∧
    length (approx c) = 4%nat ∧
    (∃ ar, aspect_ratio_of (boundingRect (approx c)).1.2
             (boundingRect (approx c)).2 = Ok ar ∧
           ratio_in_band ar = true) ∧
    r = boundingRect (approx c).
Proof.
  unfold filter_contour.
  destruct (area_in_band (contourArea c));
    [|split; [discriminate|intros [? _]; discriminate]].
  destruct (Nat.eqb_spec (length (approx c)) 4) as [Hlen|Hlen];
    [|split; [discriminate|intros (_ & ? & _); done]].
  destruct (boundingRect (approx c)) as [[[x y] w] h]. cbn [fst snd].
  destruct (aspect_ratio_of w h) as [ar|e]; cbn [mbind result_bind].
  - destruct (ratio_in_band ar) eqn:Hband; cbn [mret result_ret].
    + split.
      * intros [= <-]. repeat split; try done. exists ar. done.
      * intros (_ & _ & _ & ->). done.
    + split; [discriminate|].
      intros (_ & _ & (ar' & [= <-] & Hb) & _). congruence.
  - split; [discriminate|]. intros (_ & _ & (ar' & Hr & _) & _). discriminate.
Qed.

(** The filter stops at the first test that fails. *)
Lemma filter_contour_area_rejects c :
  area_in_band (contourArea c) = false → filter_c c = Ok None.
Proof. intros H. unfold filter_contour. rewrite H. reflexivity. Qed.

Lemma filter_contour_vertices_reject c :
  area_in_band (contourArea c) = true → length (approx c) ≠ 4%nat →
  filter_c c = Ok None.
Proof.
  intros H Hlen. unfold filter_contour. rewrite H.
  destruct (Nat.eqb_spec (length (approx c)) 4); [done|reflexivity].
Qed.

(** With a rectangle whose sides are positive, no step raises. *)
Lemma filter_contour_returns c x y w h :
  boundingRect (approx c) = (x, y, w, h) →
  0 < w < 2 ^ 53 → 0 < h < 2 ^ 53 →
  ∃ o, filter_c c = Ok o.
Proof.
  intros Hrect Hw Hh. unfold filter_contour.
  destruct (area_in_band (contourArea c)); [|eexists; reflexivity].
  destruct (length (approx c) =? 4)%nat; [|eexists; reflexivity].
  rewrite Hrect.
  destruct (aspect_ratio_band w h Hw Hh) as (ar & -> & _).
  cbn [mbind result_bind].
  destruct (ratio_in_band ar); eexists; reflexivity.
Qed.

Lemma process_contours_spec stem cs rs acc w :
  accepted cs = Ok rs →
  process stem cs acc w =
    (Ok (acc ++ exported_l stem (uuid_count w) rs),
     {| uuid_count := uuid_count w + length rs;
        stdout := stdout w ++ warnings_l stem (uuid_count w) rs |}).
Proof.
  revert rs acc w. induction cs as [|c cs IH]; intros rs acc w Hacc.
  - injection Hacc as <-. cbn. rewrite !app_nil_r, Nat.add_0_r.
    destruct w; reflexivity.
  - cbn [accepted_rects] in Hacc. cbn [process_contours].
    destruct (filter_c c) as [[r|]|e]; cbn [mbind result_bind] in Hacc;
      [| |discriminate].
    + destruct (accepted cs) as [rs'|e];
        cbn [mbind result_bind mret result_ret] in Hacc; [|discriminate].
      injection Hacc as <-.
      unfold export_candidate. cbn [exported warnings length].
      destruct (imwrite (save_path stem (uuid4_hex (uuid_count w))) r);
        rewrite (IH rs') by reflexivity; cbn [uuid_count stdout];
        rewrite <- ?app_assoc; cbn [app].
      all: replace (uuid_count w + S (length rs'))%nat
             with (S (uuid_count w) + length rs')%nat by lia; reflexivity.
    + destruct (accepted cs) as [rs'|e];
        cbn [mbind result_bind mret result_ret] in Hacc; [|discriminate].
      injection Hacc as <-. apply IH. reflexivity.
Qed.

Lemma process_contours_Forall (P : rect → Prop) stem cs acc w l w' :
  (∀ c r, c ∈ cs → filter_c c = Ok (Some r) → P r) →
  Forall (λ s, P (bbox s)) acc →
  process stem cs acc w = (Ok l, w') →
  Forall (λ s, P (bbox s)) l.
Proof.
  revert acc w. induction cs as [|c cs IH]; intros acc w HP Hacc Hrun.
  - cbn in Hrun. by injection Hrun as <- <-.
  - cbn [process_contours] in Hrun.
    destruct (filter_c c) as [[r|]|e] eqn:Hf; [| |discriminate].
    + unfold export_candidate in Hrun.
      destruct (imwrite _ r); (eapply IH; [| |exact Hrun]);
        try (intros c' r' Hin; apply HP; apply elem_of_cons; auto);
        try done.
      all: apply Forall_app; split; [done|]; constructor; [|constructor];
        cbn; apply (HP c); [apply elem_of_cons; auto|done].
    + eapply IH; [| |exact Hrun]; [|done].
      intros c' r' Hin. apply HP. apply elem_of_cons; auto.
Qed.

Lemma process_accepted stem cs acc w l w' :
  process stem cs acc w = (Ok l, w') → ∃ rs, accepted cs = Ok rs.
Proof.
  revert acc w. induction cs as [|c cs IH]; intros acc w Hrun.
  - exists []. reflexivity.
  - cbn [process_contours] in Hrun. cbn [accepted_rects].
    destruct (filter_c c) as [[r|]|e]; [| |discriminate];
      cbn [mbind result_bind].
    + destruct (export_candidate _ _ _ _ _ _ _) as [acc' w''].
      destruct (IH _ _ Hrun) as [rs ->]. eexists; reflexivity.
    + destruct (IH _ _ Hrun) as [rs ->]. eexists; reflexivity.
Qed.

Lemma exported_paths_sublist stem n rs :
  path <$> exported_l stem n rs
    `sublist_of` (λ i, save_path stem (uuid4_hex i)) <$> seq n (length rs).
Proof.
  revert n. induction rs as [|r rs IH]; intros n; [constructor|].
  cbn [exported length seq fmap list_fmap].
  destruct (imwrite _ r); cbn [fmap list_fmap path].
  - apply sublist_skip, IH.
  - apply sublist_skip, IH.
  - apply sublist_cons, IH.
Qed.

Lemma exported_length stem n rs :
  (∀ p r e, imwrite p r ≠ WriteRaised e) →
  length (exported_l stem n rs) = length rs.
Proof.
  intros Hno. revert n. induction rs as [|r rs IH]; intros n; [reflexivity|].
  cbn [exported]. pose proof (Hno (save_path stem (uuid4_hex n)) r) as Hr.
  destruct (imwrite _ r) as [| |e]; [| |destruct (Hr e); reflexivity];
    cbn [length]; rewrite IH; reflexivity.
Qed.

(** When every failing write raises, the records returned are the crops
    on disk, and each failure has its warning. *)
Lemma exported_written stem n rs :
  (∀ p r, imwrite p r ≠ NotWritten) →
  exported_l stem n rs = written_l stem n rs ∧
  (length (warnings_l stem n rs) + length (written_l stem n rs))%nat
    = length rs.
Proof.
  intros Hno. revert n. induction rs as [|r rs IH]; intros n; [done|].
  cbn [exported written warnings].
  pose proof (Hno (save_path stem (uuid4_hex n)) r) as Hr.
  destruct (IH (S n)) as [-> Hlen].
  destruct (imwrite _ r); [|done|]; cbn [length]; split; [done|lia|done|lia].
Qed.

Lemma path_of_token_inj stem t1 t2 :
  path_of_token stem t1 = path_of_token stem t2 → t1 = t2.
Proof. apply string_app4_inj. Qed.

Lemma detect_runs uploaded_image_path w l w' :
  detect uploaded_image_path w = (Ok l, w') →
  ∃ img rs,
    imread uploaded_image_path = Some img ∧
    accepted (outer_contours img) = Ok rs ∧
    l = exported_l (path_stem uploaded_image_path) (uuid_count w) rs ∧
    uuid_count w' = (uuid_count w + length rs)%nat.
Proof.
  unfold detect_and_segment_stamps. intros Hrun.
  destruct mkdir_ok; cbn [negb] in Hrun; [|discriminate].
  destruct (imread uploaded_image_path) as [img|]; [|discriminate].
  destruct (process_accepted _ _ _ _ _ _ Hrun) as [rs Hrs].
  rewrite (process_contours_spec _ _ rs) in Hrun by done.
  injection Hrun as <- <-. exists img, rs. done.
Qed.

(** C3: a contour is accepted exactly when its area is strictly inside
    the band, its simplified polygon has four vertices and the sides of
    the bounding rectangle of that polygon satisfy [1/2 <= w/h <= 2]; an
    accepted contour carries that rectangle unchanged, and an area equal
    to either bound is rejected.  The rectangle is any with positive
    sides below [2^53], where the rounded quotient [float(w) / h] decides
    the band as the exact ratio does; for an area [n / 2], as that of a
    contour with integer vertices, the band test is the strict test
    [2 * 1000 < n < 2 * 50000]. *)
Theorem contour_accepted_iff c x y w h :
  boundingRect (approx c) = (x, y, w, h) →
  0 < w < 2 ^ 53 → 0 < h < 2 ^ 53 →
  (∀ r, filter_c c = Ok (Some r) ↔
        area_in_band (contourArea c) = true ∧
        length (approx c) = 4%nat ∧
        (h ≤ 2 * w ∧ w ≤ 2 * h) ∧
        r = (x, y, w, h)) ∧
  (filter_c c = Ok None ↔
        area_in_band (contourArea c) = false ∨
        length (approx c) ≠ 4%nat ∨
        ¬ (h ≤ 2 * w ∧ w ≤ 2 * h)) ∧
  (contourArea c = float_const MIN_CONTOUR_AREA ∨
   contourArea c = float_const MAX_CONTOUR_AREA → filter_c c = Ok None) ∧
  (∀ n, 0 ≤ n < 2 ^ 53 → contourArea c = float_half n →
        (area_in_band (contourArea c) = true ↔
         2 * MIN_CONTOUR_AREA < n < 2 * MAX_CONTOUR_AREA)).
Proof.
  intros Hrect Hw Hh.
  destruct (aspect_ratio_band w h Hw Hh) as (ar & Har & Hband).
  assert (Hyes : ∀ r, filter_c c = Ok (Some r) ↔
            area_in_band (contourArea c) = true ∧
            length (approx c) = 4%nat ∧
            (h ≤ 2 * w ∧ w ≤ 2 * h) ∧ r = (x, y, w, h)).
  { intros r. rewrite filter_contour_accepts, Hrect. cbn [fst snd].
    rewrite Har. split.
    - intros (Ha & Hl & (ar' & [= <-] & Hb) & ->).
      repeat split; try done; apply Hband; done.
    - intros (Ha & Hl & Hb & ->). repeat split; try done.
      exists ar. split; [done|]. apply Hband. done. }
  split; [exact Hyes|]. split.
  - destruct (filter_contour_returns c x y w h Hrect Hw Hh) as [[r|] Ho].
    + rewrite Ho. split; [discriminate|].
      apply Hyes in Ho as (Ha & Hl & Hb & _).
      intros [Hna|[Hnl|Hnb]]; [congruence|done|done].
    + split; [intros _|done].
      destruct (area_in_band (contourArea c)) eqn:Ha; [|left; done].
      destruct (decide (length (approx c) = 4%nat)) as [Hl|Hl]; [|right; left; done].
      right. right. intros Hb.
      assert (Hsome : filter_c c = Ok (Some (x, y, w, h))) by (apply Hyes; done).
      congruence.
  - split.
    + intros Harea.
      apply filter_contour_area_rejects, area_boundary_rejected, Harea.
    + intros n Hn ->. apply area_in_band_half, Hn.
Qed.

(** C7: a file name is the base name of the source image, ["_stamp_"],
    the first eight digits of a fresh [uuid4] and [".png"]; when these
    eight-digit tokens are pairwise distinct, the paths returned by two
    successive runs on one source image are pairwise distinct, and when
    no write raises each run returns one record for each accepted
    candidate. *)
Theorem exported_paths_distinct uploaded_image_path w0 l1 w1 l2 w2 :
  detect uploaded_image_path w0 = (Ok l1, w1) →
  detect uploaded_image_path w1 = (Ok l2, w2) →
  NoDup ((λ i, token8 i) <$>
           seq (uuid_count w0) (uuid_count w2 - uuid_count w0)) →
  NoDup (path <$> (l1 ++ l2)) ∧
  (∀ s, s ∈ l1 ++ l2 →
        ∃ i, (uuid_count w0 ≤ i < uuid_count w2)%nat ∧
             path s = DETECTED_STAMPS_DIR BASE_DIR +:+ "/" +:+
                      path_stem uploaded_image_path +:+ "_stamp_" +:+
                      token8 i +:+ ".png") ∧
  ((∀ p r e, imwrite p r ≠ WriteRaised e) →
   ∃ img rs, imread uploaded_image_path = Some img ∧
             accepted (outer_contours img) = Ok rs ∧
             length l1 = length rs ∧ length l2 = length rs).
Proof.
  intros Hrun1 Hrun2 Hfresh.
  destruct (detect_runs _ _ _ _ Hrun1) as (img & rs & Himg & Hrs & -> & Hn1).
  destruct (detect_runs _ _ _ _ Hrun2) as (img' & rs' & Himg' & Hrs' & -> & Hn2).
  assert (img' = img) as -> by congruence.
  assert (rs' = rs) as -> by congruence.
  set (stem := path_stem uploaded_image_path) in *.
  set (n0 := uuid_count w0) in *.
  assert (Hcount : (uuid_count w2 - n0 = length rs + length rs)%nat) by lia.
  rewrite Hcount in Hfresh. rewrite Hn1 in *.
  assert (Hsub : path <$> (exported_l stem n0 rs ++
                           exported_l stem (n0 + length rs) rs)
            `sublist_of` (λ i, save_path stem (uuid4_hex i)) <$>
                           seq n0 (length rs + length rs)).
  { rewrite fmap_app, seq_app, fmap_app.
    apply sublist_app; apply exported_paths_sublist. }
  split; [|split].
  - eapply sublist_NoDup; [|exact Hsub].
    change ((λ i, save_path stem (uuid4_hex i)) <$>
               seq n0 (length rs + length rs))
      with ((λ i, path_of_token stem (token8 i)) <$>
              seq n0 (length rs + length rs)).
    rewrite (list_fmap_compose (λ i, token8 i) (λ t, path_of_token stem t)).
    apply NoDup_fmap_2_strong; [|exact Hfresh].
    intros t1 t2 _ _ Heq. exact (path_of_token_inj _ _ _ Heq).
  - intros s Hs.
    assert (Hp : path s ∈ path <$> (exported_l stem n0 rs ++
                                    exported_l stem (n0 + length rs) rs))
      by (apply list_elem_of_fmap; eauto).
    apply (elem_of_sublist _ _ _ Hp) in Hsub as Hp'. clear Hp. rename Hp' into Hp.
    apply list_elem_of_fmap in Hp as (i & -> & Hi).
    apply elem_of_seq in Hi. exists i. split; [lia|reflexivity].
  - intros Hno. exists img, rs. rewrite !exported_length by done. done.
Qed.

(** *** The whole run *)

#[local] Abbreviation passing cs :=
  (omap (λ c, match filter_c c with Ok o => o | Raise _ => None end) cs).

(** [boundingRect] returns positive sides for the polygons that reach
    the aspect-ratio step. *)
#[local] Abbreviation sides_positive cs :=
  (∀ c x y w h, c ∈ (cs : list contour) →
     area_in_band (contourArea c) = true → length (approx c) = 4%nat →
     boundingRect (approx c) = (x, y, w, h) →
     0 < w < 2 ^ 53 ∧ 0 < h < 2 ^ 53).

Lemma filter_contour_total cs c :
  sides_positive cs → c ∈ cs → ∃ o, filter_c c = Ok o.
Proof.
  intros Hpos Hin.
  destruct (area_in_band (contourArea c)) eqn:Ha;
    [|exists None; by apply filter_contour_area_rejects].
  destruct (decide (length (approx c) = 4%nat)) as [Hl|Hl];
    [|exists None; by apply filter_contour_vertices_reject].
  destruct (boundingRect (approx c)) as [[[x y] w] h] eqn:Hrect.
  destruct (Hpos c x y w h Hin Ha Hl Hrect) as [Hw Hh].
  by apply (filter_contour_returns c x y w h).
Qed.

Lemma accepted_rects_passing cs :
  sides_positive cs → accepted cs = Ok (passing cs).
Proof.
  induction cs as [|c cs IH]; intros Hpos; [reflexivity|].
  cbn [accepted_rects omap list_omap].
  destruct (filter_contour_total (c :: cs) c Hpos) as [o ->]; [by left|].
  cbn [mbind result_bind]. rewrite IH.
  2:{ intros c' x y w h Hin. apply Hpos. by right. }
  destruct o; reflexivity.
Qed.

Lemma exported_bboxes_sublist stem n rs :
  bbox <$> exported_l stem n rs `sublist_of` rs.
Proof.
  revert n. induction rs as [|r rs IH]; intros n; [constructor|].
  cbn [exported]. destruct (imwrite _ r); cbn [fmap list_fmap bbox].
  - apply sublist_skip, IH.
  - apply sublist_skip, IH.
  - apply sublist_cons, IH.
Qed.

Lemma exported_bboxes stem n rs :
  (∀ p r e, imwrite p r ≠ WriteRaised e) →
  bbox <$> exported_l stem n rs = rs.
Proof.
  intros Hno. revert n. induction rs as [|r rs IH]; intros n; [reflexivity|].
  cbn [exported]. pose proof (Hno (save_path stem (uuid4_hex n)) r) as Hr.
  destruct (imwrite _ r) as [| |e]; [| |destruct (Hr e); reflexivity];
    rewrite fmap_cons, IH; reflexivity.
Qed.

Lemma exported_warnings_length stem n rs :
  (length (exported_l stem n rs) + length (warnings_l stem n rs))%nat
  = length rs.
Proof.
  revert n. induction rs as [|r rs IH]; intros n; [reflexivity|].
  cbn [exported warnings]. specialize (IH (S n)).
  destruct (imwrite _ r); cbn [length]; lia.
Qed.

(** X1: the two ways the run fails.  A directory that cannot be made
    raises [ValueError], before the image is looked at; an image that
    cannot be read raises [IOError]; nothing is printed and no token is
    drawn in either case.  With positive bounding rectangles nothing
    else is raised. *)
Theorem detect_raises_only_for_directory_or_image uploaded_image_path w :
  (∀ img, imread uploaded_image_path = Some img →
          sides_positive (outer_contours img)) →
  match detect uploaded_image_path w with
  | (Raise e, w') =>
      w' = w ∧
      ((e = ValueError ∧ mkdir_ok = false) ∨
       (e = IOError ∧ mkdir_ok = true ∧ imread uploaded_image_path = None))
  | (Ok l, w') =>
      mkdir_ok = true ∧ is_Some (imread uploaded_image_path)
  end.
Proof.
  intros Hpos. unfold detect_and_segment_stamps.
  destruct mkdir_ok; cbn [negb]; [|split; [reflexivity|left; done]].
  destruct (imread uploaded_image_path) as [img|] eqn:Himg;
    [|split; [reflexivity|right; done]].
  rewrite (process_contours_spec _ _ (passing (outer_contours img)))
    by (apply accepted_rects_passing, Hpos; reflexivity).
  split; [reflexivity|eauto].
Qed.

(** X2: every accepted contour draws one token and leaves either a
    record or a warning.  The run draws as many tokens as contours pass
    the filter; the records and the warnings printed add up to that
    number; what was printed before stays, and the boxes of the records
    are among the accepted ones, in their order. *)
Theorem detect_accounts_for_every_candidate uploaded_image_path w l w' :
  detect uploaded_image_path w = (Ok l, w') →
  ∃ img rs printed,
    imread uploaded_image_path = Some img ∧
    accepted (outer_contours img) = Ok rs ∧
    uuid_count w' = (uuid_count w + length rs)%nat ∧
    stdout w' = stdout w ++ printed ∧
    (length l + length printed)%nat = length rs ∧
    bbox <$> l `sublist_of` rs.
Proof.
  unfold detect_and_segment_stamps. intros Hrun.
  destruct mkdir_ok; cbn [negb] in Hrun; [|discriminate].
  destruct (imread uploaded_image_path) as [img|]; [|discriminate].
  destruct (process_accepted _ _ _ _ _ _ Hrun) as [rs Hrs].
  rewrite (process_contours_spec _ _ rs) in Hrun by done.
  injection Hrun as <- <-. cbn [app uuid_count stdout].
  exists img, rs, (warnings_l (path_stem uploaded_image_path) (uuid_count w) rs).
  split; [reflexivity|]. split; [done|]. split; [reflexivity|].
  split; [reflexivity|]. split; [apply exported_warnings_length|].
  apply exported_bboxes_sublist.
Qed.

(** X3: what is returned is what passes the filter.  When the image
    can be read, the boxes of the records are boxes of contours that
    pass the filter, in the order of the contours, all of them when no
    write raises; each has [h <= 2w] and [w <= 2h]. *)
Theorem detected_boxes_pass_the_filter uploaded_image_path w img :
  mkdir_ok = true →
  imread uploaded_image_path = Some img →
  sides_positive (outer_contours img) →
  ∃ l w',
    detect uploaded_image_path w = (Ok l, w') ∧
    bbox <$> l `sublist_of` passing (outer_contours img) ∧
    ((∀ p r e, imwrite p r ≠ WriteRaised e) →
     bbox <$> l = passing (outer_contours img)) ∧
    Forall (λ s, (bbox s).2 ≤ 2 * (bbox s).1.2 ∧
                 (bbox s).1.2 ≤ 2 * (bbox s).2) l.
Proof.
  intros Hdir Himg Hpos. unfold detect_and_segment_stamps.
  rewrite Hdir, Himg. cbn [negb].
  pose proof (process_contours_spec (path_stem uploaded_image_path)
                (outer_contours img) (passing (outer_contours img)) [] w
                (accepted_rects_passing _ Hpos)) as Hrun.
  rewrite Hrun. cbn [app]. eexists _, _. split; [reflexivity|].
  split; [apply exported_bboxes_sublist|].
  split; [intros Hno; by apply exported_bboxes|].
  eapply (process_contours_Forall
            (λ r, r.2 ≤ 2 * r.1.2 ∧ r.1.2 ≤ 2 * r.2)
            (path_stem uploaded_image_path) (outer_contours img) [] w);
    [|constructor|exact Hrun].
  intros c r Hin Hf. apply filter_contour_accepts in Hf
    as (Ha & Hl & (ar & Har & Hband) & ->).
  destruct (boundingRect (approx c)) as [[[x y] bw] bh] eqn:Hrect.
  cbn [fst snd] in *.
  destruct (Hpos c x y bw bh Hin Ha Hl Hrect) as [Hw Hh].
  destruct (aspect_ratio_band bw bh Hw Hh) as (ar' & Har' & Hiff).
  rewrite Har in Har'. injection Har' as <-. by apply Hiff.
Qed.

End Detect.

(** *** With OpenCV's bounding rectangle *)

Section OpenCV.

Variable BASE_DIR : string.
Variable path_stem : string → string.
Variable mkdir_ok : bool.
Variable imread : string → option image.
Variable outer_contours : image → list contour.
Variable contourArea : contour → float.
Variable arcLength : contour → bool → float.
Variable approxPolyDP : contour → float → bool → contour.
Variable imwrite : string → rect → write_outcome.
Variable uuid4_hex : nat → string.

#[local] Abbreviation approx c :=
  (approxPolyDP c (float_mul lit_0_02 (arcLength c true)) true).
#[local] Abbreviation filter_with boundingRect :=
  (filter_contour contourArea arcLength approxPolyDP boundingRect).
#[local] Abbreviation detect_cv :=
  (detect_and_segment_stamps BASE_DIR path_stem mkdir_ok imread
     outer_contours contourArea arcLength approxPolyDP cv_boundingRect
     imwrite uuid4_hex).

(** C5: every record returned by [detect_and_segment_stamps] has a
    bounding box inside the source image, with positive width and
    height: the contours are made of pixels of the image, the simplified
    polygon keeps vertices among the points of its contour, and the
    bounding rectangle is the one OpenCV computes. *)
Theorem detected_bboxes_in_image uploaded_image_path w img stamps w' :
  imread uploaded_image_path = Some img →
  Forall (λ c, Forall (λ pt : point, 0 ≤ pt.1 < img_width img ∧
                                     0 ≤ pt.2 < img_height img) c)
    (outer_contours img) →
  Forall (λ c, ∀ epsilon closed, approxPolyDP c epsilon closed ⊆ c)
    (outer_contours img) →
  detect_cv uploaded_image_path w = (Ok stamps, w') →
  Forall (λ s, bbox_in_image (img_width img) (img_height img) (bbox s))
    stamps.
Proof.
  intros Himg Hpts Hsub Hrun.
  unfold detect_and_segment_stamps in Hrun.
  destruct mkdir_ok; cbn [negb] in Hrun; [|discriminate].
  rewrite Himg in Hrun.
  eapply (process_contours_Forall _ _ _ _ _ _ _
            (bbox_in_image (img_width img) (img_height img)));
    [|constructor|exact Hrun].
  intros c r Hc Hf.
  apply filter_contour_accepts in Hf as (_ & Hlen & _ & ->).
  rewrite Forall_forall in Hpts, Hsub.
  apply cv_boundingRect_in_image.
  - intros Hnil. rewrite Hnil in Hlen. discriminate.
  - apply Forall_forall. intros pt Hpt.
    pose proof (Hpts c Hc) as Hin. rewrite Forall_forall in Hin.
    apply Hin. eapply Hsub; [exact Hc|exact Hpt].
Qed.


End OpenCV.

(** *** On the sheet *)

Lemma contour_accepted_iff_witness :
  cv_boundingRect (Sheet.approxPolyDP Sheet.rectangle_A
    (float_mul lit_0_02 (Sheet.arcLength Sheet.rectangle_A true)) true)
    = (50, 50, 101, 151) ∧
  0 < 101 < 2 ^ 53 ∧ 0 < 151 < 2 ^ 53 ∧
  (∀ r, Examples.filter_sheet cv_boundingRect Sheet.rectangle_A = Ok (Some r) ↔
        area_in_band (Sheet.contourArea Sheet.rectangle_A) = true ∧
        length Sheet.rectangle_A = 4%nat ∧
        (151 ≤ 2 * 101 ∧ 101 ≤ 2 * 151) ∧
        r = (50, 50, 101, 151)).
Proof.
  assert (H1 : cv_boundingRect (Sheet.approxPolyDP Sheet.rectangle_A
    (float_mul lit_0_02 (Sheet.arcLength Sheet.rectangle_A true)) true)
    = (50, 50, 101, 151)) by reflexivity.
  assert (H2 : 0 < 101 < 2 ^ 53) by (change (2 ^ 53) with 9007199254740992; lia).
  assert (H3 : 0 < 151 < 2 ^ 53) by (change (2 ^ 53) with 9007199254740992; lia).
  split; [exact H1|]. split; [exact H2|]. split; [exact H3|].
  exact (proj1 (contour_accepted_iff Sheet.contourArea Sheet.arcLength
                  Sheet.approxPolyDP cv_boundingRect Sheet.rectangle_A
                  50 50 101 151 H1 H2 H3)).
Defined.

(** On the sheet, a write that raises costs its own record only: its
    warning is printed and the crop after it is exported. *)
Lemma raised_write_is_skipped :
  Examples.detect_sheet cv_boundingRect Examples.imwrite_first_raises
    Sheet.sheet_path Sheet.world0
  = (Ok [Examples.sheet_stamp_A],
     {| uuid_count := 2;
        stdout := [save_warning (path Examples.sheet_stamp_B)
                     "could not find a writer for the specified extension"] |}).
Proof. vm_compute; reflexivity. Qed.

(** C4: on the sheet, with writes that fail by returning [False], the
    run returns a record for each of the two crops and prints no
    warning, although no crop is on disk. *)
Theorem unwritten_crop_is_returned :
  Examples.detect_sheet cv_boundingRect Examples.imwrite_unwritable
    Sheet.sheet_path Sheet.world0
  = (Ok [Examples.sheet_stamp_B; Examples.sheet_stamp_A],
     {| uuid_count := 2; stdout := [] |}) ∧
  written "/app" Examples.imwrite_unwritable Sheet.uuid4_hex "sheet" 0
    [bbox Examples.sheet_stamp_B; bbox Examples.sheet_stamp_A] = [].
Proof. split; vm_compute; reflexivity. Qed.

Lemma detected_bboxes_in_image_witness :
  Sheet.imread Sheet.sheet_path = Some Sheet.sheet ∧
  Examples.detect_sheet cv_boundingRect Examples.imwrite_ok
    Sheet.sheet_path Sheet.world0
  = (Ok [Examples.sheet_stamp_B; Examples.sheet_stamp_A],
     {| uuid_count := 2; stdout := [] |}) ∧
  Forall (λ s, bbox_in_image 400 300 (bbox s))
    [Examples.sheet_stamp_B; Examples.sheet_stamp_A].
Proof.
  assert (H1 : Sheet.imread Sheet.sheet_path = Some Sheet.sheet) by reflexivity.
  assert (H2 : Examples.detect_sheet cv_boundingRect Examples.imwrite_ok
    Sheet.sheet_path Sheet.world0
    = (Ok [Examples.sheet_stamp_B; Examples.sheet_stamp_A],
       {| uuid_count := 2; stdout := [] |})) by (vm_compute; reflexivity).
  assert (H3 : Forall (λ c, Forall (λ pt : point,
                  0 ≤ pt.1 < img_width Sheet.sheet ∧
                  0 ≤ pt.2 < img_height Sheet.sheet) c)
                 (Sheet.outer_contours Sheet.sheet))
    by (repeat constructor; cbn; lia).
  assert (H4 : Forall (λ c, ∀ epsilon closed,
                  Sheet.approxPolyDP c epsilon closed ⊆ c)
                 (Sheet.outer_contours Sheet.sheet))
    by (unfold Sheet.outer_contours;
        repeat (apply List.Forall_cons;
                [intros epsilon closed pt Hpt; exact Hpt|]);
        apply List.Forall_nil).
  split; [exact H1|]. split; [exact H2|].
  exact (detected_bboxes_in_image "/app" Sheet.path_stem true Sheet.imread
           Sheet.outer_contours Sheet.contourArea Sheet.arcLength
           Sheet.approxPolyDP Examples.imwrite_ok Sheet.uuid4_hex
           Sheet.sheet_path Sheet.world0 Sheet.sheet _ _ H1 H3 H4 H2).
Defined.

(** The function has no guard of its own for a height of zero: with a
    stand-in for [cv2.boundingRect] that returns one, which OpenCV's
    does not ([cv_boundingRect_positive]), the division raises and the
    exception leaves the function. *)
Lemma zero_height_raises :
  Examples.filter_sheet Examples.flat_boundingRect Sheet.rectangle_A
    = Raise ZeroDivisionError ∧
  Examples.detect_sheet Examples.flat_boundingRect Examples.imwrite_ok
    Sheet.sheet_path Sheet.world0
    = (Raise ZeroDivisionError, Sheet.world0).
Proof. split; vm_compute; reflexivity. Qed.


Lemma exported_paths_distinct_witness :
  Examples.detect_sheet cv_boundingRect Examples.imwrite_ok
    Sheet.sheet_path (Examples.world_after 0)
  = (Ok [Examples.sheet_stamp_B; Examples.sheet_stamp_A],
     Examples.world_after 1) ∧
  Examples.detect_sheet cv_boundingRect Examples.imwrite_ok
    Sheet.sheet_path (Examples.world_after 1)
  = (Ok [Examples.sheet_stamp_B2; Examples.sheet_stamp_A2],
     Examples.world_after 2) ∧
  NoDup ((λ i, String.substring 0 8 (Sheet.uuid4_hex i)) <$> seq 0 4) ∧
  NoDup (path <$> ([Examples.sheet_stamp_B; Examples.sheet_stamp_A] ++
                   [Examples.sheet_stamp_B2; Examples.sheet_stamp_A2])).
Proof.
  assert (H1 : Examples.detect_sheet cv_boundingRect Examples.imwrite_ok
                 Sheet.sheet_path (Examples.world_after 0)
               = (Ok [Examples.sheet_stamp_B; Examples.sheet_stamp_A],
                  Examples.world_after 1)) by (vm_compute; reflexivity).
  assert (H2 : Examples.detect_sheet cv_boundingRect Examples.imwrite_ok
                 Sheet.sheet_path (Examples.world_after 1)
               = (Ok [Examples.sheet_stamp_B2; Examples.sheet_stamp_A2],
                  Examples.world_after 2)) by (vm_compute; reflexivity).
  assert (H3 : NoDup ((λ i, String.substring 0 8 (Sheet.uuid4_hex i)) <$>
                        seq 0 4)).
  { apply (bool_decide_unpack _). vm_compute. exact I. }
  split; [exact H1|]. split; [exact H2|]. split; [exact H3|].
  exact (proj1 (exported_paths_distinct "/app" Sheet.path_stem true
            Sheet.imread Sheet.outer_contours Sheet.contourArea
            Sheet.arcLength Sheet.approxPolyDP cv_boundingRect
            Examples.imwrite_ok Sheet.uuid4_hex Sheet.sheet_path
            (Examples.world_after 0) _ (Examples.world_after 1) _
            (Examples.world_after 2) H1 H2 H3)).
Defined.

Lemma sheet_sides_positive c x y w h :
  c ∈ Sheet.outer_contours Sheet.sheet →
  area_in_band (Sheet.contourArea c) = true →
  length (Sheet.approxPolyDP c
            (float_mul lit_0_02 (Sheet.arcLength c true)) true) = 4%nat →
  cv_boundingRect (Sheet.approxPolyDP c
            (float_mul lit_0_02 (Sheet.arcLength c true)) true)
    = (x, y, w, h) →
  0 < w < 2 ^ 53 ∧ 0 < h < 2 ^ 53.
Proof.
  intros Hin _ _. unfold Sheet.outer_contours in Hin.
  change (2 ^ 53) with 9007199254740992.
  repeat (apply elem_of_cons in Hin as [->|Hin]);
    [..|by apply elem_of_nil in Hin];
    intros [= <- <- <- <-]; lia.
Qed.

Lemma detect_raises_only_for_directory_or_image_witness :
  (∀ img, Sheet.imread Sheet.sheet_path = Some img →
     ∀ c x y w h, c ∈ Sheet.outer_contours img →
       area_in_band (Sheet.contourArea c) = true →
       length (Sheet.approxPolyDP c
                 (float_mul lit_0_02 (Sheet.arcLength c true)) true) = 4%nat →
       cv_boundingRect (Sheet.approxPolyDP c
                 (float_mul lit_0_02 (Sheet.arcLength c true)) true)
         = (x, y, w, h) →
       0 < w < 2 ^ 53 ∧ 0 < h < 2 ^ 53) ∧
  match Examples.detect_sheet cv_boundingRect Examples.imwrite_ok
          Sheet.sheet_path Sheet.world0 with
  | (Raise e, w') =>
      w' = Sheet.world0 ∧
      ((e = ValueError ∧ true = false) ∨
       (e = IOError ∧ true = true ∧ Sheet.imread Sheet.sheet_path = None))
  | (Ok l, w') => true = true ∧ is_Some (Sheet.imread Sheet.sheet_path)
  end.
Proof.
  assert (H : ∀ img, Sheet.imread Sheet.sheet_path = Some img →
     ∀ c x y w h, c ∈ Sheet.outer_contours img →
       area_in_band (Sheet.contourArea c) = true →
       length (Sheet.approxPolyDP c
                 (float_mul lit_0_02 (Sheet.arcLength c true)) true) = 4%nat →
       cv_boundingRect (Sheet.approxPolyDP c
                 (float_mul lit_0_02 (Sheet.arcLength c true)) true)
         = (x, y, w, h) →
       0 < w < 2 ^ 53 ∧ 0 < h < 2 ^ 53)
    by (intros img _; apply sheet_sides_positive).
  split; [exact H|].
  exact (detect_raises_only_for_directory_or_image "/app" Sheet.path_stem
           true Sheet.imread Sheet.outer_contours Sheet.contourArea
           Sheet.arcLength Sheet.approxPolyDP cv_boundingRect
           Examples.imwrite_ok Sheet.uuid4_hex Sheet.sheet_path Sheet.world0
           H).
Defined.

Lemma detect_accounts_for_every_candidate_witness :
  Examples.detect_sheet cv_boundingRect Examples.imwrite_first_raises
    Sheet.sheet_path Sheet.world0
  = (Ok [Examples.sheet_stamp_A],
     {| uuid_count := 2;
        stdout := [save_warning (path Examples.sheet_stamp_B)
                     "could not find a writer for the specified extension"] |}) ∧
  ∃ img rs printed,
    Sheet.imread Sheet.sheet_path = Some img ∧
    accepted_rects Sheet.contourArea Sheet.arcLength Sheet.approxPolyDP
      cv_boundingRect (Sheet.outer_contours img) = Ok rs ∧
    (2 = 0 + length rs)%nat ∧
    [save_warning (path Examples.sheet_stamp_B)
       "could not find a writer for the specified extension"]
      = [] ++ printed ∧
    (1 + length printed)%nat = length rs ∧
    [bbox Examples.sheet_stamp_A] `sublist_of` rs.
Proof.
  assert (H : Examples.detect_sheet cv_boundingRect
                Examples.imwrite_first_raises Sheet.sheet_path Sheet.world0
    = (Ok [Examples.sheet_stamp_A],
       {| uuid_count := 2;
          stdout := [save_warning (path Examples.sheet_stamp_B)
                       "could not find a writer for the specified extension"] |}))
    by (vm_compute; reflexivity).
  split; [exact H|].
  exact (detect_accounts_for_every_candidate "/app" Sheet.path_stem true
           Sheet.imread Sheet.outer_contours Sheet.contourArea
           Sheet.arcLength Sheet.approxPolyDP cv_boundingRect
           Examples.imwrite_first_raises Sheet.uuid4_hex Sheet.sheet_path
           Sheet.world0 _ _ H).
Defined.

Lemma detected_boxes_pass_the_filter_witness :
  Sheet.imread Sheet.sheet_path = Some Sheet.sheet ∧
  (∀ c x y w h, c ∈ Sheet.outer_contours Sheet.sheet →
       area_in_band (Sheet.contourArea c) = true →
       length (Sheet.approxPolyDP c
                 (float_mul lit_0_02 (Sheet.arcLength c true)) true) = 4%nat →
       cv_boundingRect (Sheet.approxPolyDP c
                 (float_mul lit_0_02 (Sheet.arcLength c true)) true)
         = (x, y, w, h) →
       0 < w < 2 ^ 53 ∧ 0 < h < 2 ^ 53) ∧
  ∃ l w',
    Examples.detect_sheet cv_boundingRect Examples.imwrite_ok
      Sheet.sheet_path Sheet.world0 = (Ok l, w') ∧
    Forall (λ s, (bbox s).2 ≤ 2 * (bbox s).1.2 ∧
                 (bbox s).1.2 ≤ 2 * (bbox s).2) l.
Proof.
  assert (H1 : true = true) by reflexivity.
  assert (H2 : Sheet.imread Sheet.sheet_path = Some Sheet.sheet)
    by reflexivity.
  split; [exact H2|]. split; [exact sheet_sides_positive|].
  destruct (detected_boxes_pass_the_filter "/app" Sheet.path_stem true
              Sheet.imread Sheet.outer_contours Sheet.contourArea
              Sheet.arcLength Sheet.approxPolyDP cv_boundingRect
              Examples.imwrite_ok Sheet.uuid4_hex Sheet.sheet_path
              Sheet.world0 Sheet.sheet H1 H2 sheet_sides_positive)
    as (l & w' & Hrun & _ & _ & Hband).
  exists l, w'. split; [exact Hrun|exact Hband].
Defined.

End ImageProcessingFacts.

(** ** Facts about [db_utils.py] *)

Module DbUtilsFacts.

Import DbUtils.

Lemma path_field_listed : "detected_stamp_image_path" ∈ fields.
Proof. unfold fields. apply elem_of_cons. right. apply elem_of_cons. left. reflexivity. Qed.

Section Catalog.

Variable connect_ok : bool.
Variable now : string.
Variable json_dumps : list string → string.
Variable json_loads : string → option pyval.

#[local] Abbreviation add := (add_stamp_record connect_ok now json_dumps).
#[local] Abbreviation get := (get_stamp_by_image_path connect_ok json_loads).

(** The value an [INSERT] gives to a column is the string the dictionary
    holds under that field. *)
Lemma column_binds (sd : gmap string field_value) fs c :
  column (binds_of sd fs) c =
    if decide (c ∈ fs) then
      match sd !! c with Some (FStr s) => Some s | _ => None end
    else None.
Proof.
  unfold column, binds_of. induction fs as [|f fs IH].
  - cbn. destruct (decide (c ∈ [])) as [Hin|]; [|reflexivity].
    by apply elem_of_nil in Hin.
  - rewrite filter_cons. destruct (decide (is_Some (sd !! f))) as [Hs|Hn].
    + rewrite fmap_cons. cbn [List.find fst].
      destruct (decide (f = c)) as [->|Hne].
      * rewrite bool_decide_eq_true_2 by done.
        rewrite decide_True by (apply elem_of_cons; auto).
        destruct Hs as [v ->]. cbn. destruct v; reflexivity.
      * rewrite bool_decide_eq_false_2 by done. rewrite IH.
        destruct (decide (c ∈ fs)) as [Hin|Hnin].
        -- rewrite decide_True by (apply elem_of_cons; auto). reflexivity.
        -- rewrite decide_False; [reflexivity|].
           rewrite elem_of_cons. intros [?|?]; done.
    + rewrite IH. destruct (decide (f = c)) as [->|Hne].
      * assert (sd !! c = None) as ->
          by (destruct (sd !! c); [exfalso; apply Hn; eauto|done]).
        destruct (decide (c ∈ fs)), (decide (c ∈ c :: fs)); reflexivity.
      * destruct (decide (c ∈ fs)) as [Hin|Hnin].
        -- rewrite decide_True by (apply elem_of_cons; auto). reflexivity.
        -- rewrite decide_False; [reflexivity|].
           rewrite elem_of_cons. intros [?|?]; done.
Qed.

Lemma encode_keeps_path (sd : gmap string field_value) :
  encode_source_urls json_dumps sd !! "detected_stamp_image_path"
  = sd !! "detected_stamp_image_path".
Proof.
  unfold encode_source_urls.
  destruct (sd !! "source_urls") as [[| |l]|]; try reflexivity.
  apply lookup_insert_ne. done.
Qed.

(** An insertion either fails and changes nothing, or appends one row. *)
Lemma add_stamp_record_cases (sd : gmap string field_value) db :
  add sd db = (None, db) ∨
  ∃ rows r, stamps db = Some rows ∧
            add sd db = (Some (sequence db + 1),
                         {| stamps := Some (rows ++ [r]);
                            sequence := sequence db + 1 |}) ∧
            id r = sequence db + 1 ∧
            find_by_path (detected_stamp_image_path r) rows = None.
Proof.
  unfold add_stamp_record.
  destruct (sd !! "detected_stamp_image_path"); [|left; reflexivity].
  unfold sqlite_insert.
  destruct connect_ok; cbn [negb]; [|left; reflexivity].
  destruct (stamps db) as [rows|] eqn:Hrows; [|left; reflexivity].
  destruct (forallb _ _); cbn [negb]; [|left; reflexivity].
  destruct (column _ "detected_stamp_image_path") as [p|]; [|left; reflexivity].
  destruct (find_by_path p rows) eqn:Hfind; [left; reflexivity|].
  right. eexists rows, _. split; [reflexivity|]. split; [reflexivity|].
  split; [reflexivity|exact Hfind].
Qed.

(** C8: when the catalog holds a record under a path, inserting another
    record with that path returns [None] and leaves the catalog, and so
    the stored record, as it was. *)
Theorem duplicate_path_rejected (sd : gmap string field_value) db rows p r :
  stamps db = Some rows →
  find_by_path p rows = Some r →
  sd !! "detected_stamp_image_path" = Some (FStr p) →
  add sd db = (None, db).
Proof.
  intros Hrows Hfind Hsd. unfold add_stamp_record. rewrite Hsd.
  cbv zeta. unfold sqlite_insert.
  destruct connect_ok; cbn [negb]; [|reflexivity].
  rewrite Hrows.
  destruct (forallb _ _); cbn [negb]; [|reflexivity].
  rewrite column_binds.
  rewrite decide_True by exact path_field_listed.
  rewrite encode_keeps_path, Hsd, Hfind. reflexivity.
Qed.

(** C9: a dictionary without the key ['detected_stamp_image_path'] is
    refused: [add_stamp_record] returns [None] and the catalog is
    unchanged. *)
Theorem missing_path_key_rejected (sd : gmap string field_value) db :
  sd !! "detected_stamp_image_path" = None →
  add sd db = (None, db).
Proof. intros H. unfold add_stamp_record. rewrite H. reflexivity. Qed.

Lemma row_dict_source_urls r :
  row_dict r !! "source_urls" = Some (text (source_urls r)).
Proof. reflexivity. Qed.

(** What a lookup makes of a stored, non-empty ['source_urls'] text:
    the value [json.loads] decodes, whatever its type, or the empty list
    when the text does not decode. *)
Lemma get_decodes db rows p r s :
  connect_ok = true →
  stamps db = Some rows →
  find_by_path p rows = Some r →
  source_urls r = Some s → s ≠ "" →
  ∃ d, get p db = Some d ∧
       d !! "source_urls" = Some (default (PList []) (json_loads s)).
Proof.
  intros Hc Hrows Hfind Hs Hne. unfold get_stamp_by_image_path.
  rewrite Hc, Hrows, Hfind. cbn [negb].
  eexists; split; [reflexivity|].
  unfold decode_source_urls. rewrite row_dict_source_urls, Hs. cbn [text].
  rewrite bool_decide_eq_false_2 by done.
  destruct (json_loads s) as [v|]; cbn [default]; apply lookup_insert_eq.
Qed.

End Catalog.

Lemma duplicate_path_rejected_witness :
  stamps Examples.catalog_A = Some [Examples.row_A] ∧
  find_by_path (ImageProcessing.path Examples.sheet_stamp_A) [Examples.row_A]
    = Some Examples.row_A ∧
  Examples.record_A_again !! "detected_stamp_image_path"
    = Some (FStr (ImageProcessing.path Examples.sheet_stamp_A)) ∧
  add_stamp_record true Examples.clock Json.dumps Examples.record_A_again
    Examples.catalog_A = (None, Examples.catalog_A).
Proof.
  assert (H1 : stamps Examples.catalog_A = Some [Examples.row_A])
    by (vm_compute; reflexivity).
  assert (H2 : find_by_path (ImageProcessing.path Examples.sheet_stamp_A)
                 [Examples.row_A] = Some Examples.row_A)
    by (vm_compute; reflexivity).
  assert (H3 : Examples.record_A_again !! "detected_stamp_image_path"
               = Some (FStr (ImageProcessing.path Examples.sheet_stamp_A)))
    by (vm_compute; reflexivity).
  split; [exact H1|]. split; [exact H2|]. split; [exact H3|].
  exact (duplicate_path_rejected true Examples.clock Json.dumps
           Examples.record_A_again Examples.catalog_A [Examples.row_A]
           (ImageProcessing.path Examples.sheet_stamp_A) Examples.row_A
           H1 H2 H3).
Defined.

Lemma missing_path_key_rejected_witness :
  Examples.record_without_path !! "detected_stamp_image_path" = None ∧
  add_stamp_record true Examples.clock Json.dumps
    Examples.record_without_path Examples.catalog_A
    = (None, Examples.catalog_A).
Proof.
  assert (H1 : Examples.record_without_path !! "detected_stamp_image_path"
               = None) by (vm_compute; reflexivity).
  split; [exact H1|].
  exact (missing_path_key_rejected true Examples.clock Json.dumps
           Examples.record_without_path Examples.catalog_A H1).
Defined.

(** C10: a record stored with the ['source_urls'] text [123], which is
    valid JSON and not an array, comes back from
    [get_stamp_by_image_path] with the integer [123] under
    ['source_urls'], not with a list. *)
Theorem stored_number_is_not_returned_as_list :
  add_stamp_record true Examples.clock Json.dumps Examples.record_B
    Examples.empty_catalog = (Some 1, Examples.catalog_B) ∧
  (get_stamp_by_image_path true Json.loads
     (ImageProcessing.path Examples.sheet_stamp_B) Examples.catalog_B
     ≫= (.!! "source_urls")) = Some (PInt 123) ∧
  is_list (PInt 123) = false.
Proof.
  split; [vm_compute; reflexivity|].
  split; vm_compute; reflexivity.
Qed.

(** *** The catalog as a store *)

Lemma find_by_path_app p rows r :
  find_by_path p (rows ++ [r]) =
    match find_by_path p rows with
    | Some r' => Some r'
    | None => if bool_decide (detected_stamp_image_path r = p) then Some r else None
    end.
Proof.
  unfold find_by_path. induction rows as [|r0 rows IH]; cbn.
  - reflexivity.
  - destruct (bool_decide (detected_stamp_image_path r0 = p)); [reflexivity|exact IH].
Qed.

Lemma find_by_path_Some p rows r :
  find_by_path p rows = Some r → r ∈ rows ∧ detected_stamp_image_path r = p.
Proof.
  unfold find_by_path. induction rows as [|r0 rows IH]; cbn; [discriminate|].
  destruct (bool_decide (detected_stamp_image_path r0 = p)) eqn:E.
  - intros [= <-]. apply bool_decide_eq_true_1 in E. split; [left|done].
  - intros H. destruct (IH H). split; [right|]; done.
Qed.

Lemma find_by_path_None p rows :
  find_by_path p rows = None ↔ p ∉ detected_stamp_image_path <$> rows.
Proof.
  unfold find_by_path. induction rows as [|r0 rows IH].
  - split; [intros _; apply not_elem_of_nil|done].
  - rewrite fmap_cons, not_elem_of_cons. cbn [List.find].
    destruct (bool_decide (detected_stamp_image_path r0 = p)) eqn:E.
    + apply bool_decide_eq_true_1 in E. split; [discriminate|]. intros [? _]. done.
    + apply bool_decide_eq_false_1 in E. rewrite IH. split; [intros ?; split; [congruence|done]|intros [_ ?]; done].
Qed.

Lemma find_by_path_NoDup p rows r :
  NoDup (detected_stamp_image_path <$> rows) →
  r ∈ rows → detected_stamp_image_path r = p → find_by_path p rows = Some r.
Proof.
  unfold find_by_path. induction rows as [|r0 rows IH].
  - intros _ Hin. by apply elem_of_nil in Hin.
  - rewrite fmap_cons, NoDup_cons. cbn [List.find]. intros [Hnin Hnd] Hin Hp.
    apply elem_of_cons in Hin as [->|Hin].
    + rewrite bool_decide_eq_true_2 by done. reflexivity.
    + rewrite bool_decide_eq_false_2; [by apply IH|].
      intros E. apply Hnin. rewrite E, <- Hp. apply list_elem_of_fmap_2. done.
Qed.

Lemma rows_of_Some db rows : stamps db = Some rows → rows_of db = rows.
Proof. unfold rows_of. intros ->. reflexivity. Qed.

Lemma rows_of_None db : stamps db = None → rows_of db = [].
Proof. unfold rows_of. intros ->. reflexivity. Qed.

Section Store.

Variable connect_ok : bool.
Variable now : string.
Variable json_dumps : list string → string.
Variable json_loads : string → option pyval.

#[local] Abbreviation add := (add_stamp_record connect_ok now json_dumps).
#[local] Abbreviation get := (get_stamp_by_image_path connect_ok json_loads).
#[local] Abbreviation encode := (encode_source_urls json_dumps).

Lemma encode_lookup (sd : gmap string field_value) f :
  encode sd !! f =
    if decide (f = "source_urls") then
      match sd !! f with
      | Some (FList l) => Some (FStr (json_dumps l))
      | o => o
      end
    else sd !! f.
Proof.
  unfold encode_source_urls. destruct (decide (f = "source_urls")) as [->|Hne].
  - destruct (sd !! "source_urls") as [[| |l]|] eqn:E; rewrite ?E; try reflexivity.
    apply lookup_insert_eq.
  - destruct (sd !! "source_urls") as [[| |l]|]; try reflexivity.
    apply lookup_insert_ne. done.
Qed.

Lemma binds_bindable (sd : gmap string field_value) fs :
  forallb (λ b, bindable b.2) (binds_of sd fs) = true ↔
  ∀ f l, f ∈ fs → sd !! f ≠ Some (FList l).
Proof.
  unfold binds_of. induction fs as [|f fs IH].
  - split; [|reflexivity]. intros _ f l Hin. by apply elem_of_nil in Hin.
  - rewrite filter_cons. destruct (decide (is_Some (sd !! f))) as [[v Hv]|Hn].
    + rewrite fmap_cons. cbn [forallb snd]. rewrite andb_true_iff, IH, Hv.
      cbn [default]. split.
      * intros [Hb Hall] f' l Hin. apply elem_of_cons in Hin as [->|Hin].
        -- rewrite Hv. intros [= ->]. discriminate.
        -- by apply Hall.
      * intros Hall. split.
        -- destruct v as [| |l]; try reflexivity.
           exfalso. apply (Hall f l); [left|done].
        -- intros f' l Hin. apply Hall. by right.
    + rewrite IH. split.
      * intros Hall f' l Hin. apply elem_of_cons in Hin as [->|Hin].
        -- intros E. apply Hn. rewrite E. eauto.
        -- by apply Hall.
      * intros Hall f' l Hin. apply Hall. by right.
Qed.

(** The row a successful insert appends. *)
Lemma add_stamp_record_Some (sd : gmap string field_value) db i db' :
  add sd db = (Some i, db') →
  connect_ok = true ∧
  ∃ rows p,
    stamps db = Some rows ∧
    sd !! "detected_stamp_image_path" = Some (FStr p) ∧
    find_by_path p rows = None ∧
    (∀ f l, f ∈ fields → encode sd !! f ≠ Some (FList l)) ∧
    i = sequence db + 1 ∧
    db' = {| stamps := Some (rows ++ [
              {| id := i;
                 original_image_ref := column (binds_of (encode sd) fields) "original_image_ref";
                 detected_stamp_image_path := p;
                 search_keywords := column (binds_of (encode sd) fields) "search_keywords";
                 country := column (binds_of (encode sd) fields) "country";
                 title_suggestion := column (binds_of (encode sd) fields) "title_suggestion";
                 estimated_price_range := column (binds_of (encode sd) fields) "estimated_price_range";
                 history_notes := column (binds_of (encode sd) fields) "history_notes";
                 source_urls := column (binds_of (encode sd) fields) "source_urls";
                 timestamp := now |}]);
             sequence := i |}.
Proof.
  unfold add_stamp_record.
  destruct (sd !! "detected_stamp_image_path") as [v|] eqn:Hp; [|discriminate].
  cbv zeta. unfold sqlite_insert.
  destruct connect_ok; cbn [negb]; [|discriminate].
  destruct (stamps db) as [rows|] eqn:Hrows; [|discriminate].
  destruct (forallb _ _) eqn:Hb; cbn [negb]; [|discriminate].
  destruct (column _ "detected_stamp_image_path") as [p|] eqn:Hc; [|discriminate].
  destruct (find_by_path p rows) eqn:Hfind; [discriminate|].
  intros [= <- <-]. split; [reflexivity|]. exists rows, p.
  split; [reflexivity|].
  rewrite column_binds in Hc. rewrite decide_True in Hc by exact path_field_listed.
  rewrite encode_keeps_path, Hp in Hc.
  split; [destruct v; congruence|]. split; [done|].
  split; [by apply binds_bindable|]. split; reflexivity.
Qed.

Lemma binds_of_ext (sd sd' : gmap string field_value) fs :
  (∀ f, f ∈ fs → sd !! f = sd' !! f) → binds_of sd fs = binds_of sd' fs.
Proof.
  unfold binds_of. induction fs as [|c fs IH]; intros Hext; [reflexivity|].
  rewrite !filter_cons, <- (Hext c) by (by left).
  destruct (decide (is_Some (sd !! c))).
  - rewrite !fmap_cons, <- (Hext c) by (by left). f_equal.
    apply IH. intros f' Hin. apply Hext. by right.
  - apply IH. intros f' Hin. apply Hext. by right.
Qed.

(** X4: the dictionary is read through the eight column names only:
    two dictionaries that agree on them have the same effect and the
    same result, whatever other keys they hold. *)
Theorem add_stamp_record_reads_fields_only
    (sd sd' : gmap string field_value) db :
  (∀ f, f ∈ fields → sd !! f = sd' !! f) →
  add sd db = add sd' db.
Proof.
  intros Hext. unfold add_stamp_record.
  rewrite <- (Hext "detected_stamp_image_path") by exact path_field_listed.
  destruct (sd !! "detected_stamp_image_path") as [v|]; [|reflexivity].
  cbv zeta. rewrite (binds_of_ext (encode sd) (encode sd') fields); [reflexivity|].
  intros f Hin. rewrite !encode_lookup, (Hext f Hin). reflexivity.
Qed.

(** What a call of [add_stamp_record] does to the file. *)
Lemma add_stamp_record_effect (sd : gmap string field_value) db :
  match add sd db with
  | (None, db') => db' = db
  | (Some i, db') =>
      i = sequence db + 1 ∧ sequence db' = i ∧
      ∃ r, stamps db' = Some (rows_of db ++ [r]) ∧ id r = i ∧
           timestamp r = now ∧
           sd !! "detected_stamp_image_path"
             = Some (FStr (detected_stamp_image_path r)) ∧
           detected_stamp_image_path r
             ∉ detected_stamp_image_path <$> rows_of db
  end.
Proof.
  destruct (add sd db) as [[i|] db'] eqn:Hadd.
  - apply add_stamp_record_Some in Hadd
      as (_ & rows & p & Hrows & Hp & Hfind & _ & -> & ->).
    split; [reflexivity|]. split; [reflexivity|].
    eexists. rewrite (rows_of_Some _ _ Hrows). cbn [stamps].
    split; [reflexivity|]. cbn [id timestamp detected_stamp_image_path].
    split; [reflexivity|]. split; [reflexivity|]. split; [done|].
    by apply find_by_path_None.
  - destruct (add_stamp_record_cases connect_ok now json_dumps sd db)
      as [E|(rows & r & _ & E & _)]; rewrite E in Hadd; congruence.
Qed.

(** X5: a call of [add_stamp_record] that returns [None] leaves the file
    as it was; a call that returns an id has appended one row, after the
    rows there were: its id is the one returned, one more than the last
    id given, its timestamp is the time of the call, and its path is the
    path of the dictionary, which no earlier row had. *)
Theorem add_stamp_record_outcome (sd : gmap string field_value) db :
  match add sd db with
  | (None, db') => db' = db
  | (Some i, db') =>
      i = sequence db + 1 ∧ sequence db' = i ∧
      ∃ r, stamps db' = Some (rows_of db ++ [r]) ∧ id r = i ∧
           timestamp r = now ∧
           sd !! "detected_stamp_image_path"
             = Some (FStr (detected_stamp_image_path r)) ∧
           detected_stamp_image_path r
             ∉ detected_stamp_image_path <$> rows_of db
  end.
Proof.
  exact (add_stamp_record_effect sd db).
Qed.

(** X6: an insert goes through exactly when the file can be opened and
    has its table, the dictionary holds a string under
    [detected_stamp_image_path] that no row has yet, and no column other
    than [source_urls] is given a list. *)
Theorem add_stamp_record_succeeds_iff (sd : gmap string field_value) db :
  is_Some (add sd db).1 ↔
    connect_ok = true ∧ is_Some (stamps db) ∧
    (∃ p, sd !! "detected_stamp_image_path" = Some (FStr p) ∧
          p ∉ detected_stamp_image_path <$> rows_of db) ∧
    (∀ f l, f ∈ fields → sd !! f = Some (FList l) → f = "source_urls").
Proof.
  split.
  - intros [i Hi]. destruct (add sd db) as [o db'] eqn:Hadd.
    cbn [fst] in Hi. subst o.
    apply add_stamp_record_Some in Hadd
      as (Hc & rows & p & Hrows & Hp & Hfind & Hb & _ & _).
    split; [done|]. split; [rewrite Hrows; eauto|]. split.
    + exists p. split; [done|]. rewrite (rows_of_Some _ _ Hrows).
      by apply find_by_path_None.
    + intros f l Hin Hf. destruct (decide (f = "source_urls")) as [|Hne]; [done|].
      exfalso. apply (Hb f l Hin). rewrite encode_lookup, decide_False by done.
      exact Hf.
  - intros (Hc & [rows Hrows] & (p & Hp & Hnin) & Hl).
    unfold add_stamp_record. rewrite Hp. cbv zeta. unfold sqlite_insert.
    rewrite Hc, Hrows. cbn [negb].
    assert (Hb : forallb (λ b, bindable b.2) (binds_of (encode sd) fields) = true).
    { apply binds_bindable. intros f l Hin. rewrite encode_lookup.
      destruct (decide (f = "source_urls")) as [->|Hne].
      - destruct (sd !! "source_urls") as [[| |l']|]; discriminate.
      - intros Hf. apply Hne. by eapply Hl. }
    rewrite Hb. cbn [negb]. rewrite column_binds.
    rewrite decide_True by exact path_field_listed.
    rewrite encode_keeps_path, Hp.
    rewrite (rows_of_Some _ _ Hrows) in Hnin.
    apply find_by_path_None in Hnin. rewrite Hnin. cbn [fst]. eauto.
Qed.

(** X7: an insert does not touch what is stored under other paths: the
    lookup of a path other than the one of the dictionary returns after
    the call what it returned before. *)
Theorem add_stamp_record_keeps_other_paths
    (sd : gmap string field_value) db q :
  sd !! "detected_stamp_image_path" ≠ Some (FStr q) →
  get q (add sd db).2 = get q db.
Proof.
  intros Hq. pose proof (add_stamp_record_effect sd db) as H.
  destruct (add sd db) as [[i|] db']; cbn [snd]; [|by subst].
  destruct H as (_ & _ & r & Hrows' & _ & _ & Hp & _).
  unfold get_stamp_by_image_path. destruct connect_ok; cbn [negb]; [|reflexivity].
  rewrite Hrows'.
  destruct (stamps db) as [rows|] eqn:Hrows.
  - rewrite (rows_of_Some _ _ Hrows), find_by_path_app.
    destruct (find_by_path q rows); [reflexivity|].
    rewrite bool_decide_eq_false_2; [reflexivity|].
    intros E. apply Hq. rewrite Hp, E. reflexivity.
  - rewrite (rows_of_None _ Hrows). cbn [app]. unfold find_by_path.
    cbn [List.find].
    rewrite bool_decide_eq_false_2; [reflexivity|].
    intros E. apply Hq. rewrite Hp, E. reflexivity.
Qed.

(** X8: a record that was inserted is returned by a lookup of its path,
    field by field. *)
Theorem add_then_get (sd : gmap string field_value) db i db' p :
  add sd db = (Some i, db') →
  sd !! "detected_stamp_image_path" = Some (FStr p) →
  (∀ l, sd !! "source_urls" = Some (FList l) →
        json_dumps l ≠ "" ∧
        json_loads (json_dumps l) = Some (PList (PStr <$> l))) →
  ∃ d, get p db' = Some d ∧
       d !! "id" = Some (PInt i) ∧
       d !! "detected_stamp_image_path" = Some (PStr p) ∧
       d !! "timestamp" = Some (PStr now) ∧
       (∀ f, f ∈ [ "original_image_ref"; "search_keywords"; "country";
                   "title_suggestion"; "estimated_price_range";
                   "history_notes" ] →
             d !! f = Some (match sd !! f with
                            | Some (FStr s) => PStr s
                            | _ => PNone
                            end)) ∧
       (∀ l, sd !! "source_urls" = Some (FList l) →
             d !! "source_urls" = Some (PList (PStr <$> l))) ∧
       (sd !! "source_urls" = None ∨ sd !! "source_urls" = Some FNone →
        d !! "source_urls" = Some PNone).
Proof.
  intros Hadd Hp Hjson.
  apply add_stamp_record_Some in Hadd
    as (Hc & rows & p' & Hrows & Hp' & Hfind & _ & -> & ->).
  assert (p' = p) as -> by congruence.
  unfold get_stamp_by_image_path. rewrite Hc. cbn [negb stamps].
  rewrite find_by_path_app, Hfind. cbn [detected_stamp_image_path].
  rewrite bool_decide_eq_true_2 by done.
  eexists; split; [reflexivity|].
  assert (Hother : ∀ (r : row) f, f ≠ "source_urls" →
            decode_source_urls json_loads (row_dict r) !! f = row_dict r !! f).
  { intros r f Hne. unfold decode_source_urls.
    rewrite row_dict_source_urls.
    destruct (source_urls r) as [s|]; cbn [text]; [|reflexivity].
    destruct (bool_decide (s = "")); [reflexivity|].
    destruct (json_loads s); apply lookup_insert_ne; done. }
  assert (Hcol : ∀ c, c ∈ fields → c ≠ "source_urls" →
            column (binds_of (encode sd) fields) c
            = match sd !! c with Some (FStr s) => Some s | _ => None end).
  { intros c Hin Hne. rewrite column_binds, decide_True by done.
    rewrite encode_lookup, decide_False by done. reflexivity. }
  split; [rewrite Hother by done; reflexivity|].
  split; [rewrite Hother by done; reflexivity|].
  split; [rewrite Hother by done; reflexivity|].
  split.
  { intros f Hin. rewrite Hother.
    2:{ intros ->. revert Hin. apply (bool_decide_unpack _). vm_compute. exact I. }
    repeat (apply elem_of_cons in Hin as [->|Hin]);
      [..|by apply elem_of_nil in Hin].
    all: match goal with
         | |- row_dict _ !! ?c = _ =>
             transitivity (Some (text (column (binds_of (encode sd) fields) c)));
               [reflexivity|];
             rewrite Hcol;
               [|apply (bool_decide_unpack _); vm_compute; exact I|done]
         end.
    all: match goal with
         | |- context [text match ?x with Some _ => _ | None => _ end] =>
             destruct x as [[| |]|]; reflexivity
         end. }
  unfold decode_source_urls. rewrite row_dict_source_urls.
  cbn [source_urls]. rewrite column_binds, decide_True
    by (apply (bool_decide_unpack _); vm_compute; exact I).
  rewrite encode_lookup, decide_True by done.
  split.
  - intros l Hl. rewrite Hl. cbn [text].
    destruct (Hjson l Hl) as [Hne Hload].
    rewrite bool_decide_eq_false_2, Hload by done. apply lookup_insert_eq.
  - intros [Hn|Hn]; rewrite Hn; cbn [text]; apply row_dict_source_urls.
Qed.

End Store.

Section Calls.

Variable json_dumps : list string → string.

#[local] Abbreviation paths db := (detected_stamp_image_path <$> rows_of db).
#[local] Abbreviation ids db := (id <$> rows_of db).

(** What every file made by the module satisfies: paths are unique and
    the ids count the rows. *)
Lemma run_invariant calls db results db' :
  NoDup (paths db) →
  ids db = Z.of_nat <$> seq 1 (length (rows_of db)) →
  sequence db = Z.of_nat (length (rows_of db)) →
  run json_dumps calls db = (results, db') →
  NoDup (paths db') ∧
  ids db' = Z.of_nat <$> seq 1 (length (rows_of db')) ∧
  sequence db' = Z.of_nat (length (rows_of db')) ∧
  ids db' = ids db ++ omap Datatypes.id results.
Proof.
  revert db results db'.
  induction calls as [|[|c now sd] calls IH]; intros db results db' Hnd Hids Hseq Hrun.
  - injection Hrun as <- <-. rewrite app_nil_r. done.
  - cbn [run] in Hrun.
    destruct (run json_dumps calls (initialize_database db)) as [rs db1] eqn:Hrest.
    injection Hrun as <- <-.
    assert (Hrows : rows_of (initialize_database db) = rows_of db).
    { unfold initialize_database, rows_of.
      destruct (stamps db) eqn:E; cbn [stamps]; rewrite ?E; reflexivity. }
    assert (Hs : sequence (initialize_database db) = sequence db).
    { unfold initialize_database. destruct (stamps db); reflexivity. }
    destruct (IH _ _ _ ltac:(rewrite Hrows; exact Hnd)
                ltac:(rewrite Hrows; exact Hids)
                ltac:(rewrite Hs, Hrows; exact Hseq) Hrest)
      as (H1 & H2 & H3 & H4).
    rewrite Hrows in H4. done.
  - cbn [run] in Hrun.
    pose proof (add_stamp_record_effect c now json_dumps sd db) as Hout.
    destruct (add_stamp_record c now json_dumps sd db) as [[i|] db1].
    + destruct (run json_dumps calls db1) as [rs db2] eqn:Hrest.
      injection Hrun as <- <-.
      destruct Hout as (-> & Hs1 & r & Hrows1 & Hid & _ & _ & Hfresh).
      apply rows_of_Some in Hrows1.
      assert (Hlen : length (rows_of db1) = S (length (rows_of db)))
        by (rewrite Hrows1, length_app; cbn; lia).
      assert (Hids1 : ids db1 = Z.of_nat <$> seq 1 (length (rows_of db1))).
      { rewrite Hlen, seq_S, fmap_app, <- Hids, Hrows1, fmap_app. cbn.
        rewrite Hid, Hseq. do 2 f_equal. lia. }
      destruct (IH db1 rs db2) as (H1 & H2 & H3 & H4); [| | |done|].
      * rewrite Hrows1, fmap_app. apply NoDup_app. split; [done|].
        split; [|apply NoDup_singleton].
        intros x Hx Hx'. apply list_elem_of_singleton in Hx'. by subst.
      * exact Hids1.
      * rewrite Hs1, Hlen, Hseq. lia.
      * split; [done|]. split; [done|]. split; [done|].
        rewrite H4, Hrows1, fmap_app. cbn. rewrite <- app_assoc. cbn.
        rewrite Hid. reflexivity.
    + subst db1. destruct (run json_dumps calls db) as [rs db2] eqn:Hrest.
      injection Hrun as <- <-. cbn [omap list_omap].
      by apply IH.
Qed.

(** X9: in every file that the module has made from a new one, paths
    are unique, the rows carry the ids 1, 2, 3, ... in the order of
    insertion, and these are the ids that the successful calls returned,
    in the order of the calls. *)
Theorem paths_and_ids_are_unique calls :
  let db := (run json_dumps calls new_file).2 in
  let returned := omap Datatypes.id (run json_dumps calls new_file).1 in
  NoDup (paths db) ∧
  ids db = Z.of_nat <$> seq 1 (length (rows_of db)) ∧
  returned = ids db ∧
  sequence db = Z.of_nat (length returned).
Proof.
  cbv zeta. destruct (run json_dumps calls new_file) as [results db] eqn:Hrun.
  cbn [fst snd].
  destruct (run_invariant calls new_file results db) as (H1 & H2 & H3 & H4);
    [apply NoDup_nil; done|reflexivity|reflexivity|done|].
  cbn [app] in H4. change (ids new_file) with (@nil Z) in H4. cbn [app] in H4.
  split; [done|]. split; [done|]. split; [done|].
  rewrite H3, <- H4, length_fmap. reflexivity.
Qed.

End Calls.

Section Listing.

Variable connect_ok : bool.
Variable json_loads : string → option pyval.
Variable order_by_timestamp_desc : list row → list row.

#[local] Abbreviation get := (get_stamp_by_image_path connect_ok json_loads).
#[local] Abbreviation get_all :=
  (get_all_stamps connect_ok json_loads order_by_timestamp_desc).

(** X10: when paths are unique, the listing holds every row once, each as
    the lookup of its path returns it. *)
Theorem get_all_stamps_agrees_with_lookup db :
  (∀ rows, order_by_timestamp_desc rows ≡ₚ rows) →
  NoDup (detected_stamp_image_path <$> rows_of db) →
  length (get_all db)
    = (if connect_ok then length (rows_of db) else 0%nat) ∧
  (∀ d, d ∈ get_all db ↔ ∃ p, get p db = Some d).
Proof.
  intros Hperm Hnd. unfold get_all_stamps, get_stamp_by_image_path.
  destruct connect_ok; cbn [negb].
  2:{ split; [reflexivity|]. intros d. split.
      - intros Hin. by apply elem_of_nil in Hin.
      - intros [p Hp]. discriminate. }
  destruct (stamps db) as [rows|] eqn:Hrows.
  2:{ rewrite (rows_of_None _ Hrows). split; [reflexivity|]. intros d. split.
      - intros Hin. by apply elem_of_nil in Hin.
      - intros [p Hp]. discriminate. }
  rewrite (rows_of_Some _ _ Hrows) in *.
  split; [rewrite length_fmap, Hperm; reflexivity|].
  intros d. rewrite list_elem_of_fmap. split.
  - intros (r & -> & Hin). rewrite Hperm in Hin.
    exists (detected_stamp_image_path r).
    rewrite (find_by_path_NoDup _ rows r); done.
  - intros [p Hp]. destruct (find_by_path p rows) as [r|] eqn:Hfind; [|discriminate].
    injection Hp as <-. exists r. split; [reflexivity|].
    rewrite Hperm. by apply find_by_path_Some in Hfind as [? _].
Qed.

End Listing.

Lemma add_stamp_record_reads_fields_only_witness :
  (∀ f, f ∈ fields →
        Examples.record_A !! f = Examples.record_A_annotated !! f) ∧
  add_stamp_record true Examples.clock Json.dumps Examples.record_A
    Examples.empty_catalog
  = add_stamp_record true Examples.clock Json.dumps
      Examples.record_A_annotated Examples.empty_catalog.
Proof.
  assert (H : ∀ f, f ∈ fields →
            Examples.record_A !! f = Examples.record_A_annotated !! f).
  { intros f Hin. unfold fields in Hin.
    repeat (apply elem_of_cons in Hin as [->|Hin]);
      [..|by apply elem_of_nil in Hin]; vm_compute; reflexivity. }
  split; [exact H|].
  exact (add_stamp_record_reads_fields_only true Examples.clock Json.dumps
           Examples.record_A Examples.record_A_annotated
           Examples.empty_catalog H).
Defined.

Lemma add_stamp_record_keeps_other_paths_witness :
  Examples.record_B !! "detected_stamp_image_path"
    ≠ Some (FStr (ImageProcessing.path Examples.sheet_stamp_A)) ∧
  get_stamp_by_image_path true Json.loads
    (ImageProcessing.path Examples.sheet_stamp_A)
    (add_stamp_record true Examples.clock Json.dumps Examples.record_B
       Examples.catalog_A).2
  = get_stamp_by_image_path true Json.loads
      (ImageProcessing.path Examples.sheet_stamp_A) Examples.catalog_A.
Proof.
  assert (H : Examples.record_B !! "detected_stamp_image_path"
              ≠ Some (FStr (ImageProcessing.path Examples.sheet_stamp_A)))
    by (vm_compute; discriminate).
  split; [exact H|].
  exact (add_stamp_record_keeps_other_paths true Examples.clock Json.dumps
           Json.loads Examples.record_B Examples.catalog_A
           (ImageProcessing.path Examples.sheet_stamp_A) H).
Defined.

Lemma add_then_get_witness :
  add_stamp_record true Examples.clock Json.dumps Examples.record_A
    Examples.empty_catalog = (Some 1, Examples.catalog_A) ∧
  Examples.record_A !! "detected_stamp_image_path"
    = Some (FStr (ImageProcessing.path Examples.sheet_stamp_A)) ∧
  (∀ l, Examples.record_A !! "source_urls" = Some (FList l) →
        Json.dumps l ≠ "" ∧
        Json.loads (Json.dumps l) = Some (PList (PStr <$> l))) ∧
  ∃ d, get_stamp_by_image_path true Json.loads
         (ImageProcessing.path Examples.sheet_stamp_A) Examples.catalog_A
       = Some d ∧
       d !! "id" = Some (PInt 1) ∧
       d !! "country" = Some (PStr "Canada") ∧
       d !! "title_suggestion" = Some PNone ∧
       d !! "source_urls"
         = Some (PList [PStr "http://example.com/stamp_info/canada_qe2_5c"]).
Proof.
  assert (H1 : add_stamp_record true Examples.clock Json.dumps
                 Examples.record_A Examples.empty_catalog
               = (Some 1, Examples.catalog_A)) by (vm_compute; reflexivity).
  assert (H2 : Examples.record_A !! "detected_stamp_image_path"
               = Some (FStr (ImageProcessing.path Examples.sheet_stamp_A)))
    by (vm_compute; reflexivity).
  assert (H3 : ∀ l, Examples.record_A !! "source_urls" = Some (FList l) →
                 Json.dumps l ≠ "" ∧
                 Json.loads (Json.dumps l) = Some (PList (PStr <$> l))).
  { intros l Hl. vm_compute in Hl. injection Hl as <-.
    split; [vm_compute; discriminate|vm_compute; reflexivity]. }
  split; [exact H1|]. split; [exact H2|]. split; [exact H3|].
  destruct (add_then_get true Examples.clock Json.dumps Json.loads
              Examples.record_A Examples.empty_catalog 1 Examples.catalog_A
              (ImageProcessing.path Examples.sheet_stamp_A) H1 H2 H3)
    as (d & Hget & Hid & _ & _ & Htext & Hurls & _).
  exists d. split; [exact Hget|]. split; [exact Hid|].
  split; [apply (Htext "country"); apply (bool_decide_unpack _); vm_compute; exact I|].
  split; [apply (Htext "title_suggestion"); apply (bool_decide_unpack _); vm_compute; exact I|].
  apply (Hurls ["http://example.com/stamp_info/canada_qe2_5c"]).
  vm_compute. reflexivity.
Defined.

Lemma get_all_stamps_agrees_with_lookup_witness :
  (∀ rows, Examples.order_by_timestamp_desc rows ≡ₚ rows) ∧
  NoDup (detected_stamp_image_path <$> rows_of Examples.catalog_A) ∧
  length (get_all_stamps true Json.loads Examples.order_by_timestamp_desc
            Examples.catalog_A) = 1%nat ∧
  (∀ d, d ∈ get_all_stamps true Json.loads
                Examples.order_by_timestamp_desc Examples.catalog_A ↔
        ∃ p, get_stamp_by_image_path true Json.loads p Examples.catalog_A
             = Some d).
Proof.
  assert (H1 : ∀ rows, Examples.order_by_timestamp_desc rows ≡ₚ rows)
    by (intros rows; apply merge_sort_Permutation).
  assert (H2 : NoDup (detected_stamp_image_path
                        <$> rows_of Examples.catalog_A))
    by (apply (bool_decide_unpack _); vm_compute; exact I).
  split; [exact H1|]. split; [exact H2|].
  exact (get_all_stamps_agrees_with_lookup true Json.loads
           Examples.order_by_timestamp_desc Examples.catalog_A H1 H2).
Defined.

End DbUtilsFacts.

(** ** Facts about [main.py] *)

Module MainFacts.

Import Rounding PyFacts ImageProcessing Main.

Lemma display_image_size_fit vp W H :
  1 < label_width vp → 1 < label_height vp →
  display_image_size vp (W, H) = fit (label_width vp) (label_height vp) W H.
Proof.
  intros Hw Hh. unfold display_image_size.
  destruct (Z.leb_spec (label_width vp) 1); [lia|].
  destruct (Z.leb_spec (label_height vp) 1); [lia|]. reflexivity.
Qed.

Lemma draw_scaled_size_fit vp W H :
  1 < label_width vp → 1 < label_height vp →
  draw_scaled_size vp (W, H) = fit (label_width vp) (label_height vp) W H.
Proof.
  intros Hw Hh. unfold draw_scaled_size.
  destruct (Z.leb_spec (label_width vp) 1); [lia|].
  destruct (Z.leb_spec (label_height vp) 1); [lia|]. reflexivity.
Qed.

Lemma fit_total label_w label_h img_w img_h :
  1 ≤ label_w < 2 ^ 31 → 1 ≤ label_h < 2 ^ 31 →
  1 ≤ img_w < 2 ^ 31 → 1 ≤ img_h < 2 ^ 31 →
  ∃ w h, fit label_w label_h img_w img_h = Ok (w, h) ∧
         1 ≤ w < 2 ^ 64 ∧ 1 ≤ h ≤ label_h.
Proof.
  intros Hlw Hlh Hw Hh. unfold fit.
  destruct (int_truediv_normal img_w img_h) as (ar & -> & Har); [lia|lia|].
  pose proof (log2_bounds img_w 31 ltac:(lia)) as Hl1.
  pose proof (log2_bounds img_h 31 ltac:(lia)) as Hl2.
  apply (normal_weaken _ _ _ _ (-83) (-21)) in Har; [|lia|lia].
  cbn [mbind result_bind]. unfold int_div_float.
  destruct (float_of_int_normal label_w) as (fl & -> & Hfl); [lia|].
  cbn [mbind result_bind].
  destruct (float_truediv_normal _ _ _ _ _ _ Hfl Har) as (q & -> & Hq); [lia|lia|].
  cbn [mbind result_bind].
  destruct (int_of_float_normal _ _ _ Hq) as (nh & -> & Hnh); [lia|].
  cbn [mbind result_bind].
  destruct (Z.gtb_spec nh label_h) as [Hgt|Hle].
  - destruct Har as (m & e & -> & Hm & He).
    destruct (int_mul_float_spec label_h m e) as (p & -> & Hp); [lia|lia|lia|].
    cbn [mbind result_bind mret result_ret]. rewrite Hp.
    eexists _, _; split; [reflexivity|]. split; [|lia].
    split; [lia|].
    assert (HN : 2 ^ 52 ≤ label_h * Z.pos m) by nia.
    pose proof (R53_upper _ HN) as HR.
    assert (Hlog : Z.log2 (label_h * Z.pos m) + 1 ≤ 84).
    { assert (Z.log2 (label_h * Z.pos m) < 84); [|lia].
      apply Z.log2_lt_pow2; [lia|]. change (2 ^ 84) with (2 ^ 31 * 2 ^ 53). nia. }
    assert (R53 (label_h * Z.pos m) < 2 ^ 85).
    { eapply Z.le_lt_trans; [exact HR|]. apply Z.pow_lt_mono_r; lia. }
    assert (0 ≤ R53 (label_h * Z.pos m)).
    { unfold R53. 
      assert (52 ≤ Z.log2 (label_h * Z.pos m)).
      { change 52 with (Z.log2 (2 ^ 52)). apply Z.log2_le_mono. lia. }
      pose proof (pow2_pos (Z.log2 (label_h * Z.pos m) + 1 - 53) ltac:(lia)).
      pose proof (rne_range (label_h * Z.pos m) (Z.log2 (label_h * Z.pos m) + 1 - 53) ltac:(lia) ltac:(lia)).
      assert (0 ≤ label_h * Z.pos m / 2 ^ (Z.log2 (label_h * Z.pos m) + 1 - 53)) by (apply Z.div_pos; lia).
      nia. }
    pose proof (shiftl_lt_pow2 (R53 (label_h * Z.pos m)) e 85 ltac:(lia) ltac:(lia) ltac:(lia)) as Hs.
    assert (2 ^ (85 + e) ≤ 2 ^ 64) by (apply Z.pow_le_mono_r; lia).
    lia.
  - cbn [mbind result_bind mret result_ret].
    eexists _, _; split; [reflexivity|]. change (2 ^ 64) with 18446744073709551616.
    change (2 ^ 31) with 2147483648 in *. lia.
Qed.

Lemma scale_bbox_ordered sx sy r W H :
  normal sx false (-1074) 900 → normal sy false (-1074) 900 →
  W < 2 ^ 53 → H < 2 ^ 53 → bbox_in_image W H r →
  ∃ sb, scale_bbox sx sy r = Ok sb ∧ ordered sb.
Proof.
  intros (mx & ex & -> & Hmx & Hex) (my & ey & -> & Hmy & Hey) HW HH.
  destruct r as [[[x y] w] h]. intros (Hx & Hy & Hw & Hh & Hxw & Hyh).
  destruct (scaled_coordinate_mono x (x + w) mx ex) as (x1 & x2 & E1 & E2 & Hx12);
    [lia|lia|done|done|].
  destruct (scaled_coordinate_mono y (y + h) my ey) as (y1 & y2 & E3 & E4 & Hy12);
    [lia|lia|done|done|].
  unfold scale_bbox. rewrite E1. cbn [mbind result_bind]. rewrite E3. cbn [mbind result_bind].
  rewrite E2. cbn [mbind result_bind]. rewrite E4. cbn [mbind result_bind mret result_ret].
  eexists; split; [reflexivity|]. split; done.
Qed.

Lemma scale_stamps_ok sx sy W H stamps acc :
  normal sx false (-1074) 900 → normal sy false (-1074) 900 →
  W < 2 ^ 53 → H < 2 ^ 53 →
  Forall (λ st, bbox_in_image W H (bbox st)) stamps →
  ∃ infos, scale_stamps sx sy stamps acc = (Ok (), acc ++ infos) ∧
    Forall2 (λ st info, original_data info = st ∧ ordered (scaled_bbox info)) stamps infos.
Proof.
  intros Hsx Hsy HW HH Hall. revert acc.
  induction Hall as [|st stamps Hst Hall IH]; intros acc.
  - exists []. rewrite app_nil_r. split; [reflexivity|constructor].
  - cbn [scale_stamps].
    destruct (scale_bbox_ordered sx sy (bbox st) W H Hsx Hsy HW HH Hst) as (sb & -> & Hsb).
    destruct (IH (acc ++ [{| scaled_bbox := sb; original_data := st |}])) as (infos & -> & HF).
    exists ({| scaled_bbox := sb; original_data := st |} :: infos).
    rewrite <- app_assoc. split; [reflexivity|]. constructor; [|done]. split; done.
Qed.

Lemma find_first {A} (P : A → bool) (l : list A) i x :
  l !! i = Some x → P x = true →
  (∀ j y, (j < i)%nat → l !! j = Some y → P y = false) →
  List.find P l = Some x.
Proof.
  revert i. induction l as [|a l IH]; intros i Hi Hx Hbefore; [done|].
  destruct i as [|i].
  - simpl in Hi. injection Hi as ->. simpl. rewrite Hx. reflexivity.
  - simpl. rewrite (Hbefore 0%nat a); [|lia|done].
    apply (IH i); [done|done|]. intros j y Hj Hy. apply (Hbefore (S j)); [lia|done].
Qed.

Lemma find_first_inv {A} (P : A → bool) (l : list A) x :
  List.find P l = Some x →
  ∃ k, l !! k = Some x ∧ P x = true ∧
       ∀ j y, (j < k)%nat → l !! j = Some y → P y = false.
Proof.
  induction l as [|a l IH]; [discriminate|]. cbn [List.find].
  destruct (P a) eqn:Ha.
  - intros [= <-]. exists 0%nat. split; [done|]. split; [done|]. lia.
  - intros Hf. destruct (IH Hf) as (k & Hk & Hx & Hbefore).
    exists (S k). split; [done|]. split; [done|].
    intros [|j] y Hj Hy; [by injection Hy as <-|].
    apply (Hbefore j); [lia|done].
Qed.

Lemma hit_center info :
  ordered (scaled_bbox info) →
  let '(x1, y1, x2, y2) := scaled_bbox info in
  hit ((x1 + x2) `div` 2) ((y1 + y2) `div` 2) info = true.
Proof.
  unfold hit, ordered. destruct (scaled_bbox info) as [[[x1 y1] x2] y2].
  intros [Hx Hy].
  pose proof (Z.div_mod (x1 + x2) 2 ltac:(lia)). pose proof (Z.mod_pos_bound (x1 + x2) 2 ltac:(lia)).
  pose proof (Z.div_mod (y1 + y2) 2 ltac:(lia)). pose proof (Z.mod_pos_bound (y1 + y2) 2 ltac:(lia)).
  rewrite !andb_true_iff, !Z.leb_le. lia.
Qed.


Section Gui.

Variable image_open : string → option (Z * Z).

(** When the label reports more than one pixel in both directions,
    [display_image] and [draw_stamp_rectangles] compute the same scaled
    width and height (or raise the same exception) for every image
    size, and so they do when the parent frame is 600 by 400. *)
Lemma scaled_sizes_agree vp W H :
  (1 < label_width vp ∧ 1 < label_height vp) ∨
  (master_width vp = 600 ∧ master_height vp = 400) →
  display_image_size vp (W, H) = draw_scaled_size vp (W, H).
Proof.
  intros [[Hw Hh]|[Hmw Hmh]].
  - rewrite display_image_size_fit, draw_scaled_size_fit by done. reflexivity.
  - unfold display_image_size, draw_scaled_size. rewrite Hmw, Hmh.
    destruct ((label_width vp <=? 1) || (label_height vp <=? 1)); reflexivity.
Qed.

(** When the label reports one pixel or less in a direction,
    [display_image] fits the picture into 600 by 400 and
    [draw_stamp_rectangles] fits the boxes into the parent frame. *)
Lemma degenerate_label_sizes vp W H :
  label_width vp ≤ 1 ∨ label_height vp ≤ 1 →
  display_image_size vp (W, H) = fit 600 400 W H ∧
  draw_scaled_size vp (W, H) = fit (master_width vp) (master_height vp) W H.
Proof.
  intros Hdeg. unfold display_image_size, draw_scaled_size.
  assert ((label_width vp <=? 1) || (label_height vp <=? 1) = true) as ->.
  { apply orb_true_iff. rewrite !Z.leb_le. exact Hdeg. }
  split; reflexivity.
Qed.

Lemma draw_stamp_rectangles_ok vp a stamps W H :
  original_pil_image a = Some (W, H) →
  1 ≤ W < 2 ^ 31 → 1 ≤ H < 2 ^ 31 →
  1 < label_width vp < 2 ^ 31 → 1 < label_height vp < 2 ^ 31 →
  Forall (λ st, bbox_in_image W H (bbox st)) stamps →
  ∃ a' dw dh,
    draw_stamp_rectangles image_open vp stamps a = (Ok (), a') ∧
    display_image_size vp (W, H) = Ok (dw, dh) ∧
    tk_image a' = Some (dw, dh) ∧
    Forall2 (λ st info, original_data info = st ∧ ordered (scaled_bbox info))
      stamps (displayed_stamp_rects_info a').
Proof.
  intros Himg HW HH Hlw Hlh Hall.
  unfold draw_stamp_rectangles. rewrite Himg.
  assert (Hsize : draw_scaled_size vp (W, H) = display_image_size vp (W, H))
    by (rewrite display_image_size_fit, draw_scaled_size_fit by lia; reflexivity).
  assert (Hfit : display_image_size vp (W, H)
                 = fit (label_width vp) (label_height vp) W H)
    by (apply display_image_size_fit; lia).
  destruct (fit_total (label_width vp) (label_height vp) W H) as (dw & dh & Hf & Hdw & Hdh);
    [lia|lia|lia|lia|].
  rewrite Hsize, Hfit, Hf. cbn [mbind result_bind fst snd].
  destruct (int_truediv_normal dw W) as (sx & -> & Hsx);
    [lia|change (2 ^ 64) with 18446744073709551616; change (2 ^ 31) with 2147483648 in *; lia|].
  destruct (int_truediv_normal dh H) as (sy & -> & Hsy);
    [change (2 ^ 64) with 18446744073709551616; change (2 ^ 31) with 2147483648 in *; lia
    |change (2 ^ 64) with 18446744073709551616; change (2 ^ 31) with 2147483648 in *; lia|].
  cbn [mbind result_bind mret result_ret].
  pose proof (log2_bounds dw 64 ltac:(lia)) as L1.
  pose proof (log2_bounds W 31 ltac:(lia)) as L2.
  pose proof (log2_bounds dh 31 ltac:(lia)) as L3.
  pose proof (log2_bounds H 31 ltac:(lia)) as L4.
  apply (normal_weaken _ _ _ _ (-1074) 900) in Hsx; [|lia|lia].
  apply (normal_weaken _ _ _ _ (-1074) 900) in Hsy; [|lia|lia].
  destruct (scale_stamps_ok sx sy W H stamps [] Hsx Hsy) as (infos & -> & HF);
    [change (2 ^ 53) with 9007199254740992; change (2 ^ 31) with 2147483648 in *; lia
    |change (2 ^ 53) with 9007199254740992; change (2 ^ 31) with 2147483648 in *; lia
    |done|].
  rewrite app_nil_l.
  eexists _, dw, dh. split; [reflexivity|].
  unfold display_image. cbn [set_rects original_pil_image current_image_path tk_image
    detected_stamps_data displayed_stamp_rects_info].
  rewrite Hfit, Hf. cbn [tk_image displayed_stamp_rects_info].
  split; [reflexivity|]. split; [reflexivity|]. exact HF.
Qed.

(** C2: for a label of more than one pixel each way and detections whose
    boxes lie in the image, [draw_stamp_rectangles] returns and maps
    every detection, in list order, to a display box with ordered
    corners; a click at the point of the label where the centre of the
    box of a detection is shown (the centre shifted by the centring
    offset) is resolved by [on_image_click] to the first detection, in
    list order, whose box contains that centre: a detection at or before
    the one clicked, and that same detection whenever no earlier box
    contains the centre.  Sizes are below [2^31]. *)
Theorem round_trip_first_match vp a stamps W H :
  original_pil_image a = Some (W, H) →
  1 ≤ W < 2 ^ 31 → 1 ≤ H < 2 ^ 31 →
  1 < label_width vp < 2 ^ 31 → 1 < label_height vp < 2 ^ 31 →
  Forall (λ st, bbox_in_image W H (bbox st)) stamps →
  ∃ a' dw dh,
    draw_stamp_rectangles image_open vp stamps a = (Ok (), a') ∧
    tk_image a' = Some (dw, dh) ∧
    Forall2 (λ st info, original_data info = st ∧ ordered (scaled_bbox info))
      stamps (displayed_stamp_rects_info a') ∧
    ∀ i st, stamps !! i = Some st →
      ∃ x1 y1 x2 y2,
        scaled_bbox <$> displayed_stamp_rects_info a' !! i = Some (x1, y1, x2, y2) ∧
        let cx := (x1 + x2) `div` 2 in
        let cy := (y1 + y2) `div` 2 in
        ∃ k first box,
          (k ≤ i)%nat ∧ stamps !! k = Some first ∧
          displayed_stamp_rects_info a' !! k = Some box ∧
          original_data box = first ∧
          hit cx cy box = true ∧
          (∀ j earlier, (j < k)%nat →
             displayed_stamp_rects_info a' !! j = Some earlier →
             hit cx cy earlier = false) ∧
          on_image_click vp ((label_width vp - dw) `div` 2 + cx)
            ((label_height vp - dh) `div` 2 + cy) a' = Some first ∧
          ((∀ j earlier, (j < i)%nat →
              displayed_stamp_rects_info a' !! j = Some earlier →
              hit cx cy earlier = false) →
           k = i ∧ first = st).
Proof.
  intros Himg HW HH Hlw Hlh Hall.
  destruct (draw_stamp_rectangles_ok vp a stamps W H) as (a' & dw & dh & Hdraw & _ & Htk & HF);
    [done|done|done|done|done|done|].
  exists a', dw, dh. split; [done|]. split; [done|]. split; [exact HF|].
  intros i st Hi.
  destruct (Forall2_lookup_l _ _ _ _ _ HF Hi) as (info & Hinfo & Horig & Hord).
  destruct (scaled_bbox info) as [[[x1 y1] x2] y2] eqn:Hsb.
  exists x1, y1, x2, y2. rewrite Hinfo. cbn [fmap option_fmap option_map]. rewrite Hsb.
  split; [reflexivity|]. cbv zeta.
  set (cx := (x1 + x2) `div` 2). set (cy := (y1 + y2) `div` 2).
  assert (Hcentre : hit cx cy info = true).
  { pose proof (hit_center info) as Hc. rewrite Hsb in Hc. apply Hc. exact Hord. }
  destruct (List.find (hit cx cy) (displayed_stamp_rects_info a')) as [box|] eqn:Hfind.
  2:{ exfalso. pose proof (find_none _ _ Hfind info) as Hnone.
      rewrite Hnone in Hcentre; [discriminate|].
      apply list_elem_of_In. by eapply list_elem_of_lookup_2. }
  pose proof Hfind as Hfound.
  apply find_first_inv in Hfound as (k & Hk & Hhit & Hbefore).
  assert (Hki : (k ≤ i)%nat).
  { destruct (Nat.le_gt_cases k i) as [|Hlt]; [done|].
    rewrite (Hbefore i info Hlt Hinfo) in Hcentre. discriminate. }
  destruct (Forall2_lookup_r _ _ _ _ _ HF Hk) as (first & Hfirst & Hof & _).
  exists k, first, box.
  split; [exact Hki|]. split; [exact Hfirst|]. split; [exact Hk|].
  split; [exact Hof|]. split; [exact Hhit|]. split; [exact Hbefore|]. split.
  - unfold on_image_click. rewrite Htk.
    replace ((label_width vp - dw) `div` 2 + cx - (label_width vp - dw) `div` 2) with cx by lia.
    replace ((label_height vp - dh) `div` 2 + cy - (label_height vp - dh) `div` 2) with cy by lia.
    rewrite Hfind. cbn. by rewrite Hof.
  - intros Hnone.
    assert (k = i) as ->.
    { destruct (Nat.eq_dec k i) as [|Hne]; [done|]. exfalso.
      rewrite (Hnone k box ltac:(lia) Hk) in Hhit. discriminate. }
    split; [reflexivity|]. congruence.
Qed.

End Gui.

(** C1: with a label of one pixel or less the boxes are scaled for another
    size than the picture.  On the 400 by 300 sheet, with a label of 1
    by 1 in a frame of 800 by 560, [draw_stamp_rectangles] scales the
    boxes for a picture of 746 by 560 and [display_image], which it
    calls, shows a picture of 533 by 400.  The picture shows the first
    detection between (266, 106) and (467, 241), the stored box is
    (373, 149, 654, 337): a click at the centre of the detection as
    shown opens nothing, and a click on its left part opens the other
    detection. *)
Theorem boxes_scaled_for_parent_frame :
  let stamps := [Examples.sheet_stamp_B; Examples.sheet_stamp_A] in
  let drawn := draw_stamp_rectangles Examples.no_image Examples.vp_unmapped
                 stamps Examples.app_sheet in
  original_pil_image Examples.app_sheet = Some (400, 300) ∧
  label_width Examples.vp_unmapped ≤ 1 ∧
  display_image_size Examples.vp_unmapped (400, 300) = Ok (533, 400) ∧
  draw_scaled_size Examples.vp_unmapped (400, 300) = Ok (746, 560) ∧
  drawn.1 = Ok () ∧
  tk_image drawn.2 = Some (533, 400) ∧
  scaled_bbox <$> displayed_stamp_rects_info drawn.2
    = [(373, 149, 654, 337); (93, 93, 281, 375)] ∧
  (scale_x ← int_truediv 533 400; scale_y ← int_truediv 400 300;
   scale_bbox scale_x scale_y (bbox Examples.sheet_stamp_B))
    = Ok (266, 106, 467, 241) ∧
  on_image_click Examples.vp_laid_out
    ((780 - 533) `div` 2 + (266 + 467) `div` 2)
    ((522 - 400) `div` 2 + (106 + 241) `div` 2) drawn.2 = None ∧
  on_image_click Examples.vp_laid_out
    ((780 - 533) `div` 2 + 270) ((522 - 400) `div` 2 + 150) drawn.2
    = Some Examples.sheet_stamp_A.
Proof.
  cbv zeta.
  split; [reflexivity|]. split; [cbn; lia|].
  split; [vm_compute; reflexivity|]. split; [vm_compute; reflexivity|].
  split; [vm_compute; reflexivity|]. split; [vm_compute; reflexivity|].
  split; [vm_compute; reflexivity|]. split; [vm_compute; reflexivity|].
  split; vm_compute; reflexivity.
Qed.

(** A click at the centre of the box of the second of two overlapping
    detections opens the first. *)
Lemma center_click_opens_earlier_stamp :
  let drawn := draw_stamp_rectangles Examples.no_image Examples.vp_square
                 [Examples.stamp_A; Examples.stamp_B] Examples.app_square in
  drawn.1 = Ok () ∧
  tk_image drawn.2 = Some (200, 200) ∧
  scaled_bbox <$> displayed_stamp_rects_info drawn.2
    = [(0, 0, 100, 100); (40, 40, 140, 140)] ∧
  on_image_click Examples.vp_square ((40 + 140) `div` 2) ((40 + 140) `div` 2)
    drawn.2 = Some Examples.stamp_A ∧
  Examples.stamp_A ≠ Examples.stamp_B.
Proof.
  cbv zeta.
  split; [vm_compute; reflexivity|].
  split; [vm_compute; reflexivity|].
  split; [vm_compute; reflexivity|].
  split; [vm_compute; reflexivity|].
  discriminate.
Qed.

Lemma round_trip_first_match_witness :
  original_pil_image Examples.app_square = Some (200, 200) ∧
  1 ≤ 200 < 2 ^ 31 ∧
  (1 < label_width Examples.vp_square < 2 ^ 31 ∧
   1 < label_height Examples.vp_square < 2 ^ 31) ∧
  Forall (λ st, bbox_in_image 200 200 (bbox st))
    [Examples.stamp_A; Examples.stamp_B] ∧
  ∃ a' dw dh,
    draw_stamp_rectangles Examples.no_image Examples.vp_square
      [Examples.stamp_A; Examples.stamp_B] Examples.app_square
      = (Ok (), a') ∧
    tk_image a' = Some (dw, dh) ∧
    Forall2 (λ st info, original_data info = st ∧ ordered (scaled_bbox info))
      [Examples.stamp_A; Examples.stamp_B] (displayed_stamp_rects_info a') ∧
    ∀ i st, [Examples.stamp_A; Examples.stamp_B] !! i = Some st →
      ∃ x1 y1 x2 y2,
        scaled_bbox <$> displayed_stamp_rects_info a' !! i
          = Some (x1, y1, x2, y2) ∧
        let cx := (x1 + x2) `div` 2 in
        let cy := (y1 + y2) `div` 2 in
        ∃ k first box,
          (k ≤ i)%nat ∧
          [Examples.stamp_A; Examples.stamp_B] !! k = Some first ∧
          displayed_stamp_rects_info a' !! k = Some box ∧
          original_data box = first ∧
          hit cx cy box = true ∧
          (∀ j earlier, (j < k)%nat →
             displayed_stamp_rects_info a' !! j = Some earlier →
             hit cx cy earlier = false) ∧
          on_image_click Examples.vp_square
            ((label_width Examples.vp_square - dw) `div` 2 + cx)
            ((label_height Examples.vp_square - dh) `div` 2 + cy) a'
            = Some first ∧
          ((∀ j earlier, (j < i)%nat →
              displayed_stamp_rects_info a' !! j = Some earlier →
              hit cx cy earlier = false) →
           k = i ∧ first = st).
Proof.
  assert (H1 : original_pil_image Examples.app_square = Some (200, 200))
    by reflexivity.
  assert (H2 : 1 ≤ 200 < 2 ^ 31) by (change (2 ^ 31) with 2147483648; lia).
  assert (H4 : 1 < label_width Examples.vp_square < 2 ^ 31)
    by (change (2 ^ 31) with 2147483648; cbn; lia).
  assert (H5 : 1 < label_height Examples.vp_square < 2 ^ 31)
    by (change (2 ^ 31) with 2147483648; cbn; lia).
  assert (H6 : Forall (λ st, bbox_in_image 200 200 (bbox st))
                 [Examples.stamp_A; Examples.stamp_B])
    by (repeat constructor; cbn; lia).
  split; [exact H1|]. split; [exact H2|].
  split; [exact (conj H4 H5)|]. split; [exact H6|].
  exact (round_trip_first_match Examples.no_image Examples.vp_square
           Examples.app_square
           [Examples.stamp_A; Examples.stamp_B] 200 200
           H1 H2 H2 H4 H5 H6).
Defined.

End MainFacts.

(** ** Facts about the session in [main.py] *)

Module SessionFacts.

Import Rounding PyFacts ImageProcessing Main MainFacts Session.

Lemma scale_stamps_prefix sx sy stamps acc r infos :
  scale_stamps sx sy stamps acc = (r, infos) →
  ∃ new, infos = acc ++ new ∧ original_data <$> new `prefix_of` stamps.
Proof.
  revert acc. induction stamps as [|st stamps IH]; intros acc Hrun.
  - injection Hrun as <- <-. exists []. rewrite app_nil_r. done.
  - cbn [scale_stamps] in Hrun.
    destruct (scale_bbox sx sy (bbox st)) as [sb|e].
    + destruct (IH _ Hrun) as (new & -> & Hpre).
      exists ({| scaled_bbox := sb; original_data := st |} :: new).
      rewrite <- app_assoc. split; [reflexivity|].
      rewrite fmap_cons. cbn [original_data]. by apply prefix_cons.
    + injection Hrun as <- <-. exists []. rewrite app_nil_r.
      split; [reflexivity|apply prefix_nil].
Qed.

Lemma hit_member vp x y a st :
  on_image_click vp x y a = Some st →
  st ∈ original_data <$> displayed_stamp_rects_info a.
Proof.
  unfold on_image_click. destruct (tk_image a) as [[dw dh]|]; [|discriminate].
  destruct (List.find _ _) as [info|] eqn:Hfind; [|discriminate].
  intros [= <-]. apply list_elem_of_fmap_2.
  apply list_elem_of_In. apply find_some in Hfind as [Hin _]. exact Hin.
Qed.

(** The scaled image fits in the label and fills it in one
    direction. *)
Lemma fit_within_label label_w label_h img_w img_h :
  1 ≤ label_w < 2 ^ 31 → 1 ≤ label_h < 2 ^ 31 →
  1 ≤ img_w < 2 ^ 31 → 1 ≤ img_h < 2 ^ 31 →
  ∃ w h, fit label_w label_h img_w img_h = Ok (w, h) ∧
         1 ≤ w ≤ label_w ∧ 1 ≤ h ≤ label_h ∧
         (w = label_w ∨ h = label_h).
Proof.
  intros Hlw Hlh Hw Hh. unfold fit.
  assert (B31 : 2 ^ 31 < 2 ^ 53) by (apply Z.pow_lt_mono_r; lia).
  assert (B64 : 2 ^ 31 < 2 ^ 64) by (apply Z.pow_lt_mono_r; lia).
  destruct (int_truediv_normal img_w img_h) as (ar & -> & Har); [lia|lia|].
  pose proof (log2_bounds img_w 31 ltac:(lia)) as Hl1.
  pose proof (log2_bounds img_h 31 ltac:(lia)) as Hl2.
  apply (normal_weaken _ _ _ _ (-83) (-21)) in Har; [|lia|lia].
  cbn [mbind result_bind].
  assert (Hdiv : ∃ q, int_div_float label_w ar = Ok q ∧
                      normal q false (-52 - -21 - 53) (0 - -83 - 51)).
  { unfold int_div_float.
    destruct (float_of_int_normal label_w) as (fl & -> & Hfl); [lia|].
    cbn [mbind result_bind].
    apply (float_truediv_normal _ _ _ _ _ _ Hfl Har); lia. }
  destruct Hdiv as (q & Hq & Hqn). rewrite Hq. cbn [mbind result_bind].
  destruct (int_of_float_normal _ _ _ Hqn) as (nh & Hnh & Hnhb); [lia|].
  rewrite Hnh. cbn [mbind result_bind].
  destruct Har as (m & e & -> & Hm & He).
  destruct (Z.gtb_spec nh label_h) as [Hgt|Hle].
  - destruct (int_mul_float_spec label_h m e) as (p & Hp & Hi); [lia|lia|lia|].
    rewrite Hp. cbn [mbind result_bind mret result_ret]. rewrite Hi.
    cbn [mbind result_bind mret result_ret].
    eexists _, _; split; [reflexivity|].
    replace e with (- - e) in Hq, Hp, Hi by lia.
    pose proof (refit_width_le label_w label_h m (- e) q nh p _
                  Hlw Hlh Hm ltac:(lia) Hq Hnh Hgt Hp Hi) as Hfit.
    replace (- - e) with e in Hfit by lia. lia.
  - cbn [mbind result_bind mret result_ret].
    eexists _, _; split; [reflexivity|]. lia.
Qed.

(** A coordinate of the image, scaled, is within the scaled size. *)
Lemma scaled_le_size dw W c s z :
  1 ≤ dw < 2 ^ 31 → 1 ≤ W < 2 ^ 31 → 0 ≤ c ≤ W →
  int_truediv dw W = Ok s →
  (p ← int_mul_float c s; int_of_float p) = Ok z →
  0 ≤ z ≤ dw.
Proof.
  intros Hdw HW Hc Hs Hz.
  assert (B31 : 2 ^ 31 < 2 ^ 53) by (apply Z.pow_lt_mono_r; lia).
  assert (B64 : 2 ^ 31 < 2 ^ 64) by (apply Z.pow_lt_mono_r; lia).
  destruct (int_truediv_ulp dw W ltac:(lia) ltac:(lia))
    as (ms & es & u & v & Hs' & Hms & Hu & Hv & Hes & Hrange & Hlow & _).
  rewrite Hs' in Hs. injection Hs as <-.
  pose proof (log2_bounds dw 31 ltac:(lia)) as L1.
  pose proof (log2_bounds W 31 ltac:(lia)) as L2.
  destruct (Z.eq_dec c 0) as [->|Hc0].
  { rewrite int_mul_float_zero in Hz. injection Hz as <-. lia. }
  rewrite int_mul_float_pos in Hz by lia. injection Hz as <-.
  split.
  { apply shiftl_nonneg. unfold R53.
    assert (HN : 2 ^ 52 ≤ c * Z.pos ms) by nia.
    assert (52 ≤ Z.log2 (c * Z.pos ms)).
    { change 52 with (Z.log2 (2 ^ 52)). apply Z.log2_le_mono. lia. }
    pose proof (rne_range (c * Z.pos ms) (Z.log2 (c * Z.pos ms) + 1 - 53)
                  ltac:(lia) ltac:(lia)) as Hr.
    pose proof (pow2_pos (Z.log2 (c * Z.pos ms) + 1 - 53) ltac:(lia)).
    assert (0 ≤ c * Z.pos ms / 2 ^ (Z.log2 (c * Z.pos ms) + 1 - 53))
      by (apply Z.div_pos; lia).
    apply Z.mul_nonneg_nonneg; lia. }
  destruct (Z.le_gt_cases (Z.shiftl (R53 (c * Z.pos ms)) es) dw) as [|Hbig];
    [done|exfalso].
  set (k := u - v). assert (Hk : 21 ≤ k ≤ 83) by (subst k; lia).
  replace es with (- k) in Hbig by (subst k; lia).
  rewrite Z.shiftl_div_pow2 in Hbig by lia. replace (- - k) with k in Hbig by lia.
  pose proof (pow2_pos k ltac:(lia)) as Pk.
  pose proof (Z.mul_div_le (R53 (c * Z.pos ms)) (2 ^ k) Pk) as Hfl.
  assert (H3 : (dw + 1) * 2 ^ k ≤ R53 (c * Z.pos ms)) by nia.
  assert (Hmono : R53 (c * Z.pos ms) ≤ R53 (W * Z.pos ms))
    by (apply R53_mono; nia).
  pose proof (R53_le_succ (W * Z.pos ms) ltac:(nia)) as HR.
  assert (Hlow' : (Z.pos ms - 1) * W < dw * 2 ^ k).
  { replace u with (k + v) in Hlow by (subst k; lia).
    rewrite Z.pow_add_r, Z.mul_assoc in Hlow by lia.
    pose proof (pow2_pos v Hv).
    apply Z.mul_lt_mono_pos_r in Hlow; done. }
  change (2 ^ 52) with 4503599627370496 in *.
  change (2 ^ 31) with 2147483648 in *.
  set (Pk_ := 2 ^ k) in *. set (A := Z.pos ms) in *.
  set (R := R53 (c * A)) in *. set (R' := R53 (W * A)) in *.
  clearbody Pk_ A R R'.
  assert (S1 : (dw + 1) * Pk_ * 4503599627370496
               ≤ W * A * (4503599627370496 + 1)) by nia.
  assert (S2 : W * A ≤ dw * Pk_ + W - 1) by nia.
  assert (S3 : (4503599627370496 - 1) * W < dw * Pk_) by nia.
  assert (S4 : Pk_ * 4503599627370496 < 2 * dw * Pk_ + 2 * W) by nia.
  assert (S5 : Pk_ * (4503599627370496 - 2 * dw) < 2 * W) by nia.
  assert (S6 : 1 * (4503599627370496 - 2 * dw)
               ≤ Pk_ * (4503599627370496 - 2 * dw))
    by (apply Z.mul_le_mono_nonneg_r; lia).
  lia.
Qed.

Lemma scale_stamps_scaled sx sy stamps acc infos :
  scale_stamps sx sy stamps acc = (Ok (), infos) →
  ∃ new, infos = acc ++ new ∧
    Forall2 (λ st info, original_data info = st ∧
                        scale_bbox sx sy (bbox st) = Ok (scaled_bbox info))
      stamps new.
Proof.
  revert acc. induction stamps as [|st stamps IH]; intros acc Hrun.
  - injection Hrun as <-. exists []. rewrite app_nil_r. split; [done|constructor].
  - cbn [scale_stamps] in Hrun.
    destruct (scale_bbox sx sy (bbox st)) as [sb|e] eqn:Hsb; [|discriminate].
    destruct (IH _ Hrun) as (new & -> & HF).
    exists ({| scaled_bbox := sb; original_data := st |} :: new).
    rewrite <- app_assoc. split; [reflexivity|]. constructor; [|done].
    split; [reflexivity|exact Hsb].
Qed.

(** One coordinate in display space: [int(a * scale)]. *)
#[local] Abbreviation scaled s a := (p ← int_mul_float a s; int_of_float p).

Lemma scale_bbox_inv sx sy x y w h X1 Y1 X2 Y2 :
  scale_bbox sx sy (x, y, w, h) = Ok (X1, Y1, X2, Y2) →
  scaled sx x = Ok X1 ∧ scaled sy y = Ok Y1 ∧
  scaled sx (x + w) = Ok X2 ∧ scaled sy (y + h) = Ok Y2.
Proof.
  unfold scale_bbox.
  destruct (scaled sx x) as [x1|]; [|discriminate]. cbn [mbind result_bind].
  destruct (scaled sy y) as [y1|]; [|discriminate]. cbn [mbind result_bind].
  destruct (scaled sx (x + w)) as [x2|]; [|discriminate]. cbn [mbind result_bind].
  destruct (scaled sy (y + h)) as [y2|]; [|discriminate]. cbn [mbind result_bind].
  intros [= -> -> -> ->]. done.
Qed.

Lemma scaled_mono ms es a b za zb :
  0 ≤ a ≤ b → b < 2 ^ 53 → 2 ^ 52 ≤ Z.pos ms < 2 ^ 53 → -1074 ≤ es ≤ 900 →
  scaled (S754_finite false ms es) a = Ok za →
  scaled (S754_finite false ms es) b = Ok zb →
  za ≤ zb.
Proof.
  intros Hab Hb Hm He Ha Hb'.
  destruct (scaled_coordinate_mono a b ms es Hab Hb Hm He)
    as (za' & zb' & Ea & Eb & Hle).
  rewrite Ea in Ha. rewrite Eb in Hb'. injection Ha as <-. injection Hb' as <-.
  lia.
Qed.

(** The display box of a rectangle lies within that of a rectangle
    around it. *)
Lemma scale_bbox_within sx sy W H inner outer sbi sbo :
  normal sx false (-1074) 900 → normal sy false (-1074) 900 →
  W < 2 ^ 53 → H < 2 ^ 53 →
  bbox_in_image W H inner → bbox_in_image W H outer →
  within inner outer →
  scale_bbox sx sy inner = Ok sbi → scale_bbox sx sy outer = Ok sbo →
  sbo.1.1.1 ≤ sbi.1.1.1 ∧ sbo.1.1.2 ≤ sbi.1.1.2 ∧
  sbi.1.2 ≤ sbo.1.2 ∧ sbi.2 ≤ sbo.2.
Proof.
  intros (mx & ex & -> & Hmx & Hex) (my & ey & -> & Hmy & Hey) HW HH.
  destruct inner as [[[x y] w] h]. destruct outer as [[[x' y'] w'] h'].
  destruct sbi as [[[a1 b1] a2] b2]. destruct sbo as [[[c1 d1] c2] d2].
  intros (Hx & Hy & Hw & Hh & Hxw & Hyh) (Hx' & Hy' & Hw' & Hh' & Hxw' & Hyh').
  intros (Hi1 & Hi2 & Hi3 & Hi4) Hsi Hso. cbn [fst snd].
  apply scale_bbox_inv in Hsi as (E1 & E2 & E3 & E4).
  apply scale_bbox_inv in Hso as (F1 & F2 & F3 & F4).
  split; [apply (scaled_mono mx ex x' x); (done || lia)|].
  split; [apply (scaled_mono my ey y' y); (done || lia)|].
  split; [apply (scaled_mono mx ex (x + w) (x' + w')); (done || lia)|].
  apply (scaled_mono my ey (y + h) (y' + h')); (done || lia).
Qed.

Section Window.

Variable BASE_DIR : string.
Variable is_file : string → bool.
Variable path_suffix : string → string.
Variable path_stem : string → string.
Variable lower : string → string.
Variable copy2 : string → string → bool.
Variable uuid4_hex : nat → string.
Variable image_open : string → option (Z * Z).
Variable mkdir_ok : bool.
Variable imread : string → option image.
Variable outer_contours : image → list contour.
Variable contourArea : contour → float.
Variable arcLength : contour → bool → float.
Variable approxPolyDP : contour → float → bool → contour.
Variable boundingRect : contour → rect.
Variable imwrite : string → rect → write_outcome.

#[local] Abbreviation upload :=
  (handle_image_upload BASE_DIR is_file path_suffix path_stem lower copy2
     uuid4_hex).
#[local] Abbreviation open_dialog :=
  (open_image_dialog BASE_DIR is_file path_suffix path_stem lower copy2
     uuid4_hex image_open).
#[local] Abbreviation detect :=
  (detect_and_segment_stamps BASE_DIR path_stem mkdir_ok imread
     outer_contours contourArea arcLength approxPolyDP boundingRect imwrite
     uuid4_hex).
#[local] Abbreviation run_detection :=
  (run_stamp_detection BASE_DIR path_stem uuid4_hex image_open mkdir_ok
     imread outer_contours contourArea arcLength approxPolyDP boundingRect
     imwrite).
#[local] Abbreviation show := (display_image image_open).
#[local] Abbreviation draw := (draw_stamp_rectangles image_open).
#[local] Abbreviation click := on_image_click.

Lemma display_image_keeps_results vp p boxes a :
  detected_stamps_data (show vp p boxes a) = detected_stamps_data a ∧
  displayed_stamp_rects_info (show vp p boxes a)
    = displayed_stamp_rects_info a ∧
  current_image_path (show vp p boxes a) = current_image_path a.
Proof.
  unfold display_image.
  destruct boxes as [img|]; [|destruct (image_open p) as [img|]];
    try destruct (display_image_size vp img); done.
Qed.

Lemma draw_stamp_rectangles_results vp stamps a :
  detected_stamps_data (draw vp stamps a).2 = detected_stamps_data a ∧
  current_image_path (draw vp stamps a).2 = current_image_path a ∧
  (is_Some (original_pil_image a) →
   original_data <$> displayed_stamp_rects_info (draw vp stamps a).2
     `prefix_of` stamps).
Proof.
  unfold draw_stamp_rectangles.
  destruct (original_pil_image a) as [img|]; [|split; [done|split; [done|]]].
  2:{ intros [? ?]. discriminate. }
  destruct (_ ≫= _) as [[sx sy]|e]; cbn [snd set_rects detected_stamps_data
    current_image_path displayed_stamp_rects_info].
  - destruct (scale_stamps sx sy stamps []) as [[[]|e] infos] eqn:Hs;
      apply scale_stamps_prefix in Hs as (new & -> & Hpre); cbn [app snd].
    + destruct (display_image_keeps_results vp
                  (default "" (current_image_path a))
                  (Some img) (set_rects (set_rects a []) new))
        as (-> & -> & ->). done.
    + done.
  - split; [done|]. split; [done|]. intros _. apply prefix_nil.
Qed.

Lemma open_image_dialog_results vp filepath s w :
  detected_stamps_data (attributes (open_dialog vp filepath s w).1) = [] ∧
  displayed_stamp_rects_info (attributes (open_dialog vp filepath s w).1)
    = [].
Proof.
  unfold open_image_dialog.
  destruct (bool_decide (filepath = "")); [done|].
  destruct (upload filepath w) as [[e|p] w']; [done|].
  cbn [fst attributes].
  destruct (display_image_keeps_results vp p None
              (set_current_image_path (clear_results (attributes s)) p))
    as (-> & -> & _). done.
Qed.

(** X11: opening an image discards the detections.  However the dialog
    ends, by a cancel, a failed upload or a new image, no detection is
    kept and no click resolves to one; when the dialog is cancelled the
    image on display and the current path stay as they are and no token
    is drawn. *)
Theorem open_image_dialog_discards_detections vp filepath s w :
  let s' := (open_dialog vp filepath s w).1 in
  detected_stamps_data (attributes s') = [] ∧
  (∀ vp' x y, on_image_click vp' x y (attributes s') = None) ∧
  (filepath = "" →
   (open_dialog vp filepath s w).2 = w ∧
   tk_image (attributes s') = tk_image (attributes s) ∧
   original_pil_image (attributes s') = original_pil_image (attributes s) ∧
   current_image_path (attributes s') = current_image_path (attributes s)).
Proof.
  cbv zeta. destruct (open_image_dialog_results vp filepath s w) as [Hd Hr].
  split; [done|]. split.
  - intros vp' x y. unfold on_image_click. rewrite Hr.
    destruct (tk_image _) as [[? ?]|]; reflexivity.
  - intros ->. unfold open_image_dialog.
    rewrite bool_decide_eq_true_2 by done. done.
Qed.

(** X12: a click resolves to a current detection only.  The detections
    behind the boxes that answer clicks are the first ones of the
    current list, in its order: so it is at start, and so it stays
    through [open_image_dialog] and [run_stamp_detection]; a click then
    resolves to a member of [detected_stamps_data]. *)
Theorem clicks_resolve_to_current_detections :
  boxes_match_detections (attributes startup) ∧
  (∀ vp filepath s w,
     boxes_match_detections (attributes (open_dialog vp filepath s w).1)) ∧
  (∀ vp a w,
     boxes_match_detections a →
     boxes_match_detections (run_detection vp a w).1) ∧
  (∀ vp x y a st,
     boxes_match_detections a → click vp x y a = Some st →
     st ∈ detected_stamps_data a).
Proof.
  unfold boxes_match_detections. split; [apply prefix_nil|]. split.
  { intros vp filepath s w.
    destruct (open_image_dialog_results vp filepath s w) as [-> ->].
    apply prefix_nil. }
  split.
  - intros vp a w Ha. unfold run_stamp_detection.
    destruct (current_image_path a) as [p|]; [|done].
    destruct (original_pil_image a) as [img|] eqn:Himg; [|done].
    destruct (bool_decide (p = "")); [done|].
    destruct (detect p w) as [[l|e] w']; cbn [fst]; [|apply prefix_nil].
    set (a1 := set_detected_stamps_data (clear_results a) l).
    change (detected_stamps_data a1) with l.
    destruct l as [|st l]; cbn [fst].
    + destruct (display_image_keeps_results vp p None a1) as (-> & -> & _).
      apply prefix_nil.
    + destruct (draw_stamp_rectangles_results vp (st :: l) a1)
        as (-> & _ & Hpre).
      apply Hpre. subst a1. cbn. rewrite Himg. eauto.
  - intros vp x y a st Ha Hclick. apply hit_member in Hclick.
    destruct Ha as [k ->]. apply elem_of_app. by left.
Qed.

(** The size, the scale factors and the boxes of a drawing. *)
Lemma draw_stamp_rectangles_geometry vp a stamps W H :
  original_pil_image a = Some (W, H) →
  1 ≤ W < 2 ^ 31 → 1 ≤ H < 2 ^ 31 →
  1 < label_width vp < 2 ^ 31 → 1 < label_height vp < 2 ^ 31 →
  Forall (λ st, bbox_in_image W H (bbox st)) stamps →
  ∃ a' dw dh sx sy,
    draw vp stamps a = (Ok (), a') ∧
    tk_image a' = Some (dw, dh) ∧
    1 ≤ dw ≤ label_width vp ∧ 1 ≤ dh ≤ label_height vp ∧
    (dw = label_width vp ∨ dh = label_height vp) ∧
    int_truediv dw W = Ok sx ∧ int_truediv dh H = Ok sy ∧
    normal sx false (-1074) 900 ∧ normal sy false (-1074) 900 ∧
    Forall2 (λ st info, original_data info = st ∧
                        scale_bbox sx sy (bbox st) = Ok (scaled_bbox info))
      stamps (displayed_stamp_rects_info a').
Proof.
  intros Himg HW HH Hlw Hlh Hall.
  unfold draw_stamp_rectangles. rewrite Himg.
  assert (Hfit : draw_scaled_size vp (W, H)
                 = fit (label_width vp) (label_height vp) W H)
    by (apply draw_scaled_size_fit; lia).
  assert (Hfit' : display_image_size vp (W, H)
                  = fit (label_width vp) (label_height vp) W H)
    by (apply display_image_size_fit; lia).
  destruct (fit_within_label (label_width vp) (label_height vp) W H)
    as (dw & dh & Hf & Hdw & Hdh & Hfill); [lia|lia|lia|lia|].
  rewrite Hfit, Hf. cbn [mbind result_bind fst snd].
  assert (B31 : 2 ^ 31 < 2 ^ 64) by (apply Z.pow_lt_mono_r; lia).
  destruct (int_truediv_normal dw W) as (sx & Esx & Hsx); [lia|lia|].
  destruct (int_truediv_normal dh H) as (sy & Esy & Hsy); [lia|lia|].
  rewrite Esx, Esy. cbn [mbind result_bind mret result_ret].
  pose proof (log2_bounds dw 64 ltac:(lia)) as L1.
  pose proof (log2_bounds W 31 ltac:(lia)) as L2.
  pose proof (log2_bounds dh 31 ltac:(lia)) as L3.
  pose proof (log2_bounds H 31 ltac:(lia)) as L4.
  apply (normal_weaken _ _ _ _ (-1074) 900) in Hsx; [|lia|lia].
  apply (normal_weaken _ _ _ _ (-1074) 900) in Hsy; [|lia|lia].
  assert (B53 : 2 ^ 31 < 2 ^ 53) by (apply Z.pow_lt_mono_r; lia).
  destruct (scale_stamps_ok sx sy W H stamps [] Hsx Hsy) as (infos & Hs & _);
    [lia|lia|done|].
  rewrite Hs. apply scale_stamps_scaled in Hs as (new & Hnew & HF).
  cbn [app] in *. subst new.
  eexists _, dw, dh, sx, sy. split; [reflexivity|].
  unfold display_image. cbn [set_rects original_pil_image current_image_path
    tk_image detected_stamps_data displayed_stamp_rects_info].
  rewrite Hfit', Hf. cbn [tk_image displayed_stamp_rects_info].
  split; [reflexivity|]. do 7 (split; [done|]). exact HF.
Qed.

(** X13: a detection whose box lies within the box of an earlier one is
    never opened.  After the boxes are drawn, whatever the click and
    whatever the size of the label then, [on_image_click] does not
    resolve to the later detection: every point of its display box is
    in the display box of the earlier one, which is tried first. *)
Theorem enclosed_detection_is_never_opened vp a stamps W H i j sti stj :
  original_pil_image a = Some (W, H) →
  1 ≤ W < 2 ^ 31 → 1 ≤ H < 2 ^ 31 →
  1 < label_width vp < 2 ^ 31 → 1 < label_height vp < 2 ^ 31 →
  Forall (λ st, bbox_in_image W H (bbox st)) stamps →
  NoDup stamps →
  stamps !! i = Some sti → stamps !! j = Some stj → (i < j)%nat →
  within (bbox stj) (bbox sti) →
  ∀ vp' x y, click vp' x y (draw vp stamps a).2 ≠ Some stj.
Proof.
  intros Himg HW HH Hlw Hlh Hall Hnd Hi Hj Hij Hin vp' x y Hclick.
  destruct (draw_stamp_rectangles_geometry vp a stamps W H)
    as (a' & dw & dh & sx & sy & Hdraw & Htk & _ & _ & _ & _ & _ & Hsx & Hsy & HF);
    try done.
  rewrite Hdraw in Hclick. cbn [snd] in Hclick.
  unfold on_image_click in Hclick. rewrite Htk in Hclick.
  destruct (List.find _ _) as [info|] eqn:Hfind; [|discriminate].
  injection Hclick as Horig.
  apply find_first_inv in Hfind as (k & Hk & Hhit & Hfirst).
  destruct (Forall2_lookup_r _ _ _ _ _ HF Hk) as (st & Hst & Hst' & Hsb).
  assert (k = j) as ->.
  { apply (NoDup_lookup stamps k j stj); [done| |done]. congruence. }
  assert (st = stj) as -> by congruence.
  destruct (Forall2_lookup_l _ _ _ _ _ HF Hi) as (info_i & Hinfo_i & _ & Hsbi).
  pose proof (Hfirst i info_i Hij Hinfo_i) as Hmiss.
  assert (B53 : 2 ^ 31 < 2 ^ 53) by (apply Z.pow_lt_mono_r; lia).
  pose proof (proj1 (Forall_lookup _ _) Hall _ _ Hi) as Hbi.
  pose proof (proj1 (Forall_lookup _ _) Hall _ _ Hj) as Hbj.
  destruct (scale_bbox_within sx sy W H (bbox stj) (bbox sti)
              (scaled_bbox info) (scaled_bbox info_i))
    as (H1 & H2 & H3 & H4); try done; try lia.
  unfold hit in Hhit, Hmiss.
  destruct (scaled_bbox info) as [[[a1 b1] a2] b2].
  destruct (scaled_bbox info_i) as [[[c1 d1] c2] d2].
  cbn [fst snd] in *.
  rewrite !andb_true_iff, !Z.leb_le in Hhit.
  assert (Hyes : (c1 <=? x - (label_width vp' - dw) `div` 2)
                 && (x - (label_width vp' - dw) `div` 2 <=? c2)
                 && (d1 <=? y - (label_height vp' - dh) `div` 2)
                 && (y - (label_height vp' - dh) `div` 2 <=? d2) = true).
  { rewrite !andb_true_iff, !Z.leb_le. lia. }
  congruence.
Qed.

(** X14: what a detection run leaves in the window.  With an image
    open, the tokens drawn and the lines printed are those of
    [detect_and_segment_stamps]; when it raises, no detection and no box
    is kept and the picture stays; when it returns, its list is kept
    and, the boxes lying in the image, each detection has its box, in
    the order of the list. *)
Theorem run_stamp_detection_outcome vp a w p W H :
  current_image_path a = Some p → p ≠ "" →
  original_pil_image a = Some (W, H) →
  1 ≤ W < 2 ^ 31 → 1 ≤ H < 2 ^ 31 →
  1 < label_width vp < 2 ^ 31 → 1 < label_height vp < 2 ^ 31 →
  let a' := (run_detection vp a w).1 in
  (run_detection vp a w).2 = (detect p w).2 ∧
  match (detect p w).1 with
  | Raise _ =>
      detected_stamps_data a' = [] ∧ displayed_stamp_rects_info a' = [] ∧
      tk_image a' = tk_image a ∧ current_image_path a' = Some p
  | Ok l =>
      detected_stamps_data a' = l ∧ current_image_path a' = Some p ∧
      (Forall (λ st, bbox_in_image W H (bbox st)) l →
       Forall2 (λ st info, original_data info = st ∧
                           ordered (scaled_bbox info))
         l (displayed_stamp_rects_info a'))
  end.
Proof.
  intros Hp Hne Himg HW HH Hlw Hlh. cbv zeta.
  unfold run_stamp_detection. rewrite Hp, Himg.
  rewrite bool_decide_eq_false_2 by done.
  destruct (detect p w) as [[l|e] w']; cbn [fst snd]; [|done].
  set (a1 := set_detected_stamps_data (clear_results a) l).
  change (detected_stamps_data a1) with l.
  destruct l as [|st l]; cbn [fst snd].
  - split; [reflexivity|].
    destruct (display_image_keeps_results vp p None a1) as (-> & -> & ->).
    split; [reflexivity|]. split; [exact Hp|]. intros _. constructor.
  - split; [reflexivity|].
    destruct (draw_stamp_rectangles_results vp (st :: l) a1) as (-> & -> & _).
    split; [reflexivity|]. split; [exact Hp|]. intros Hall.
    destruct (draw_stamp_rectangles_ok image_open vp a1 (st :: l) W H)
      as (a' & dw & dh & -> & _ & _ & HF); done.
Qed.

(** X15: two uploads of one file are stored under different names when
    they draw different tokens.  A path is returned only for a file that
    exists and whose suffix, in lower case, is allowed; it lies in the
    directory of uploads and keeps the stem and the suffix of the
    source; one token is drawn. *)
Theorem uploads_of_one_file_get_distinct_names
    image_path w1 w2 p1 p2 w1' w2' :
  upload image_path w1 = (inr p1, w1') →
  upload image_path w2 = (inr p2, w2') →
  uuid4_hex (uuid_count w1) ≠ uuid4_hex (uuid_count w2) →
  p1 ≠ p2 ∧
  is_file image_path = true ∧
  lower (path_suffix image_path) ∈ ALLOWED_EXTENSIONS ∧
  p1 = UPLOADED_IMAGES_DIR BASE_DIR +:+ "/" +:+ path_stem image_path +:+
       "_" +:+ uuid4_hex (uuid_count w1) +:+ path_suffix image_path ∧
  uuid_count w1' = S (uuid_count w1).
Proof.
  unfold handle_image_upload. intros H1 H2 Hne.
  destruct (is_file image_path); cbn [negb] in *; [|discriminate].
  destruct (bool_decide _) eqn:Hs; cbn [negb] in *; [|discriminate].
  apply bool_decide_eq_true_1 in Hs.
  destruct (copy2 image_path _); [|discriminate].
  destruct (copy2 image_path _); [|discriminate].
  injection H1 as <- <-. injection H2 as <- <-.
  split; [|done].
  intros E. apply Hne. eapply ImageProcessingFacts.string_app4_inj, E.
Qed.

(** X16: the boxes lie in the picture.  After the boxes are drawn the
    picture is within the label and fills it in one direction, every
    stored box lies within the picture, and a click beside the picture
    resolves to nothing. *)
Theorem boxes_lie_in_the_picture vp a stamps W H :
  original_pil_image a = Some (W, H) →
  1 ≤ W < 2 ^ 31 → 1 ≤ H < 2 ^ 31 →
  1 < label_width vp < 2 ^ 31 → 1 < label_height vp < 2 ^ 31 →
  Forall (λ st, bbox_in_image W H (bbox st)) stamps →
  ∃ a' dw dh,
    draw vp stamps a = (Ok (), a') ∧
    tk_image a' = Some (dw, dh) ∧
    1 ≤ dw ≤ label_width vp ∧ 1 ≤ dh ≤ label_height vp ∧
    (dw = label_width vp ∨ dh = label_height vp) ∧
    Forall (λ info,
              (0 ≤ (scaled_bbox info).1.1.1 ≤ (scaled_bbox info).1.2 ∧
               (scaled_bbox info).1.2 ≤ dw) ∧
              (0 ≤ (scaled_bbox info).1.1.2 ≤ (scaled_bbox info).2 ∧
               (scaled_bbox info).2 ≤ dh))
      (displayed_stamp_rects_info a') ∧
    ∀ x y,
      let ax := x - (label_width vp - dw) `div` 2 in
      let ay := y - (label_height vp - dh) `div` 2 in
      ax < 0 ∨ dw < ax ∨ ay < 0 ∨ dh < ay →
      click vp x y a' = None.
Proof.
  intros Himg HW HH Hlw Hlh Hall.
  destruct (draw_stamp_rectangles_geometry vp a stamps W H)
    as (a' & dw & dh & sx & sy & Hdraw & Htk & Hdw & Hdh & Hfill & Esx & Esy
        & Hsx & Hsy & HF); try done.
  exists a', dw, dh. do 5 (split; [done|]).
  assert (B53 : 2 ^ 31 < 2 ^ 53) by (apply Z.pow_lt_mono_r; lia).
  assert (Hin : Forall (λ info,
              (0 ≤ (scaled_bbox info).1.1.1 ≤ (scaled_bbox info).1.2 ∧
               (scaled_bbox info).1.2 ≤ dw) ∧
              (0 ≤ (scaled_bbox info).1.1.2 ≤ (scaled_bbox info).2 ∧
               (scaled_bbox info).2 ≤ dh))
      (displayed_stamp_rects_info a')).
  { apply Forall_lookup. intros i info Hi.
    destruct (Forall2_lookup_r _ _ _ _ _ HF Hi) as (st & Hst & _ & Hsb).
    pose proof (proj1 (Forall_lookup _ _) Hall _ _ Hst) as Hb. cbv beta in Hb.
    destruct (scale_bbox_ordered sx sy (bbox st) W H Hsx Hsy) as (sb & Hsb' & Hord);
      [lia|lia|done|].
    rewrite Hsb in Hsb'. injection Hsb' as <-.
    destruct (bbox st) as [[[bx by_] bw] bh].
    destruct (scaled_bbox info) as [[[x1 y1] x2] y2].
    destruct Hb as (Hx & Hy & Hw & Hh & Hxw & Hyh).
    apply scale_bbox_inv in Hsb as (E1 & E2 & E3 & E4). cbn [fst snd].
    unfold ordered in Hord. cbn [fst snd] in Hord.
    pose proof (scaled_le_size dw W bx sx x1 ltac:(lia) ltac:(lia)
                  ltac:(lia) Esx E1).
    pose proof (scaled_le_size dh H by_ sy y1 ltac:(lia) ltac:(lia)
                  ltac:(lia) Esy E2).
    pose proof (scaled_le_size dw W (bx + bw) sx x2 ltac:(lia) ltac:(lia)
                  ltac:(lia) Esx E3).
    pose proof (scaled_le_size dh H (by_ + bh) sy y2 ltac:(lia) ltac:(lia)
                  ltac:(lia) Esy E4).
    lia. }
  split; [exact Hin|].
  intros x y ax ay Hout. unfold on_image_click. rewrite Htk. fold ax ay.
  destruct (List.find _ _) as [info|] eqn:Hfind; [exfalso|reflexivity].
  apply find_some in Hfind as [Hmem Hhit].
  apply list_elem_of_In in Hmem.
  pose proof (proj1 (Forall_forall _ _) Hin _ Hmem) as Hb.
  unfold hit in Hhit. cbv beta in Hb.
  destruct (scaled_bbox info) as [[[x1 y1] x2] y2]. cbn [fst snd] in Hb.
  rewrite !andb_true_iff, !Z.leb_le in Hhit. subst ax ay. lia.
Qed.

(** X17: the picture on display fits in the label.  [display_image] of a
    path that opens stores the image and shows it at a size within the
    label, or within 600 by 400 while the label is not laid out, that
    fills the label in one direction. *)
Theorem displayed_picture_fits vp p a W H :
  image_open p = Some (W, H) →
  1 ≤ W < 2 ^ 31 → 1 ≤ H < 2 ^ 31 →
  label_width vp < 2 ^ 31 → label_height vp < 2 ^ 31 →
  let a' := show vp p None a in
  let room :=
    if (label_width vp <=? 1) || (label_height vp <=? 1) then (600, 400)
    else (label_width vp, label_height vp) in
  original_pil_image a' = Some (W, H) ∧
  ∃ dw dh, tk_image a' = Some (dw, dh) ∧
           1 ≤ dw ≤ room.1 ∧ 1 ≤ dh ≤ room.2 ∧
           (dw = room.1 ∨ dh = room.2).
Proof.
  intros Hopen HW HH Hlw Hlh. cbv zeta.
  unfold display_image, display_image_size. rewrite Hopen.
  assert (B : 600 < 2 ^ 31) by (change (2 ^ 31) with 2147483648; lia).
  set (room := if (label_width vp <=? 1) || (label_height vp <=? 1)
               then (600, 400) else (label_width vp, label_height vp)).
  assert (Hroom : 1 ≤ room.1 < 2 ^ 31 ∧ 1 ≤ room.2 < 2 ^ 31).
  { subst room. destruct (Z.leb_spec (label_width vp) 1);
      destruct (Z.leb_spec (label_height vp) 1); cbn [orb fst snd]; lia. }
  destruct room as [lw lh]. cbn [fst snd] in *.
  destruct (fit_within_label lw lh W H) as (dw & dh & -> & Hdw & Hdh & Hfill);
    [lia|lia|lia|lia|].
  cbn [original_pil_image tk_image]. split; [reflexivity|].
  exists dw, dh. done.
Qed.

End Window.

(** *** Closed instances *)

Lemma enclosed_detection_is_never_opened_witness :
  original_pil_image Examples.app_sheet = Some (400, 300) ∧
  (1 ≤ 400 < 2 ^ 31 ∧ 1 ≤ 300 < 2 ^ 31) ∧
  (1 < label_width Examples.vp_laid_out < 2 ^ 31 ∧
   1 < label_height Examples.vp_laid_out < 2 ^ 31) ∧
  Forall (λ st, bbox_in_image 400 300 (bbox st))
    [Examples.sheet_stamp_B; Examples.sheet_stamp_A;
     Examples.sheet_stamp_inner] ∧
  NoDup [Examples.sheet_stamp_B; Examples.sheet_stamp_A;
         Examples.sheet_stamp_inner] ∧
  within (bbox Examples.sheet_stamp_inner) (bbox Examples.sheet_stamp_A) ∧
  on_image_click Examples.vp_laid_out 181 165
    (draw_stamp_rectangles Examples.image_open Examples.vp_laid_out
       [Examples.sheet_stamp_B; Examples.sheet_stamp_A;
        Examples.sheet_stamp_inner] Examples.app_sheet).2
    = Some Examples.sheet_stamp_A ∧
  on_image_click Examples.vp_laid_out 181 165
    (draw_stamp_rectangles Examples.image_open Examples.vp_laid_out
       [Examples.sheet_stamp_B; Examples.sheet_stamp_A;
        Examples.sheet_stamp_inner] Examples.app_sheet).2
    ≠ Some Examples.sheet_stamp_inner.
Proof.
  assert (H1 : original_pil_image Examples.app_sheet = Some (400, 300))
    by reflexivity.
  assert (H2 : 1 ≤ 400 < 2 ^ 31) by (change (2 ^ 31) with 2147483648; lia).
  assert (H3 : 1 ≤ 300 < 2 ^ 31) by (change (2 ^ 31) with 2147483648; lia).
  assert (H4 : 1 < label_width Examples.vp_laid_out < 2 ^ 31)
    by (change (2 ^ 31) with 2147483648; cbn; lia).
  assert (H5 : 1 < label_height Examples.vp_laid_out < 2 ^ 31)
    by (change (2 ^ 31) with 2147483648; cbn; lia).
  assert (H6 : Forall (λ st, bbox_in_image 400 300 (bbox st))
                 [Examples.sheet_stamp_B; Examples.sheet_stamp_A;
                  Examples.sheet_stamp_inner])
    by (repeat constructor; cbn; lia).
  assert (H7 : NoDup [Examples.sheet_stamp_B; Examples.sheet_stamp_A;
                      Examples.sheet_stamp_inner]).
  { rewrite !NoDup_cons, !not_elem_of_cons.
    repeat split; try apply NoDup_nil_2; try apply not_elem_of_nil;
      intros E; apply (f_equal bbox) in E; discriminate E. }
  assert (H8 : [Examples.sheet_stamp_B; Examples.sheet_stamp_A;
                Examples.sheet_stamp_inner] !! 1%nat
               = Some Examples.sheet_stamp_A) by reflexivity.
  assert (H9 : [Examples.sheet_stamp_B; Examples.sheet_stamp_A;
                Examples.sheet_stamp_inner] !! 2%nat
               = Some Examples.sheet_stamp_inner) by reflexivity.
  assert (H10 : (1 < 2)%nat) by lia.
  assert (H11 : within (bbox Examples.sheet_stamp_inner)
                  (bbox Examples.sheet_stamp_A)) by (cbn; lia).
  split; [exact H1|]. split; [exact (conj H2 H3)|].
  split; [exact (conj H4 H5)|]. split; [exact H6|]. split; [exact H7|].
  split; [exact H11|]. split; [vm_compute; reflexivity|].
  exact (enclosed_detection_is_never_opened Examples.image_open
           Examples.vp_laid_out Examples.app_sheet
           [Examples.sheet_stamp_B; Examples.sheet_stamp_A;
            Examples.sheet_stamp_inner] 400 300 1 2
           Examples.sheet_stamp_A Examples.sheet_stamp_inner
           H1 H2 H3 H4 H5 H6 H7 H8 H9 H10 H11 Examples.vp_laid_out 181 165).
Defined.

Lemma boxes_lie_in_the_picture_witness :
  original_pil_image Examples.app_sheet = Some (400, 300) ∧
  (1 ≤ 400 < 2 ^ 31 ∧ 1 ≤ 300 < 2 ^ 31) ∧
  (1 < label_width Examples.vp_laid_out < 2 ^ 31 ∧
   1 < label_height Examples.vp_laid_out < 2 ^ 31) ∧
  Forall (λ st, bbox_in_image 400 300 (bbox st))
    [Examples.sheet_stamp_B; Examples.sheet_stamp_A] ∧
  ∃ a' dw dh,
    draw_stamp_rectangles Examples.image_open Examples.vp_laid_out
      [Examples.sheet_stamp_B; Examples.sheet_stamp_A] Examples.app_sheet
      = (Ok (), a') ∧
    tk_image a' = Some (dw, dh) ∧
    1 ≤ dw ≤ label_width Examples.vp_laid_out ∧
    1 ≤ dh ≤ label_height Examples.vp_laid_out ∧
    (dw = label_width Examples.vp_laid_out ∨
     dh = label_height Examples.vp_laid_out) ∧
    Forall (λ info,
              (0 ≤ (scaled_bbox info).1.1.1 ≤ (scaled_bbox info).1.2 ∧
               (scaled_bbox info).1.2 ≤ dw) ∧
              (0 ≤ (scaled_bbox info).1.1.2 ≤ (scaled_bbox info).2 ∧
               (scaled_bbox info).2 ≤ dh))
      (displayed_stamp_rects_info a') ∧
    ∀ x y,
      let ax := x - (label_width Examples.vp_laid_out - dw) `div` 2 in
      let ay := y - (label_height Examples.vp_laid_out - dh) `div` 2 in
      ax < 0 ∨ dw < ax ∨ ay < 0 ∨ dh < ay →
      on_image_click Examples.vp_laid_out x y a' = None.
Proof.
  assert (H1 : original_pil_image Examples.app_sheet = Some (400, 300))
    by reflexivity.
  assert (H2 : 1 ≤ 400 < 2 ^ 31) by (change (2 ^ 31) with 2147483648; lia).
  assert (H3 : 1 ≤ 300 < 2 ^ 31) by (change (2 ^ 31) with 2147483648; lia).
  assert (H4 : 1 < label_width Examples.vp_laid_out < 2 ^ 31)
    by (change (2 ^ 31) with 2147483648; cbn; lia).
  assert (H5 : 1 < label_height Examples.vp_laid_out < 2 ^ 31)
    by (change (2 ^ 31) with 2147483648; cbn; lia).
  assert (H6 : Forall (λ st, bbox_in_image 400 300 (bbox st))
                 [Examples.sheet_stamp_B; Examples.sheet_stamp_A])
    by (repeat constructor; cbn; lia).
  split; [exact H1|]. split; [exact (conj H2 H3)|].
  split; [exact (conj H4 H5)|]. split; [exact H6|].
  exact (boxes_lie_in_the_picture Examples.image_open Examples.vp_laid_out
           Examples.app_sheet
           [Examples.sheet_stamp_B; Examples.sheet_stamp_A] 400 300
           H1 H2 H3 H4 H5 H6).
Defined.

Lemma displayed_picture_fits_witness :
  Examples.image_open Sheet.sheet_path = Some (400, 300) ∧
  (1 ≤ 400 < 2 ^ 31 ∧ 1 ≤ 300 < 2 ^ 31) ∧
  (label_width Examples.vp_unmapped < 2 ^ 31 ∧
   label_height Examples.vp_unmapped < 2 ^ 31) ∧
  tk_image (display_image Examples.image_open Examples.vp_unmapped
              Sheet.sheet_path None Examples.app_square) = Some (533, 400) ∧
  original_pil_image
    (display_image Examples.image_open Examples.vp_unmapped
       Sheet.sheet_path None Examples.app_square) = Some (400, 300) ∧
  ∃ dw dh,
    tk_image (display_image Examples.image_open Examples.vp_unmapped
                Sheet.sheet_path None Examples.app_square) = Some (dw, dh) ∧
    1 ≤ dw ≤ 600 ∧ 1 ≤ dh ≤ 400 ∧ (dw = 600 ∨ dh = 400).
Proof.
  assert (H1 : Examples.image_open Sheet.sheet_path = Some (400, 300))
    by reflexivity.
  assert (H2 : 1 ≤ 400 < 2 ^ 31) by (change (2 ^ 31) with 2147483648; lia).
  assert (H3 : 1 ≤ 300 < 2 ^ 31) by (change (2 ^ 31) with 2147483648; lia).
  assert (H4 : label_width Examples.vp_unmapped < 2 ^ 31)
    by (change (2 ^ 31) with 2147483648; cbn; lia).
  assert (H5 : label_height Examples.vp_unmapped < 2 ^ 31)
    by (change (2 ^ 31) with 2147483648; cbn; lia).
  split; [exact H1|]. split; [exact (conj H2 H3)|].
  split; [exact (conj H4 H5)|]. split; [vm_compute; reflexivity|].
  exact (displayed_picture_fits Examples.image_open Examples.vp_unmapped
           Sheet.sheet_path Examples.app_square 400 300 H1 H2 H3 H4 H5).
Defined.

Lemma run_stamp_detection_outcome_witness :
  current_image_path Examples.app_sheet = Some Sheet.sheet_path ∧
  Sheet.sheet_path ≠ "" ∧
  original_pil_image Examples.app_sheet = Some (400, 300) ∧
  (1 ≤ 400 < 2 ^ 31 ∧ 1 ≤ 300 < 2 ^ 31) ∧
  (1 < label_width Examples.vp_laid_out < 2 ^ 31 ∧
   1 < label_height Examples.vp_laid_out < 2 ^ 31) ∧
  (Examples.detect_sheet cv_boundingRect Examples.imwrite_ok
     Sheet.sheet_path Sheet.world0).1
    = Ok [Examples.sheet_stamp_B; Examples.sheet_stamp_A] ∧
  let run :=
    run_stamp_detection "/app" Sheet.path_stem Sheet.uuid4_hex
      Examples.image_open true Sheet.imread Sheet.outer_contours
      Sheet.contourArea Sheet.arcLength Sheet.approxPolyDP cv_boundingRect
      Examples.imwrite_ok Examples.vp_laid_out Examples.app_sheet
      Sheet.world0 in
  run.2 = (Examples.detect_sheet cv_boundingRect Examples.imwrite_ok
             Sheet.sheet_path Sheet.world0).2 ∧
  match (Examples.detect_sheet cv_boundingRect Examples.imwrite_ok
           Sheet.sheet_path Sheet.world0).1 with
  | Raise _ =>
      detected_stamps_data run.1 = [] ∧
      displayed_stamp_rects_info run.1 = [] ∧
      tk_image run.1 = tk_image Examples.app_sheet ∧
      current_image_path run.1 = Some Sheet.sheet_path
  | Ok l =>
      detected_stamps_data run.1 = l ∧
      current_image_path run.1 = Some Sheet.sheet_path ∧
      (Forall (λ st, bbox_in_image 400 300 (bbox st)) l →
       Forall2 (λ st info, original_data info = st ∧
                           ordered (scaled_bbox info))
         l (displayed_stamp_rects_info run.1))
  end.
Proof.
  assert (H0 : current_image_path Examples.app_sheet = Some Sheet.sheet_path)
    by reflexivity.
  assert (Hne : Sheet.sheet_path ≠ "") by discriminate.
  assert (H1 : original_pil_image Examples.app_sheet = Some (400, 300))
    by reflexivity.
  assert (H2 : 1 ≤ 400 < 2 ^ 31) by (change (2 ^ 31) with 2147483648; lia).
  assert (H3 : 1 ≤ 300 < 2 ^ 31) by (change (2 ^ 31) with 2147483648; lia).
  assert (H4 : 1 < label_width Examples.vp_laid_out < 2 ^ 31)
    by (change (2 ^ 31) with 2147483648; cbn; lia).
  assert (H5 : 1 < label_height Examples.vp_laid_out < 2 ^ 31)
    by (change (2 ^ 31) with 2147483648; cbn; lia).
  split; [exact H0|]. split; [exact Hne|]. split; [exact H1|].
  split; [exact (conj H2 H3)|]. split; [exact (conj H4 H5)|].
  split; [vm_compute; reflexivity|].
  exact (run_stamp_detection_outcome "/app" Sheet.path_stem Sheet.uuid4_hex
           Examples.image_open true Sheet.imread Sheet.outer_contours
           Sheet.contourArea Sheet.arcLength Sheet.approxPolyDP
           cv_boundingRect Examples.imwrite_ok Examples.vp_laid_out
           Examples.app_sheet Sheet.world0 Sheet.sheet_path 400 300
           H0 Hne H1 H2 H3 H4 H5).
Defined.

Lemma uploads_of_one_file_get_distinct_names_witness :
  let upload :=
    handle_image_upload "/app" Examples.is_file Examples.path_suffix
      Sheet.path_stem Examples.lower Examples.copy2 Sheet.uuid4_hex
      Examples.picked_file in
  let p1 :=
    "/app/data/uploaded_images/sheet_3f2a9c1e5b7d4a60b1c2d3e4f5a6b7c8.PNG" in
  let p2 :=
    "/app/data/uploaded_images/sheet_5c7e21b09a3f4d8e8f6a7b8c9d0e1f2a.PNG" in
  upload Sheet.world0 = (inr p1, {| uuid_count := 1; stdout := [] |}) ∧
  upload (Examples.world_after 1)
    = (inr p2, {| uuid_count := 3; stdout := [] |}) ∧
  Sheet.uuid4_hex (uuid_count Sheet.world0)
    ≠ Sheet.uuid4_hex (uuid_count (Examples.world_after 1)) ∧
  p1 ≠ p2 ∧
  Examples.is_file Examples.picked_file = true ∧
  Examples.lower (Examples.path_suffix Examples.picked_file)
    ∈ ALLOWED_EXTENSIONS ∧
  p1 = UPLOADED_IMAGES_DIR "/app" +:+ "/" +:+
       Sheet.path_stem Examples.picked_file +:+ "_" +:+
       Sheet.uuid4_hex (uuid_count Sheet.world0) +:+
       Examples.path_suffix Examples.picked_file ∧
  uuid_count {| uuid_count := 1; stdout := [] |}
    = S (uuid_count Sheet.world0).
Proof.
  cbv zeta.
  assert (H1 : handle_image_upload "/app" Examples.is_file
                 Examples.path_suffix Sheet.path_stem Examples.lower
                 Examples.copy2 Sheet.uuid4_hex Examples.picked_file
                 Sheet.world0
               = (inr "/app/data/uploaded_images/sheet_3f2a9c1e5b7d4a60b1c2d3e4f5a6b7c8.PNG",
                  {| uuid_count := 1; stdout := [] |}))
    by (vm_compute; reflexivity).
  assert (H2 : handle_image_upload "/app" Examples.is_file
                 Examples.path_suffix Sheet.path_stem Examples.lower
                 Examples.copy2 Sheet.uuid4_hex Examples.picked_file
                 (Examples.world_after 1)
               = (inr "/app/data/uploaded_images/sheet_5c7e21b09a3f4d8e8f6a7b8c9d0e1f2a.PNG",
                  {| uuid_count := 3; stdout := [] |}))
    by (vm_compute; reflexivity).
  assert (H3 : Sheet.uuid4_hex (uuid_count Sheet.world0)
               ≠ Sheet.uuid4_hex (uuid_count (Examples.world_after 1)))
    by (vm_compute; discriminate).
  split; [exact H1|]. split; [exact H2|]. split; [exact H3|].
  exact (uploads_of_one_file_get_distinct_names "/app" Examples.is_file
           Examples.path_suffix Sheet.path_stem Examples.lower
           Examples.copy2 Sheet.uuid4_hex Examples.picked_file
           Sheet.world0 (Examples.world_after 1) _ _ _ _ H1 H2 H3).
Defined.

End SessionFacts.

(** ** Facts about the details window of [main.py] *)

Module DetailsFacts.

Import Rounding PyFacts.

(** [Image.resize] returns the size it is given, or refuses a side of
    zero. *)
Lemma resize_cases tw th :
  0 ≤ tw → 0 ≤ th →
  (1 ≤ tw ∧ 1 ≤ th ∧ Details.resize (tw, th) = Ok (tw, th)) ∨
  ((tw = 0 ∨ th = 0) ∧ Details.resize (tw, th) = Raise ValueError).
Proof.
  intros Hw Hh. unfold Details.resize.
  destruct (Z.ltb_spec tw 1); [right; split; [lia|reflexivity]|].
  destruct (Z.ltb_spec th 1); [right; split; [lia|reflexivity]|].
  left. done.
Qed.

(** X18: the picture in the details window.  A crop of at most 200 by
    200 is shown as it is.  For a larger crop the size passed to
    [Image.resize] has 200 as its longer side and the other side
    between 0 and 200.  When one side of the crop is more than 200 times
    the other, the shorter side comes out as 0, [Image.resize] raises
    [ValueError] and no picture is shown; otherwise both sides are at
    least 1 and the picture is shown at that size.  For a crop with
    [h <= 2w] and [w <= 2h], as the detection returns them, both sides
    are at least 100.  Sizes are below [2^31]. *)
Theorem thumbnail_fits w h :
  1 ≤ w < 2 ^ 31 → 1 ≤ h < 2 ^ 31 →
  (w ≤ 200 ∧ h ≤ 200 → Details.thumbnail_size w h = Ok (w, h)) ∧
  (Details.thumbnail_size w h = Raise ValueError ↔
   200 * h < w ∨ 200 * w < h) ∧
  (200 < w ∨ 200 < h →
   match Details.thumbnail_size w h with
   | Ok (tw, th) =>
       1 ≤ tw ≤ 200 ∧ 1 ≤ th ≤ 200 ∧
       (if w >? h then tw = 200 else th = 200) ∧
       (h ≤ 2 * w → w ≤ 2 * h → 100 ≤ tw ∧ 100 ≤ th)
   | Raise e => e = ValueError
   end).
Proof.
  intros Hw Hh. unfold Details.thumbnail_size. cbv zeta.
  destruct (Z.gtb_spec w 200) as [Hwbig|Hwsmall];
    [|destruct (Z.gtb_spec h 200) as [Hhbig|Hhsmall]]; cbn [orb].
  3:{ split; [reflexivity|]. split; [|lia].
      split; [discriminate|lia]. }
  all: split; [lia|].
  all: assert (B31 : 2 ^ 31 < 2 ^ 64) by (apply Z.pow_lt_mono_r; lia).
  all: destruct (int_truediv_half w h ltac:(lia) ltac:(lia))
         as (ma & ea & u & v & -> & Hma & Hu & Hv & Hea & Hrange
             & [Hlow Hupp] & Hlow2 & Hupp2).
  all: cbn [mbind result_bind].
  all: pose proof (log2_bounds w 31 ltac:(lia)) as Lw.
  all: pose proof (log2_bounds h 31 ltac:(lia)) as Lh.
  all: destruct (ratio_bounds w h (Z.pos ma) u v ltac:(lia) ltac:(lia) Hu Hv
                   Hma Hlow Hupp) as (Hge1 & Hle1 & Hle2 & Hgehalf).
  all: assert (Hk : 1 ≤ u - v ≤ 100) by lia.
  all: assert (Eu : u = (u - v) + v) by lia.
  all: pose proof (pow2_pos v Hv) as Pv.
  all: assert (R200 :
         (w ≤ 200 * h → Z.pos ma ≤ 200 * 2 ^ (u - v)) ∧
         (200 * h < w → 200 * 2 ^ (u - v) < Z.pos ma) ∧
         (h ≤ 200 * w → 2 ^ (u - v) ≤ 200 * Z.pos ma) ∧
         (200 * w < h → 200 * Z.pos ma < 2 ^ (u - v)))
    by (apply (ratio_200 w h (Z.pos ma) (u - v)); [lia|lia|lia|done| | |];
        [apply (Z.mul_lt_mono_pos_r (2 ^ v)); [done|];
         rewrite <- (Z.mul_assoc w), <- Z.pow_add_r, <- Eu by lia; lia
        |apply (Z.mul_lt_mono_pos_r (2 ^ v)); [done|];
         rewrite <- (Z.mul_assoc w), <- Z.pow_add_r, <- Eu by lia; lia
        |apply (Z.mul_le_mono_pos_r _ _ (2 ^ v)); [done|];
         rewrite <- (Z.mul_assoc 2), <- (Z.mul_assoc w), <- Z.pow_add_r, <- Eu
           by lia; lia]).
  all: destruct R200 as (R1 & R2 & R3 & R4).
  all: replace ea with (- (u - v)) by lia.
  all: destruct (Z.gtb_spec w h) as [Hgt|Hle].
  1,3: destruct (div_200 ma (u - v) Hma ltac:(lia))
         as (q & nh & -> & Hq & Hnh & Hnh100 & Hnh1 & Hnh0);
    [specialize (Hge1 ltac:(lia)); rewrite Eu, Z.pow_add_r in Hge1 by lia;
     apply Z.mul_le_mono_pos_r in Hge1; done|].
  3,4: destruct (mul_200 ma (u - v) Hma ltac:(lia))
         as (q & nw & -> & Hq & Hnw & Hnw100 & Hnw1 & Hnw0);
    [specialize (Hle1 ltac:(lia)); rewrite Eu, Z.pow_add_r in Hle1 by lia;
     apply Z.mul_le_mono_pos_r in Hle1; done|].
  all: cbn [mbind result_bind]; rewrite Hq; cbn [mbind result_bind mret result_ret].
  1,2: assert (Hbig : h ≤ 2 * w → w ≤ 2 * h → 100 ≤ nh)
    by (intros H2w H2h; apply Hnh100;
        specialize (Hle2 H2h);
        replace (u + 1) with ((u - v + 1) + v) in Hle2 by lia;
        rewrite (Z.pow_add_r 2 (u - v + 1) v) in Hle2 by lia;
        apply Z.mul_le_mono_pos_r in Hle2; done).
  1,2: destruct (Z.le_gt_cases w (200 * h)) as [Hin|Hout];
    [specialize (Hnh1 (R1 Hin))|specialize (Hnh0 (R2 Hout)); subst nh].
  1,3: destruct (resize_cases 200 nh ltac:(lia) ltac:(lia))
         as [(_ & _ & ->)|(H0 & _)]; [|lia];
    (split; [split; [discriminate|lia]|]);
    intros _; split; [lia|]; split; [lia|]; split; [reflexivity|];
    intros; lia.
  1,2: (split; [split; [intros _; lia|intros _; reflexivity]|]); intros _; reflexivity.
  all: assert (Hbig : h ≤ 2 * w → w ≤ 2 * h → 100 ≤ nw)
    by (intros H2w H2h; apply Hnw100;
        specialize (Hgehalf H2w);
        replace u with ((u - v - 1) + (v + 1)) in Hgehalf at 1 by lia;
        rewrite (Z.pow_add_r 2 (u - v - 1) (v + 1)) in Hgehalf by lia;
        apply Z.mul_le_mono_pos_r in Hgehalf; [done|apply pow2_pos; lia]).
  all: destruct (Z.le_gt_cases h (200 * w)) as [Hin|Hout];
    [specialize (Hnw1 (R3 Hin))|specialize (Hnw0 (R4 Hout)); subst nw].
  1,3: destruct (resize_cases nw 200 ltac:(lia) ltac:(lia))
         as [(_ & _ & ->)|(H0 & _)]; [|lia];
    (split; [split; [discriminate|lia]|]);
    intros _; split; [lia|]; split; [lia|]; split; [reflexivity|];
    intros; lia.
  all: (split; [split; [intros _; lia|intros _; reflexivity]|]); intros _; reflexivity.
Qed.

(** A crop of 600 by 400 is shown at 200 by 133, one of 40000 by 200
    at 200 by 1; crops of 40001 by 200 and of 1 by 1000 are not
    shown. *)
Lemma thumbnail_fits_witness :
  (1 ≤ 600 < 2 ^ 31 ∧ 1 ≤ 400 < 2 ^ 31) ∧
  Details.thumbnail_size 600 400 = Ok (200, 133) ∧
  Details.thumbnail_size 40000 200 = Ok (200, 1) ∧
  Details.thumbnail_size 40001 200 = Raise ValueError ∧
  Details.thumbnail_size 1 1000 = Raise ValueError ∧
  (600 ≤ 200 ∧ 400 ≤ 200 → Details.thumbnail_size 600 400 = Ok (600, 400)) ∧
  (Details.thumbnail_size 600 400 = Raise ValueError ↔
   200 * 400 < 600 ∨ 200 * 600 < 400) ∧
  (200 < 600 ∨ 200 < 400 →
   match Details.thumbnail_size 600 400 with
   | Ok (tw, th) =>
       1 ≤ tw ≤ 200 ∧ 1 ≤ th ≤ 200 ∧
       (if 600 >? 400 then tw = 200 else th = 200) ∧
       (400 ≤ 2 * 600 → 600 ≤ 2 * 400 → 100 ≤ tw ∧ 100 ≤ th)
   | Raise e => e = ValueError
   end).
Proof.
  assert (H1 : 1 ≤ 600 < 2 ^ 31) by (change (2 ^ 31) with 2147483648; lia).
  assert (H2 : 1 ≤ 400 < 2 ^ 31) by (change (2 ^ 31) with 2147483648; lia).
  split; [exact (conj H1 H2)|]. split; [vm_compute; reflexivity|].
  split; [vm_compute; reflexivity|]. split; [vm_compute; reflexivity|].
  split; [vm_compute; reflexivity|].
  exact (thumbnail_fits 600 400 H1 H2).
Defined.

End DetailsFacts.

